(** * GoldenPCA: covariance and shifted-QR eigen solver (golden_pca.hpp)

    A shallow embedding of the class template [GoldenPCA<T>] and of its
    three entry points: the constructor, [ComputeCovarianceMatrix] and
    [ComputeEigenValuesAndVectors].

    Modelling choices.
    - [double] is Rocq's primitive binary64 [float]; every arithmetic
      operation of the source on a [double] is the primitive operation.
    - The storage type [T] of the template is a parameter with the
      conversions C++ inserts implicitly ([Scalar]); [double] itself is
      an instance.
    - [std::vector] is a [list], read with [!!!] and written with
      [<[i:=x]>].  An access out of range is undefined behaviour in the
      source; here the read gives the default and the write does
      nothing, and the theorems that depend on an access carry the
      in-range hypothesis.
    - [int] sizes and loop counters are [nat] (a negative size makes
      [resize] throw; overflow of [int] is undefined behaviour and is
      not modelled); [shift_row], which does go negative, is a [Z].
    - [std::cout] is a list of printed items threaded through the
      methods.
    - The [while] loop of the solver takes fuel: [None] means the fuel
      ran out before the loop was left. *)

From Stdlib Require Import ZArith Floats Lia Bool String.
From stdpp Require Import base list.

Set Default Proof Using "Type".
Local Open Scope nat_scope.

(** ** Loops *)

(** [for (int k = 0; k < n; k++) s = body k s]. *)
Definition for_loop {S : Type} (n : nat) (body : nat -> S -> S) (s : S) : S :=
  fold_left (fun s k => body k s) (seq 0 n) s.

(** [for (int k = lo; k < hi; k++) s = body k s]. *)
Definition for_range {S : Type} (lo hi : nat) (body : nat -> S -> S) (s : S) : S :=
  fold_left (fun s k => body k s) (seq lo (hi - lo)) s.

(** ** Scalars *)

Global Instance float_inhabited : Inhabited float := populate 0%float.

(** What the template needs of its storage type [T]: the implicit
    conversions from and to [double] and from [int], and the product of
    two [T] values (line 81 multiplies in [T] before the sum is taken
    in [double]). *)
Class Scalar (T : Type) := {
  of_double : float -> T;
  to_double : T -> float;
  of_int : Z -> T;
  mulT : T -> T -> T
}.

Definition double_of_int (z : Z) : float :=
  if (z <? 0)%Z then (- PrimFloat.of_uint63 (Uint63.of_Z (- z)))%float
  else PrimFloat.of_uint63 (Uint63.of_Z z).

(** [GoldenPCA<double>]. *)
Global Instance double_scalar : Scalar float := {
  of_double x := x;
  to_double x := x;
  of_int := double_of_int;
  mulT := PrimFloat.mul
}.

(** [GoldenPCA<float>]: a binary32 value is kept as the [double] of the
    same value.  [to_single] is the conversion of a [double] to [float],
    rounding to nearest even in the binary32 format; the product of two
    [float]s is their exact product, which a [double] holds, rounded the
    same way. *)
Definition to_single (x : float) : float :=
  SF2Prim match Prim2SF x with
          | S754_finite s m e => binary_round 24 128 s m e
          | sf => sf
          end.

Record single : Type := Single { single_value : float }.

Global Instance single_scalar : Scalar single := {
  of_double x := Single (to_single x);
  to_double x := single_value x;
  of_int z := Single (to_single (double_of_int z));
  mulT x y := Single (to_single (single_value x * single_value y))
}.

(** [constexpr float kZeroThreshold = 1e-8]: the binary32 value nearest
    to 1e-8, promoted to [double] where it is compared. *)
Definition kZeroThreshold : float := 0x1.5798eep-27%float.

(** The [double] nearest to the literal 0.99. *)
Definition k099 : float := 0x1.fae147ae147aep-1%float.

(** ** The object *)

Section Golden.
Context {T : Type} `{ST : Scalar T}.

(** Value initialisation [T()] of [resize]. *)
Definition T0 : T := of_int 0.

#[global] Instance T_inhabited : Inhabited T | 100 := populate T0.

(** What [operator<<] receives. *)
Inductive out_item : Type :=
| OStr (s : string)
| OInt (z : Z)
| OVal (x : T)
| ODouble (x : float)
| OEndl.

Definition cout : Type := list out_item.

Record GoldenPCA : Type := mkGoldenPCA {
  samples : nat;
  features : nat;
  matrix_count : nat;
  debug : bool;
  benchmark_mode : bool;
  a_matrix : list T;
  covariance_matrix : list T;
  eigenvalues : list T;
  eigenvectors : list T;
  iterations : list T
}.

Definition set_covariance_matrix (o : GoldenPCA) (v : list T) : GoldenPCA :=
  mkGoldenPCA (samples o) (features o) (matrix_count o) (debug o)
    (benchmark_mode o) (a_matrix o) v (eigenvalues o) (eigenvectors o)
    (iterations o).

Definition set_eigen (o : GoldenPCA) (vals vecs its : list T) : GoldenPCA :=
  mkGoldenPCA (samples o) (features o) (matrix_count o) (debug o)
    (benchmark_mode o) (a_matrix o) (covariance_matrix o) vals vecs its.

(** The numerical outputs of a run: everything but the flags. *)
Definition outputs (o : GoldenPCA) : list T * list T * list T * list T :=
  (covariance_matrix o, eigenvalues o, eigenvectors o, iterations o).

(** *** Constructor (lines 43-64) *)

Definition GoldenPCA_new (n p count : nat) (d benchmark : bool)
    (input_mat : list (list T)) : GoldenPCA :=
  let a_matrix := replicate (n * p * count) T0 in
  let a_matrix :=
    for_loop n (fun r a_matrix =>
      for_loop p (fun c a_matrix =>
        <[r * p + c := (input_mat !!! r) !!! c]> a_matrix) a_matrix)
      a_matrix in
  {| samples := n;
     features := p;
     matrix_count := count;
     debug := d;
     benchmark_mode := benchmark;
     a_matrix := a_matrix;
     covariance_matrix := replicate (p * p * count) T0;
     eigenvalues := replicate (p * count) T0;
     eigenvectors := replicate (p * p * count) T0;
     iterations := replicate count T0 |}.

(** *** Covariance (lines 67-115) *)

(** Lines 79-83: the accumulator is a [double]; each product is taken
    in [T] and promoted. *)
Definition dot_product_loop (o : GoldenPCA) (a_matrix_offset row column : nat)
    : float :=
  for_loop (samples o) (fun k dot_product =>
    let x := a_matrix o !!! (a_matrix_offset + k * features o + row) in
    let y := a_matrix o !!! (a_matrix_offset + k * features o + column) in
    (dot_product + to_double (mulT x y))%float)
    0%float.

Definition print_cov (o : GoldenPCA) (matrix_c_offset : nat) (cov : list T)
    (out : cout) : cout :=
  let out := out ++ [OStr "Cov=["] in
  let out :=
    for_loop (features o) (fun row out =>
      let out :=
        for_loop (features o) (fun column out =>
          out ++ [OVal (cov !!! (matrix_c_offset + row * features o + column));
                  OStr " "]) out in
      if negb (row =? features o - 1) then out ++ [OStr "; "] else out) out in
  out ++ [OStr "]"; OEndl].

Definition ComputeCovarianceIthMatrix (matrix_index : nat)
    (w : GoldenPCA * cout) : GoldenPCA * cout :=
  let '(o, out) := w in
  let out :=
    if debug o
    then out ++ [OStr "\nCovariance matrix #"; OInt (Z.of_nat matrix_index); OEndl]
    else out in
  let a_matrix_offset := matrix_index * samples o * features o in
  let matrix_c_offset := matrix_index * features o * features o in
  let '(cov, out) :=
    for_loop (features o) (fun row '(cov, out) =>
      let '(cov, out) :=
        for_loop (features o) (fun column '(cov, out) =>
          let dot_product := dot_product_loop o a_matrix_offset row column in
          let cov :=
            <[matrix_c_offset + row * features o + column := of_double dot_product]> cov in
          let out :=
            if debug o
            then out ++ [OVal (cov !!! (matrix_c_offset + row * features o + column));
                         OStr " "]
            else out in
          (cov, out)) (cov, out) in
      (cov, if debug o then out ++ [OEndl] else out))
      (covariance_matrix o, out) in
  let out := if debug o then print_cov o matrix_c_offset cov out else out in
  (set_covariance_matrix o cov, out).

Definition ComputeCovarianceMatrix (w : GoldenPCA * cout) : GoldenPCA * cout :=
  for_loop (matrix_count (fst w)) ComputeCovarianceIthMatrix w.

(** *** Eigen solver (lines 118-314) *)

(** Lines 162-165: [row_is_zero &= fabs(rq[row * features + col]) <
    kZeroThreshold] over the entries left of the diagonal. *)
Definition row_is_zero (features : nat) (rq : list float) (row : nat) : bool :=
  for_loop row (fun col row_is_zero =>
    let x := rq !!! (row * features + col) in
    row_is_zero && (abs x <? kZeroThreshold)%float) true.

(** Lines 160-170: the scan [for (row = features - 1; row >= 1; row--)]
    with its [break]; [shift_row] is decremented once per row that is
    zero left of the diagonal. *)
Fixpoint find_shift_row (features : nat) (rq : list float) (row : nat)
    (shift_row : Z) : Z :=
  match row with
  | 0 => shift_row
  | S row' =>
      if negb (row_is_zero features rq row) then shift_row
      else find_shift_row features rq row' (shift_row - 1)
  end.

(** Lines 185-190.  [abs] is the [double] overload that the C++
    [<math.h>] brings into scope. *)
Definition compute_shift (a b c : float) : float :=
  (let d := (a - c) / 2 in
   let b_squared := b * b in
   let d_squared := d * d in
   let b_squared_signed := if d <? 0 then - b_squared else b_squared in
   c - b_squared_signed / (abs d + sqrt (d_squared + b_squared)))%float.

(** Lines 156-199: the shift used by the iteration numbered [iters]. *)
Definition shift_value_at (features : nat) (rq : list float) (iters : nat)
    : float :=
  let shift_value := 0%float in
  let shift_row :=
    find_shift_row features rq (features - 1) (Z.of_nat features - 2) in
  let shift_value :=
    if (0 <=? shift_row)%Z then
      let s := Z.to_nat shift_row in
      let a := rq !!! (s + features * s) in
      let b := rq !!! (s + features * (s + 1)) in
      let c := rq !!! ((s + 1) + features * (s + 1)) in
      compute_shift a b c
    else shift_value in
  if iters =? 0 then 0%float else (shift_value * k099)%float.

(** Lines 202-204 and 270-272. *)
Definition sub_diagonal (features : nat) (shift_value : float) (rq : list float)
    : list float :=
  for_loop features (fun row rq =>
    let x := rq !!! (row + features * row) in
    <[row + features * row := (x - shift_value)%float]> rq) rq.

Definition add_diagonal (features : nat) (shift_value : float) (rq : list float)
    : list float :=
  for_loop features (fun row rq =>
    let x := rq !!! (row + features * row) in
    <[row + features * row := (x + shift_value)%float]> rq) rq.

(** Lines 207-212. *)
Definition clear_qr (features : nat) (qr : list float * list float)
    : list float * list float :=
  for_loop features (fun row qr =>
    for_loop features (fun column '(q, r) =>
      let r := <[row * features + column := 0%float]> r in
      let q := <[row * features + column := 0%float]> q in
      (q, r)) qr) qr.

(** Lines 213-236: Gram-Schmidt on the columns of [rq]. *)
Definition column_norm (features : nat) (rq : list float) (i : nat) : float :=
  for_loop features (fun k norm =>
    let x := rq !!! (k * features + i) in (norm + x * x)%float) 0%float.

Definition column_dot (features : nat) (q rq : list float) (i j : nat) : float :=
  for_loop features (fun k dp =>
    let x := q !!! (k * features + i) in
    let y := rq !!! (k * features + j) in (dp + x * y)%float) 0%float.

Definition gram_schmidt (features : nat)
    (s : list float * list float * list float)
    : list float * list float * list float :=
  for_loop features (fun i '(q, r, rq) =>
    let norm := column_norm features rq i in
    let rii := sqrt norm in
    let r := <[i * features + i := rii]> r in
    let q :=
      for_loop features (fun k q =>
        let x := rq !!! (k * features + i) in
        <[k * features + i := (x / rii)%float]> q) q in
    for_range (i + 1) features (fun j '(q, r, rq) =>
      let dp := column_dot features q rq i j in
      let r := <[i * features + j := dp]> r in
      let rq :=
        for_loop features (fun k rq =>
          let x := rq !!! (k * features + j) in
          let y := q !!! (k * features + i) in
          <[k * features + j := (x - dp * y)%float]> rq) rq in
      (q, r, rq)) (q, r, rq)) s.

(** Lines 239-257: [eigenvectors = eigenvectors * q], through the
    temporary [eigenvectors_q_product]. *)
Definition eigenvectors_entry (features offset : nat) (eigenvectors : list T)
    (q : list float) (row col : nat) : float :=
  for_loop features (fun k prod =>
    let x := to_double (eigenvectors !!! (offset + row * features + k)) in
    let y := q !!! (k * features + col) in (prod + x * y)%float) 0%float.

Definition update_eigenvectors (features offset : nat) (q : list float)
    (eigenvectors : list T) : list T :=
  let eigenvectors_q_product := replicate (features * features) T0 in
  let eigenvectors_q_product :=
    for_loop features (fun row eqp =>
      for_loop features (fun col eqp =>
        let prod := eigenvectors_entry features offset eigenvectors q row col in
        <[row * features + col := of_double prod]> eqp) eqp)
      eigenvectors_q_product in
  for_loop features (fun row eigenvectors =>
    for_loop features (fun col eigenvectors =>
      <[offset + row * features + col :=
          eigenvectors_q_product !!! (row * features + col)]> eigenvectors)
      eigenvectors) eigenvectors.

(** Lines 259-267: [rq = r * q]. *)
Definition rq_entry (features : nat) (r q : list float) (row col : nat) : float :=
  for_loop features (fun k prod =>
    let x := r !!! (row * features + k) in
    let y := q !!! (k * features + col) in (prod + x * y)%float) 0%float.

Definition recompose (features : nat) (r q rq : list float) : list float :=
  for_loop features (fun row rq =>
    for_loop features (fun col rq =>
      <[row * features + col := rq_entry features r q row col]> rq) rq) rq.

(** Lines 275-282. *)
Definition all_below_threshold (features : nat) (rq : list float) : bool :=
  for_range 1 features (fun row all_below_threshold =>
    for_loop row (fun col all_below_threshold =>
      let x := rq !!! (row * features + col) in
      all_below_threshold && (abs x <? kZeroThreshold)%float)
      all_below_threshold) true.

(** The variables that live across the iterations of the [while] loop. *)
Record qr_state : Type := mkQR {
  qr_q : list float;
  qr_r : list float;
  qr_rq : list float;
  qr_eigenvectors : list T
}.

(** Lines 155-282: one pass through the body of the [while] loop, up to
    the assignment of [converged]. *)
Definition qr_iteration (features offset iters : nat) (s : qr_state)
    : qr_state * bool :=
  let shift_value := shift_value_at features (qr_rq s) iters in
  let rq := sub_diagonal features shift_value (qr_rq s) in
  let '(q, r) := clear_qr features (qr_q s, qr_r s) in
  let '(q, r, rq) := gram_schmidt features (q, r, rq) in
  let eigenvectors := update_eigenvectors features offset q (qr_eigenvectors s) in
  let rq := recompose features r q rq in
  let rq := add_diagonal features shift_value rq in
  let converged := all_below_threshold features rq in
  (mkQR q r rq eigenvectors, converged).

(** Lines 152-289: the [while (!converged)] loop.  The result is the
    counter, the state, and whether the loop was left by the [break] of
    line 287 (which prints its message whatever [debug] is). *)
Fixpoint qr_loop (fuel features offset : nat) (benchmark : bool) (iters : nat)
    (s : qr_state) : option (nat * qr_state * bool) :=
  match fuel with
  | 0 => None
  | S fuel =>
      let '(s, converged) := qr_iteration features offset iters s in
      let iters := S iters in
      if (features * features * 16 <? iters) && negb benchmark
      then Some (iters, s, true)
      else if converged then Some (iters, s, false)
      else qr_loop fuel features offset benchmark iters s
  end.

Definition print_eigenvectors (o : GoldenPCA) (matrix_index offset : nat)
    (eigenvectors : list T) (out : cout) : cout :=
  let out :=
    out ++ [OStr "Eigenvectors for matrix #"; OInt (Z.of_nat matrix_index); OEndl] in
  let out :=
    for_loop (features o) (fun row out =>
      let out :=
        for_loop (features o) (fun col out =>
          out ++ [OVal (eigenvectors !!! (offset + row * features o + col));
                  OStr " "]) out in
      out ++ [OEndl]) out in
  out ++ [OEndl].

(** Lines 129-149: the working vectors of one solve; [rq] is a copy of
    the covariance matrix and the eigenvector block is the identity. *)
Definition qr_init (o : GoldenPCA) (matrix_index : nat) : qr_state :=
  let features := features o in
  let offset := matrix_index * features * features in
  let q := replicate (features * features) 0%float in
  let r := replicate (features * features) 0%float in
  let rq := replicate (features * features) 0%float in
  let rq :=
    for_loop (features * features) (fun k rq =>
      <[k := to_double (covariance_matrix o !!! (offset + k))]> rq) rq in
  let eigenvectors :=
    for_loop features (fun row eigenvectors =>
      for_loop features (fun column eigenvectors =>
        <[offset + row * features + column :=
            of_int (if row =? column then 1 else 0)]> eigenvectors)
        eigenvectors) (eigenvectors o) in
  mkQR q r rq eigenvectors.

(** Lines 291-312: what is stored and printed once the loop is left. *)
Definition report (o : GoldenPCA) (matrix_index : nat) (out : cout)
    (iters : nat) (s : qr_state) : GoldenPCA * cout :=
  let features := features o in
  let offset := matrix_index * features * features in
  let rq := qr_rq s in
  let out :=
    if debug o
    then out ++ [OStr "QR iteration stopped after "; OInt (Z.of_nat iters);
                 OStr " iterations"; OEndl]
    else out in
  let its := <[matrix_index := of_int (Z.of_nat iters)]> (iterations o) in
  let out :=
    if debug o
    then out ++ [OStr "Eigenvalues for matrix #";
                 OInt (Z.of_nat matrix_index); OEndl]
    else out in
  let '(vals, out) :=
    for_loop features (fun k '(vals, out) =>
      let vals :=
        <[k + matrix_index * features := of_double (rq !!! (k + features * k))]> vals in
      (vals,
       if debug o then out ++ [ODouble (rq !!! (k + features * k)); OStr " "]
       else out)) (eigenvalues o, out) in
  let out := if debug o then out ++ [OEndl] else out in
  let out :=
    if debug o
    then print_eigenvectors o matrix_index offset (qr_eigenvectors s) out
    else out in
  (set_eigen o vals (qr_eigenvectors s) its, out).

(** Lines 125-312: the body of the loop over [matrix_index]. *)
Definition solve_matrix (fuel matrix_index : nat) (w : GoldenPCA * cout)
    : option (GoldenPCA * cout) :=
  let '(o, out) := w in
  let out :=
    if debug o
    then out ++ [OStr "\nComputing Eigenvalues and vectors of matrix #";
                 OInt (Z.of_nat matrix_index); OEndl]
    else out in
  let offset := matrix_index * features o * features o in
  match qr_loop fuel (features o) offset (benchmark_mode o) 0
          (qr_init o matrix_index) with
  | None => None
  | Some (iters, s, aborted) =>
      let out :=
        if aborted then out ++ [OStr "Number of iterations too high"; OEndl]
        else out in
      Some (report o matrix_index out iters s)
  end.

(** Lines 118-314. *)
Definition ComputeEigenValuesAndVectors (fuel : nat) (w : GoldenPCA * cout)
    : option (GoldenPCA * cout) :=
  for_loop (matrix_count (fst w)) (fun matrix_index ow =>
    match ow with
    | Some w => solve_matrix fuel matrix_index w
    | None => None
    end) (Some w).

End Golden.

Arguments GoldenPCA T : clear implicits.
Arguments out_item T : clear implicits.
Arguments cout T : clear implicits.
Arguments qr_state T : clear implicits.

(** ** Notions used to state the properties *)

(** [v'] has the size of [v] and differs from it at most where [P] holds. *)
Definition same_outside {A : Type} `{!Inhabited A} (P : nat -> Prop)
    (v v' : list A) : Prop :=
  length v' = length v /\ forall i, ~ P i -> v' !!! i = v !!! i.

(** The sizes the constructor gives the five vectors. *)
Definition well_sized {T : Type} `{ST : Scalar T} (o : GoldenPCA T) : Prop :=
  length (a_matrix o) = samples o * features o * matrix_count o /\
  length (covariance_matrix o) = features o * features o * matrix_count o /\
  length (eigenvalues o) = features o * matrix_count o /\
  length (eigenvectors o) = features o * features o * matrix_count o /\
  length (iterations o) = matrix_count o.

(** Entry [(k, j)] of the sample matrix of batch entry [m]. *)
Definition sample_entry {T : Type} `{ST : Scalar T} (o : GoldenPCA T)
    (m k j : nat) : T :=
  a_matrix o !!! (m * samples o * features o + k * features o + j).

(** Following the words of the covariance contract: the dot product of
    column [row] with column [col] of a sample matrix [A] over its
    first [n] rows, summed in [double] from the first row on, with no
    division by degrees of freedom. *)
Fixpoint column_dot_product {T : Type} `{ST : Scalar T} (A : nat -> nat -> T)
    (row col n : nat) : float :=
  match n with
  | 0 => 0%float
  | S k =>
      (column_dot_product A row col k + to_double (mulT (A k row) (A k col)))%float
  end.

(** The same object with another [debug] flag. *)
Definition with_debug {T : Type} (d : bool) (o : GoldenPCA T) : GoldenPCA T :=
  mkGoldenPCA (samples o) (features o) (matrix_count o) d (benchmark_mode o)
    (a_matrix o) (covariance_matrix o) (eigenvalues o) (eigenvectors o)
    (iterations o).

(** Everything of an object but its [debug] flag. *)
(** The same object with another [benchmark_mode] flag. *)
Definition with_benchmark {T : Type} (b : bool) (o : GoldenPCA T) : GoldenPCA T :=
  mkGoldenPCA (samples o) (features o) (matrix_count o) (debug o) b
    (a_matrix o) (covariance_matrix o) (eigenvalues o) (eigenvectors o)
    (iterations o).

Definition same_numbers {T : Type} (o1 o2 : GoldenPCA T) : Prop :=
  with_debug false o1 = with_debug false o2.

(** Two results of a solve that agree on everything but what was
    printed and the flag. *)
Definition same_result {T : Type} (r1 r2 : option (GoldenPCA T * cout T))
    : Prop :=
  match r1, r2 with
  | Some w1, Some w2 => same_numbers (fst w1) (fst w2)
  | None, None => True
  | _, _ => False
  end.

(** The state of the [while] loop after its first [k] passes. *)
Fixpoint qr_iterate {T : Type} `{ST : Scalar T} (features offset k : nat)
    (s : qr_state T) : qr_state T :=
  match k with
  | 0 => s
  | S k' =>
      fst (qr_iteration features offset k' (qr_iterate features offset k' s))
  end.

(** The value [converged] takes in the pass numbered [k] (from 0). *)
Definition converged_in_pass {T : Type} `{ST : Scalar T}
    (features offset k : nat) (s : qr_state T) : bool :=
  snd (qr_iteration features offset k (qr_iterate features offset k s)).

(** The working matrix of the pass numbered [k] once the shift has been
    subtracted from its diagonal: what Gram-Schmidt is run on. *)
Definition shifted_in_pass {T : Type} `{ST : Scalar T}
    (features offset k : nat) (s : qr_state T) : list float :=
  let rq := qr_rq (qr_iterate features offset k s) in
  sub_diagonal features (shift_value_at features rq k) rq.

(** A [double] that is a zero of either sign, or not a number. *)
Definition zero_or_nan (x : float) : bool := is_zero x || is_nan x.

(** Following the words of the interface description: the input is an
    ordered collection of [matrixCount] sample matrices, each
    [samples x features] and row-major; this is entry [(r, c)] of its
    matrix number [m]. *)
Definition collection_entry {T : Type} `{!Inhabited T} (p : nat)
    (input_mat : list (list T)) (m r c : nat) : T :=
  (input_mat !!! m) !!! (r * p + c).

(** The input as the constructor reads it: one matrix, a vector of
    [samples] rows of [features] entries each. *)
Definition well_formed_input {T : Type} (n p : nat) (input_mat : list (list T))
    : Prop :=
  length input_mat = n /\ Forall (fun row => length row = p) input_mat.

(** The same on the specification side of the primitive floats. *)
Inductive sf_zero_or_nan : spec_float -> Prop :=
| sf_is_zero (s : bool) : sf_zero_or_nan (S754_zero s)
| sf_is_nan : sf_zero_or_nan S754_nan.

(** Two states of the [while] loop, of two solves whose eigenvector
    blocks are at [off1] and [off2]: the working matrices are the same
    and the two blocks hold the same entries. *)
Definition qr_agree {T : Type} `{ST : Scalar T} (f off1 off2 : nat)
    (s1 s2 : qr_state T) : Prop :=
  qr_q s1 = qr_q s2 /\ qr_r s1 = qr_r s2 /\ qr_rq s1 = qr_rq s2 /\
  off1 + f * f <= length (qr_eigenvectors s1) /\
  off2 + f * f <= length (qr_eigenvectors s2) /\
  forall row col, row < f -> col < f ->
    qr_eigenvectors s1 !!! (off1 + row * f + col) =
    qr_eigenvectors s2 !!! (off2 + row * f + col).

(** Two objects that pose the same problem to the solver: the solver
    reads [features], [benchmark_mode], [matrix_count] and
    [covariance_matrix], and writes into vectors of the right sizes. *)
Definition same_problem {T : Type} `{ST : Scalar T} (o o1 : GoldenPCA T) : Prop :=
  features o1 = features o /\ benchmark_mode o1 = benchmark_mode o /\
  matrix_count o1 = matrix_count o /\
  covariance_matrix o1 = covariance_matrix o /\ well_sized o1.

(** A [double] that is not below zero: a positive zero, a positive
    number, plus infinity, or not a number. *)
Inductive sf_not_negative : spec_float -> Prop :=
| sf_nn_zero : sf_not_negative (S754_zero false)
| sf_nn_infinity : sf_not_negative (S754_infinity false)
| sf_nn_nan : sf_not_negative S754_nan
| sf_nn_finite (m : positive) (e : Z) : sf_not_negative (S754_finite false m e).

(** Two concrete [double]s that differ. *)
Ltac float_discriminate H :=
  apply (f_equal Prim2SF) in H; vm_compute in H; discriminate H.

(** ** Inputs used as examples *)

(** One sample with two features, both zero: its covariance matrix is
    the 2 x 2 zero matrix. *)
Definition zero_batch (benchmark : bool) : GoldenPCA float :=
  fst (ComputeCovarianceMatrix
         (GoldenPCA_new 1 2 1 false benchmark [[0; 0]]%float, [])).

(** Two samples whose covariance matrix is already diagonal, diag(4, 1). *)
Definition diagonal_batch (benchmark : bool) : GoldenPCA float :=
  fst (ComputeCovarianceMatrix
         (GoldenPCA_new 2 2 1 false benchmark [[2; 0]; [0; 1]]%float, [])).

(** A symmetric 3 x 3 matrix whose last row is not zero left of the
    diagonal while the entry next to the diagonal is. *)
Definition coupled_3x3 : list float :=
  [2; 0; 1;
   0; 1; 0;
   1; 0; 1]%float.

(** A batch of two entries that hold the same covariance matrix, with
    the vectors of the results still zero. *)
Definition symmetric_pair : GoldenPCA float :=
  mkGoldenPCA 0 2 2 false false [] [2; 1; 1; 2; 2; 1; 1; 2]%float
    (replicate 4 0%float) (replicate 8 0%float) (replicate 2 0%float).

(** What the solver makes of [symmetric_pair] in five passes per entry:
    eigenvalues near 3 and 1, eigenvectors near (1, 1) / sqrt 2 and
    (-1, 1) / sqrt 2. *)
Definition symmetric_pair_solved : GoldenPCA float :=
  mkGoldenPCA 0 2 2 false false [] [2; 1; 1; 2; 2; 1; 1; 2]%float
    [0x1.7fffffffffffep+1; 1; 0x1.7fffffffffffep+1; 1]%float
    [0x1.6a09e66931491p-1; -0x1.6a09e666b6312p-1;
     0x1.6a09e666b6308p-1; 0x1.6a09e66931487p-1;
     0x1.6a09e66931491p-1; -0x1.6a09e666b6312p-1;
     0x1.6a09e666b6308p-1; 0x1.6a09e66931487p-1]%float
    [5; 5]%float.

(** * Properties *)

(** ** Reasoning about the loops *)

Section Loops.
Context {S : Type}.

Lemma for_loop_0 (body : nat -> S -> S) (s : S) : for_loop 0 body s = s.
Proof. reflexivity. Qed.

Lemma for_loop_S (n : nat) (body : nat -> S -> S) (s : S) :
  for_loop (Datatypes.S n) body s = body n (for_loop n body s).
Proof.
  unfold for_loop. rewrite seq_S, fold_left_app. reflexivity.
Qed.

(** The invariant rule: [P k] holds before the pass numbered [k]. *)
Lemma for_loop_ind (P : nat -> S -> Prop) (n : nat) (body : nat -> S -> S) (s : S) :
  P 0 s ->
  (forall k s, k < n -> P k s -> P (Datatypes.S k) (body k s)) ->
  P n (for_loop n body s).
Proof.
  intros H0 Hstep. induction n as [|n IH].
  - exact H0.
  - rewrite for_loop_S. apply Hstep; [lia|]. apply IH.
    intros k s' Hk. apply Hstep. lia.
Qed.

Lemma for_range_for_loop (lo hi : nat) (body : nat -> S -> S) (s : S) :
  for_range lo hi body s = for_loop (hi - lo) (fun k => body (lo + k)) s.
Proof.
  unfold for_range, for_loop. generalize (hi - lo) as n. intros n.
  revert lo s. induction n as [|n IH]; intros lo s; [reflexivity|].
  cbn [seq fold_left]. rewrite Nat.add_0_r, IH, <- seq_shift.
  clear IH. generalize (seq 0 n) as l. generalize (body lo s) as s'.
  intros s' l. revert s'. induction l as [|x l IH]; intros s'; [reflexivity|].
  cbn. rewrite Nat.add_succ_r. apply IH.
Qed.

(** An invariant that does not mention the counter. *)
Lemma for_loop_inv (P : S -> Prop) (n : nat) (body : nat -> S -> S) (s : S) :
  P s -> (forall k s, k < n -> P s -> P (body k s)) -> P (for_loop n body s).
Proof. intros H0 Hstep. apply (for_loop_ind (fun _ => P)); auto. Qed.

Lemma for_range_inv (P : S -> Prop) (lo hi : nat) (body : nat -> S -> S) (s : S) :
  P s -> (forall k s, lo <= k < hi -> P s -> P (body k s)) ->
  P (for_range lo hi body s).
Proof.
  intros H0 Hstep. rewrite for_range_for_loop. apply for_loop_inv; [exact H0|].
  intros k s' Hk. apply Hstep. lia.
Qed.

End Loops.

(** Two loops run side by side. *)
Lemma for_loop_rel {S1 S2 : Type} (R : S1 -> S2 -> Prop) (n : nat)
    (body1 : nat -> S1 -> S1) (body2 : nat -> S2 -> S2) (s1 : S1) (s2 : S2) :
  R s1 s2 ->
  (forall k s1 s2, k < n -> R s1 s2 -> R (body1 k s1) (body2 k s2)) ->
  R (for_loop n body1 s1) (for_loop n body2 s2).
Proof.
  intros H0 Hstep. induction n as [|n IH]; [exact H0|].
  rewrite !for_loop_S. apply Hstep; [lia|]. apply IH.
  intros k a b Hk. apply Hstep. lia.
Qed.

(** ** Reasoning about the vectors *)

Section Vectors.
Context {A : Type} `{!Inhabited A}.

Lemma same_outside_refl (P : nat -> Prop) (v : list A) : same_outside P v v.
Proof. split; reflexivity. Qed.

Lemma same_outside_trans (P : nat -> Prop) (v1 v2 v3 : list A) :
  same_outside P v1 v2 -> same_outside P v2 v3 -> same_outside P v1 v3.
Proof.
  intros [L1 H1] [L2 H2]. split; [congruence|].
  intros i Hi. rewrite H2, H1 by assumption. reflexivity.
Qed.

Lemma same_outside_insert (P : nat -> Prop) (v : list A) (i : nat) (x : A) :
  P i -> same_outside P v (<[i:=x]> v).
Proof.
  intros Hi. split; [apply length_insert|].
  intros j Hj. apply list_lookup_total_insert_ne. intros ->. exact (Hj Hi).
Qed.

Lemma same_outside_for_loop (P : nat -> Prop) (n : nat)
    (body : nat -> list A -> list A) (v : list A) :
  (forall k v, k < n -> same_outside P v (body k v)) ->
  same_outside P v (for_loop n body v).
Proof.
  intros H. apply (for_loop_inv (same_outside P v)).
  - apply same_outside_refl.
  - intros k s Hk Hs. eapply same_outside_trans; [exact Hs|]. apply H, Hk.
Qed.

(** A loop that writes one entry per pass, [v[idx k] = h k v[idx k]]:
    what it leaves at the entries it writes and at the others. *)
Lemma for_loop_update (n : nat) (idx : nat -> nat) (h : nat -> A -> A) (v : list A) :
  (forall k k', k < n -> k' < n -> idx k = idx k' -> k = k') ->
  (forall k, k < n -> idx k < length v) ->
  let v' := for_loop n (fun k v => <[idx k := h k (v !!! idx k)]> v) v in
  length v' = length v /\
  (forall i, (forall k, k < n -> idx k <> i) -> v' !!! i = v !!! i) /\
  (forall k, k < n -> v' !!! idx k = h k (v !!! idx k)).
Proof.
  intros Hinj Hlen. cbv zeta.
  induction n as [|n IH].
  - rewrite for_loop_0. repeat split; intros; lia.
  - rewrite for_loop_S.
    destruct IH as (L & Hout & Hin);
      [intros; apply Hinj; lia | intros; apply Hlen; lia|].
    set (w := for_loop n _ v) in *.
    split; [rewrite length_insert; exact L|]. split.
    + intros i Hi. rewrite list_lookup_total_insert_ne by (apply Hi; lia).
      apply Hout. intros k Hk. apply Hi. lia.
    + intros k Hk. destruct (decide (k = n)) as [->|Hne].
      * rewrite list_lookup_total_insert_eq by (rewrite L; apply Hlen; lia).
        f_equal. apply Hout. intros k Hk' E. apply Hinj in E; lia.
      * rewrite list_lookup_total_insert_ne
          by (intros E; apply Hinj in E; lia).
        apply Hin. lia.
Qed.

(** Two nested loops that fill a block, [v[idx r c] = F r c]. *)
Lemma for_loop_fill2 (n m : nat) (idx : nat -> nat -> nat)
    (F : nat -> nat -> A) (v : list A) :
  (forall r c r' c', r < n -> c < m -> r' < n -> c' < m ->
     idx r c = idx r' c' -> r = r' /\ c = c') ->
  (forall r c, r < n -> c < m -> idx r c < length v) ->
  let v' :=
    for_loop n (fun r v => for_loop m (fun c v => <[idx r c := F r c]> v) v) v in
  length v' = length v /\
  (forall i, (forall r c, r < n -> c < m -> idx r c <> i) -> v' !!! i = v !!! i) /\
  (forall r c, r < n -> c < m -> v' !!! idx r c = F r c).
Proof.
  intros Hinj Hlen. cbv zeta.
  induction n as [|n IH].
  - rewrite for_loop_0. repeat split; intros; lia.
  - rewrite for_loop_S.
    destruct IH as (L & Hout & Hin);
      [intros; eapply Hinj; eauto; lia | intros; apply Hlen; lia|].
    set (w := for_loop n _ v) in *.
    destruct (for_loop_update m (idx n) (fun c _ => F n c) w) as (L' & Hout' & Hin').
    { intros c c' Hc Hc' E. apply (Hinj n c n c') in E; lia. }
    { intros c Hc. rewrite L. apply Hlen; lia. }
    cbv beta in *. split; [congruence|]. split.
    + intros i Hi. rewrite Hout' by (intros; apply Hi; lia).
      apply Hout. intros; apply Hi; lia.
    + intros r c Hr Hc. destruct (decide (r = n)) as [->|Hne].
      * apply Hin', Hc.
      * rewrite Hout'.
        -- apply Hin; lia.
        -- intros c' Hc' E. apply Hinj in E; lia.
Qed.

End Vectors.

(** Row-major indices of a block are distinct. *)
Lemma row_major_inj (p off r c r' c' : nat) :
  c < p -> c' < p -> off + r * p + c = off + r' * p + c' -> r = r' /\ c = c'.
Proof.
  intros Hc Hc' E.
  assert (r = r') as ->; [|lia].
  destruct (Nat.lt_trichotomy r r') as [H|[H|H]]; [|exact H|]; exfalso; nia.
Qed.

Lemma row_major_lt (n p r c : nat) : r < n -> c < p -> r * p + c < n * p.
Proof. intros. nia. Qed.

(** ** The constructor *)

Section Constructor.
Context {T : Type} `{ST : Scalar T}.

Lemma a_matrix_new (n p count : nat) (d b : bool) (input_mat : list (list T)) :
  1 <= count ->
  let a := a_matrix (GoldenPCA_new n p count d b input_mat) in
  length a = n * p * count /\
  (forall i, n * p <= i -> a !!! i = replicate (n * p * count) T0 !!! i) /\
  (forall r c, r < n -> c < p -> a !!! (r * p + c) = (input_mat !!! r) !!! c).
Proof.
  intros Hcount. cbv zeta. cbn [a_matrix GoldenPCA_new].
  destruct (for_loop_fill2 n p (fun r c => r * p + c)
              (fun r c => (input_mat !!! r) !!! c)
              (replicate (n * p * count) T0)) as (L & Hout & Hin).
  - intros r c r' c' _ Hc _ Hc' E. apply (row_major_inj p 0); assumption.
  - intros r c Hr Hc. rewrite length_replicate.
    pose proof (row_major_lt n p r c Hr Hc). nia.
  - cbv zeta in L, Hout, Hin. rewrite length_replicate in L.
    split; [exact L|]. split; [|exact Hin].
    intros i Hi. apply Hout. intros r c Hr Hc.
    pose proof (row_major_lt n p r c Hr Hc). lia.
Qed.

End Constructor.

(** C1, as amended: the constructor takes one [samples x features]
    matrix, given as a vector of rows, and copies it into batch entry 0
    of the row-major storage, [a_matrix[r * features + c] =
    input_mat[r][c]]; the storage is sized for [matrixCount] entries. *)
Theorem C1_constructor_copies_one_matrix
    {T : Type} `{ST : Scalar T} (n p count : nat) (d b : bool)
    (input_mat : list (list T)) :
  1 <= count ->
  well_formed_input n p input_mat ->
  let o := GoldenPCA_new n p count d b input_mat in
  length (a_matrix o) = n * p * count /\
  forall r c, r < n -> c < p ->
    exists row x, input_mat !! r = Some row /\ row !! c = Some x /\
                  a_matrix o !! (r * p + c) = Some x.
Proof.
  intros Hcount [Hn Hrows]. cbv zeta.
  destruct (a_matrix_new n p count d b input_mat Hcount) as (L & _ & Hin).
  cbv zeta in L, Hin. split; [exact L|].
  intros r c Hr Hc.
  destruct (lookup_lt_is_Some_2 input_mat r) as [row Hrow]; [lia|].
  assert (length row = p) as Hlen.
  { rewrite Forall_forall in Hrows. apply Hrows.
    eapply list_elem_of_lookup_2, Hrow. }
  destruct (lookup_lt_is_Some_2 row c) as [x Hx]; [lia|].
  exists row, x. split; [exact Hrow|]. split; [exact Hx|].
  pose proof (row_major_lt n p r c Hr Hc).
  rewrite list_lookup_lookup_total_lt by (rewrite L; nia).
  f_equal. rewrite Hin by assumption.
  rewrite (list_lookup_total_correct _ _ _ Hrow).
  apply (list_lookup_total_correct _ _ _ Hx).
Qed.

Lemma C1_constructor_copies_one_matrix_witness :
  1 <= 1 /\ well_formed_input 2 2 [[1; 2]; [3; 4]]%float /\
  a_matrix (GoldenPCA_new 2 2 1 false false [[1; 2]; [3; 4]]%float) !! 3 = Some 4%float.
Proof.
  assert (H1 : 1 <= 1) by lia.
  assert (Hwf : well_formed_input 2 2 [[1; 2]; [3; 4]]%float).
  { split; [reflexivity|]. repeat constructor. }
  split; [exact H1|]. split; [exact Hwf|].
  destruct (C1_constructor_copies_one_matrix 2 2 1 false false
              [[1; 2]; [3; 4]]%float H1 Hwf) as [_ H].
  destruct (H 1 1) as (row & x & Hrow & Hx & Ha); [lia|lia|].
  cbn in Hrow. injection Hrow as <-. cbn in Hx. injection Hx as <-.
  exact Ha.
Defined.

(** C1 as stated fails: with [matrixCount = 2] and the collection
    [[5]; [7]] of two 1 x 1 matrices, batch entry 1 of the storage holds
    0 and not 7. *)
Lemma C1_counterexample :
  ~ (forall m r c, m < 2 -> r < 1 -> c < 1 ->
       a_matrix (GoldenPCA_new 1 1 2 false false [[5]; [7]]%float)
         !!! (m * 1 * 1 + r * 1 + c)
       = collection_entry 1 [[5]; [7]]%float m r c).
Proof.
  intros H. specialize (H 1 0 0). vm_compute in H.
  assert (E : 0%float = 7%float) by (apply H; lia).
  float_discriminate E.
Qed.

(** ** The covariance matrices *)

(** A loop over a pair whose first component does not look at the second. *)
Lemma for_loop_fst {A B : Type} (n : nat) (body : nat -> A * B -> A * B)
    (body1 : nat -> A -> A) (s : A * B) :
  (forall k a b, k < n -> fst (body k (a, b)) = body1 k a) ->
  fst (for_loop n body s) = for_loop n body1 (fst s).
Proof.
  intros H. apply (for_loop_rel (fun s a => fst s = a)); [reflexivity|].
  intros k [a b] a' Hk <-. apply H, Hk.
Qed.

Section Covariance.
Context {T : Type} `{ST : Scalar T}.

Lemma dot_product_loop_spec (o : GoldenPCA T) (m row col : nat) :
  dot_product_loop o (m * samples o * features o) row col =
  column_dot_product (sample_entry o m) row col (samples o).
Proof.
  unfold dot_product_loop. generalize (samples o) at 1 4 as n.
  induction n as [|n IH]; [reflexivity|].
  rewrite for_loop_S. cbn [column_dot_product]. rewrite <- IH. reflexivity.
Qed.

(** The object [ComputeCovarianceIthMatrix] leaves, whatever it printed. *)
Lemma ComputeCovarianceIthMatrix_fst (m : nat) (o : GoldenPCA T) (out : cout T) :
  fst (ComputeCovarianceIthMatrix m (o, out)) =
  set_covariance_matrix o
    (for_loop (features o) (fun row cov =>
       for_loop (features o) (fun column cov =>
         <[m * features o * features o + row * features o + column :=
             of_double (dot_product_loop o (m * samples o * features o) row column)]> cov)
         cov) (covariance_matrix o)).
Proof.
  unfold ComputeCovarianceIthMatrix.
  match goal with
  | |- context [for_loop (features o) ?b (covariance_matrix o, ?x)] =>
      set (body := b); set (out0 := x)
  end.
  rewrite <- (for_loop_fst (features o) body _ (covariance_matrix o, out0)).
  - destruct (for_loop (features o) body (covariance_matrix o, out0)).
    reflexivity.
  - intros row cov out1 _. unfold body.
    match goal with
    | |- context [for_loop (features o) ?b (cov, out1)] => set (inner := b)
    end.
    transitivity (fst (for_loop (features o) inner (cov, out1))).
    + destruct (for_loop (features o) inner (cov, out1)); reflexivity.
    + apply for_loop_fst. intros column cov' out2 _. reflexivity.
Qed.

(** The covariance vector after [ComputeCovarianceIthMatrix]: the block
    of [matrix_index] is filled, the rest is as before. *)
Lemma ComputeCovarianceIthMatrix_spec (m : nat) (o : GoldenPCA T) (out : cout T) :
  let f := features o in
  m * f * f + f * f <= length (covariance_matrix o) ->
  let o' := fst (ComputeCovarianceIthMatrix m (o, out)) in
  same_numbers (set_covariance_matrix o (covariance_matrix o')) o' /\
  debug o' = debug o /\
  length (covariance_matrix o') = length (covariance_matrix o) /\
  (forall i, i < m * f * f \/ m * f * f + f * f <= i ->
     covariance_matrix o' !!! i = covariance_matrix o !!! i) /\
  (forall row col, row < f -> col < f ->
     covariance_matrix o' !!! (m * f * f + row * f + col) =
     of_double (column_dot_product (sample_entry o m) row col (samples o))).
Proof.
  intros f Hlen. cbv zeta. rewrite ComputeCovarianceIthMatrix_fst.
  set (aoff := m * samples o * features o).
  set (coff := m * features o * features o).
  destruct (for_loop_fill2 (features o) (features o)
              (fun row column => coff + row * features o + column)
              (fun row column => of_double (dot_product_loop o aoff row column))
              (covariance_matrix o)) as (L & Hout & Hin).
  { intros r c r' c' _ Hc _ Hc'. apply row_major_inj; assumption. }
  { intros r c Hr Hc. pose proof (row_major_lt _ _ r c Hr Hc).
    subst coff f. lia. }
  cbv zeta in L, Hout, Hin.
  cbn [covariance_matrix set_covariance_matrix debug].
  split; [reflexivity|]. split; [reflexivity|]. split; [exact L|]. split.
  - intros i Hi. apply Hout. intros r c Hr Hc.
    pose proof (row_major_lt _ _ r c Hr Hc). subst coff f. lia.
  - intros row col Hrow Hcol. subst f. fold coff. rewrite (Hin row col Hrow Hcol).
    subst aoff. rewrite dot_product_loop_spec. reflexivity.
Qed.

Lemma sample_entry_ext (o o' : GoldenPCA T) :
  same_numbers o o' -> sample_entry o = sample_entry o'.
Proof.
  unfold same_numbers, with_debug. intros H. injection H as Hs Hf _ _ Ha _ _ _ _.
  unfold sample_entry. rewrite Hs, Hf, Ha. reflexivity.
Qed.

Lemma same_numbers_fields (o o' : GoldenPCA T) :
  same_numbers o o' ->
  samples o = samples o' /\ features o = features o' /\
  matrix_count o = matrix_count o' /\ benchmark_mode o = benchmark_mode o' /\
  a_matrix o = a_matrix o' /\ covariance_matrix o = covariance_matrix o' /\
  eigenvalues o = eigenvalues o' /\ eigenvectors o = eigenvectors o' /\
  iterations o = iterations o'.
Proof.
  unfold same_numbers, with_debug. intros H. injection H. intros. repeat split; assumption.
Qed.

(** The covariance vector after [ComputeCovarianceMatrix]. *)
Lemma ComputeCovarianceMatrix_spec (o : GoldenPCA T) (out : cout T) :
  let f := features o in
  length (covariance_matrix o) = f * f * matrix_count o ->
  let o' := fst (ComputeCovarianceMatrix (o, out)) in
  same_numbers (set_covariance_matrix o (covariance_matrix o')) o' /\
  debug o' = debug o /\
  length (covariance_matrix o') = length (covariance_matrix o) /\
  (forall m row col, m < matrix_count o -> row < f -> col < f ->
     covariance_matrix o' !!! (m * f * f + row * f + col) =
     of_double (column_dot_product (sample_entry o m) row col (samples o))).
Proof.
  intros f Hlen. cbv zeta. unfold ComputeCovarianceMatrix. cbn [fst].
  enough (forall n, n <= matrix_count o ->
    let o' := fst (for_loop n ComputeCovarianceIthMatrix (o, out)) in
    same_numbers (set_covariance_matrix o (covariance_matrix o')) o' /\
    debug o' = debug o /\
    length (covariance_matrix o') = length (covariance_matrix o) /\
    (forall m row col, m < n -> row < f -> col < f ->
       covariance_matrix o' !!! (m * f * f + row * f + col) =
       of_double (column_dot_product (sample_entry o m) row col (samples o))))
    as H by (apply (H (matrix_count o)); lia).
  intros n Hn. cbv zeta.
  pattern n, (for_loop n ComputeCovarianceIthMatrix (o, out)).
  apply for_loop_ind.
  - cbn [fst]. destruct o. repeat split; intros; try reflexivity; lia.
  - intros m [o1 out1] Hm (Hsame & Hdbg & L & Hin). cbn [fst] in *.
    apply same_numbers_fields in Hsame as Hfields.
    cbn [set_covariance_matrix samples features a_matrix] in Hfields.
    destruct Hfields as (Hs & Hf & _).
    destruct (ComputeCovarianceIthMatrix_spec m o1 out1) as (Hsame' & Hdbg' & L' & Hout' & Hin').
    { rewrite L, Hlen, <- Hf. fold f. nia. }
    cbv zeta in Hsame', Hdbg', L', Hout', Hin'.
    set (o2 := fst (ComputeCovarianceIthMatrix m (o1, out1))) in *.
    split; [|split; [congruence|split; [congruence|]]].
    + apply same_numbers_fields in Hsame' as Hfields.
      cbn [set_covariance_matrix] in Hfields. cbn in Hfields.
      destruct Hfields as (? & ? & ? & ? & ? & ? & ? & ? & ?).
      apply same_numbers_fields in Hsame as Hfields.
      cbn in Hfields.
      destruct Hfields as (? & ? & ? & ? & ? & ? & ? & ? & ?).
      unfold same_numbers, with_debug, set_covariance_matrix. cbn.
      f_equal; congruence.
    + intros m' row col Hm' Hrow Hcol. rewrite <- Hf in *. fold f in Hout', Hin'.
      destruct (decide (m' = m)) as [->|Hne].
      * rewrite (Hin' row col Hrow Hcol). rewrite <- Hs.
        rewrite <- (sample_entry_ext _ _ Hsame). reflexivity.
      * rewrite Hout'; [apply Hin; [lia|assumption..]|].
        left. pose proof (row_major_lt _ _ row col Hrow Hcol). nia.
Qed.

End Covariance.

(** ** Facts about [double] arithmetic *)

Section Doubles.
Local Open Scope float_scope.

Lemma SFmul_comm (prec emax : Z) (x y : spec_float) :
  SFmul prec emax x y = SFmul prec emax y x.
Proof.
  destruct x as [sx|sx| |sx mx ex], y as [sy|sy| |sy my ey]; cbn;
    rewrite ?(xorb_comm sx sy); try reflexivity.
  rewrite (Pos.mul_comm mx my), (Z.add_comm ex ey). reflexivity.
Qed.

(** The product of two [double]s does not depend on their order. *)
Lemma double_mul_comm (x y : float) : x * y = y * x.
Proof. apply Prim2SF_inj. rewrite !mul_spec. apply SFmul_comm. Qed.

Lemma zero_or_nan_spec (x : float) :
  zero_or_nan x = true <-> sf_zero_or_nan (Prim2SF x).
Proof.
  unfold zero_or_nan, is_zero, is_nan. rewrite !FloatAxioms.eqb_spec.
  change (Prim2SF zero) with (S754_zero false).
  destruct (Prim2SF x) as [s|s| |s m e]; cbn.
  - split; [constructor|reflexivity].
  - destruct s; cbn; split; [discriminate|inversion 1|discriminate|inversion 1].
  - split; [constructor|reflexivity].
  - unfold SFeqb, SFcompare.
    destruct s; cbn; rewrite Z.compare_refl, Pos.compare_cont_refl; cbn;
      (split; [discriminate|inversion 1]).
Qed.

(** The two laws of [T] that some properties ask for hold for both
    storage types. *)
Lemma single_mul_comm (x y : single) : mulT x y = mulT y x.
Proof. cbn. rewrite double_mul_comm. reflexivity. Qed.

Lemma single_keeps_nan : to_double (of_double (T := single) nan) = nan.
Proof. reflexivity. Qed.

Lemma double_keeps_nan : to_double (of_double (T := float) nan) = nan.
Proof. reflexivity. Qed.

Lemma kZeroThreshold_is_single : to_single kZeroThreshold = kZeroThreshold.
Proof. reflexivity. Qed.

Lemma nan_spec (x : float) : x = nan <-> Prim2SF x = S754_nan.
Proof.
  split; [intros ->; reflexivity|].
  intros H. apply Prim2SF_inj. rewrite H. reflexivity.
Qed.

Lemma zero_or_nan_is_zero (x : float) : is_zero x = true -> zero_or_nan x = true.
Proof. unfold zero_or_nan. intros ->. reflexivity. Qed.

Lemma mul_zero_or_nan_l (x y : float) :
  zero_or_nan x = true -> zero_or_nan (x * y) = true.
Proof.
  rewrite !zero_or_nan_spec, mul_spec. intros H.
  destruct H, (Prim2SF y); cbn; constructor.
Qed.

Lemma mul_zero_or_nan_r (x y : float) :
  zero_or_nan y = true -> zero_or_nan (x * y) = true.
Proof. rewrite double_mul_comm. apply mul_zero_or_nan_l. Qed.

Lemma add_zero_or_nan (x y : float) :
  zero_or_nan x = true -> zero_or_nan y = true -> zero_or_nan (x + y) = true.
Proof.
  rewrite !zero_or_nan_spec, add_spec. intros H1 H2.
  destruct H1 as [[]|], H2 as [[]|]; cbn; constructor.
Qed.

Lemma sub_zero_or_nan (x y : float) :
  zero_or_nan x = true -> zero_or_nan y = true -> zero_or_nan (x - y) = true.
Proof.
  rewrite !zero_or_nan_spec, sub_spec. intros H1 H2.
  destruct H1 as [[]|], H2 as [[]|]; cbn; constructor.
Qed.

Lemma opp_zero_or_nan (x : float) :
  zero_or_nan x = true -> zero_or_nan (- x) = true.
Proof.
  rewrite !zero_or_nan_spec, opp_spec. intros H. destruct H; cbn; constructor.
Qed.

Lemma abs_zero_or_nan (x : float) :
  zero_or_nan x = true -> zero_or_nan (abs x) = true.
Proof.
  rewrite !zero_or_nan_spec, abs_spec. intros H. destruct H; cbn; constructor.
Qed.

Lemma sqrt_zero_or_nan (x : float) :
  zero_or_nan x = true -> zero_or_nan (sqrt x) = true.
Proof.
  rewrite !zero_or_nan_spec, sqrt_spec. intros H.
  destruct H as [[]|]; cbn; constructor.
Qed.

(** 0/0, and any quotient with a NaN in it, is NaN. *)
Lemma div_zero_or_nan (x y : float) :
  zero_or_nan x = true -> zero_or_nan y = true -> x / y = nan.
Proof.
  rewrite !zero_or_nan_spec, nan_spec, div_spec. intros H1 H2.
  destruct H1 as [[]|], H2 as [[]|]; reflexivity.
Qed.

Lemma add_nan_l (x : float) : nan + x = nan.
Proof. apply nan_spec. rewrite add_spec. reflexivity. Qed.

Lemma add_nan_r (x : float) : x + nan = nan.
Proof. apply nan_spec. rewrite add_spec. destruct (Prim2SF x); reflexivity. Qed.

Lemma mul_nan_l (x : float) : nan * x = nan.
Proof. apply nan_spec. rewrite mul_spec. reflexivity. Qed.

Lemma mul_nan_r (x : float) : x * nan = nan.
Proof. rewrite double_mul_comm. apply mul_nan_l. Qed.

Lemma sub_nan_r (x : float) : x - nan = nan.
Proof. apply nan_spec. rewrite sub_spec. destruct (Prim2SF x); reflexivity. Qed.

End Doubles.

(** With [T = float] on the samples 0.1f and 0.3f of one feature: the
    two squares are rounded to [float] before the [double] sum. *)
Example single_covariance_example :
  covariance_matrix
    (fst (ComputeCovarianceMatrix
            (GoldenPCA_new 2 1 1 false false
               [[Single 0x1.99999ap-4]; [Single 0x1.333334p-2]]%float, [])))
  = [Single 0x1.99999ap-4%float].
Proof. vm_compute. reflexivity. Qed.

(** C5: after [ComputeCovarianceMatrix], entry [(row, col)] of the
    covariance matrix of batch entry [m] is the dot product of column
    [row] with column [col] of the sample matrix, not divided by
    anything; whatever the storage type [T], the sum is a [double] and
    is converted to [T] only when it is stored. *)
Theorem C5_covariance_entry_is_column_dot_product
    {T : Type} `{ST : Scalar T} (o : GoldenPCA T) (out : cout T)
    (m row col : nat) :
  1 <= samples o -> 1 <= features o -> well_sized o ->
  m < matrix_count o -> row < features o -> col < features o ->
  covariance_matrix (fst (ComputeCovarianceMatrix (o, out)))
    !! (m * features o * features o + row * features o + col)
  = Some (of_double
            (column_dot_product (sample_entry o m) row col (samples o))).
Proof.
  intros _ _ (_ & Hcov & _) Hm Hrow Hcol.
  destruct (ComputeCovarianceMatrix_spec o out Hcov) as (_ & _ & L & H).
  cbv zeta in L, H.
  rewrite list_lookup_lookup_total_lt.
  - f_equal. apply H; assumption.
  - rewrite L, Hcov. pose proof (row_major_lt _ _ row col Hrow Hcol). nia.
Qed.

Lemma C5_covariance_entry_is_column_dot_product_witness :
  covariance_matrix
    (fst (ComputeCovarianceMatrix
            (GoldenPCA_new 2 2 1 false false [[1; 2]; [3; 4]]%float, [])))
    !! 1 = Some 14%float.
Proof.
  assert (Hsz : well_sized (GoldenPCA_new 2 2 1 false false [[1; 2]; [3; 4]]%float))
    by (repeat split; reflexivity).
  exact (C5_covariance_entry_is_column_dot_product
           (GoldenPCA_new 2 2 1 false false [[1; 2]; [3; 4]]%float) [] 0 0 1
           ltac:(cbn; lia) ltac:(cbn; lia) Hsz
           ltac:(cbn; lia) ltac:(cbn; lia) ltac:(cbn; lia)).
Defined.

Lemma column_dot_product_comm {T : Type} `{ST : Scalar T}
    (A : nat -> nat -> T) (i j n : nat) :
  (forall x y : T, mulT x y = mulT y x) ->
  column_dot_product A i j n = column_dot_product A j i n.
Proof.
  intros Hcomm. induction n as [|n IH]; [reflexivity|].
  cbn [column_dot_product]. rewrite IH, Hcomm. reflexivity.
Qed.

(** C6: every covariance matrix produced is exactly symmetric, entry
    [(i, j)] and entry [(j, i)] being the same value of [T], as long as
    the product of [T] does not depend on the order of its operands
    (which holds for [double]). *)
Theorem C6_covariance_symmetric
    {T : Type} `{ST : Scalar T} (o : GoldenPCA T) (out : cout T)
    (m i j : nat) :
  (forall x y : T, mulT x y = mulT y x) ->
  well_sized o ->
  m < matrix_count o -> i < features o -> j < features o ->
  exists x,
    covariance_matrix (fst (ComputeCovarianceMatrix (o, out)))
      !! (m * features o * features o + i * features o + j) = Some x /\
    covariance_matrix (fst (ComputeCovarianceMatrix (o, out)))
      !! (m * features o * features o + j * features o + i) = Some x.
Proof.
  intros Hcomm (_ & Hcov & _) Hm Hi Hj.
  destruct (ComputeCovarianceMatrix_spec o out Hcov) as (_ & _ & L & H).
  cbv zeta in L, H.
  exists (of_double (column_dot_product (sample_entry o m) i j (samples o))).
  split.
  - rewrite list_lookup_lookup_total_lt.
    + f_equal. apply H; assumption.
    + rewrite L, Hcov. pose proof (row_major_lt _ _ i j Hi Hj). nia.
  - rewrite list_lookup_lookup_total_lt.
    + f_equal. rewrite H by assumption.
      rewrite (column_dot_product_comm _ j i) by exact Hcomm. reflexivity.
    + rewrite L, Hcov. pose proof (row_major_lt _ _ j i Hj Hi). nia.
Qed.

Lemma C6_covariance_symmetric_witness :
  exists x,
    covariance_matrix
      (fst (ComputeCovarianceMatrix
              (GoldenPCA_new 2 2 1 false false [[1; 2]; [3; 4]]%float, [])))
      !! 1 = Some x /\
    covariance_matrix
      (fst (ComputeCovarianceMatrix
              (GoldenPCA_new 2 2 1 false false [[1; 2]; [3; 4]]%float, [])))
      !! 2 = Some x.
Proof.
  assert (Hsz : well_sized (GoldenPCA_new 2 2 1 false false [[1; 2]; [3; 4]]%float))
    by (repeat split; reflexivity).
  exact (C6_covariance_symmetric
           (GoldenPCA_new 2 2 1 false false [[1; 2]; [3; 4]]%float) [] 0 0 1
           double_mul_comm Hsz ltac:(cbn; lia) ltac:(cbn; lia) ltac:(cbn; lia)).
Defined.

(** ** The [debug] flag *)

Section Debug.
Context {T : Type} `{ST : Scalar T}.

Lemma ComputeCovarianceIthMatrix_same_numbers (m : nat) (o1 o2 : GoldenPCA T)
    (out1 out2 : cout T) :
  same_numbers o1 o2 ->
  same_numbers (fst (ComputeCovarianceIthMatrix m (o1, out1)))
               (fst (ComputeCovarianceIthMatrix m (o2, out2))).
Proof.
  intros H. rewrite !ComputeCovarianceIthMatrix_fst.
  destruct o1, o2. unfold same_numbers, with_debug in H. cbn in H.
  injection H as -> -> -> -> -> -> -> -> ->.
  reflexivity.
Qed.

Lemma ComputeCovarianceMatrix_same_numbers (o1 o2 : GoldenPCA T)
    (out1 out2 : cout T) :
  same_numbers o1 o2 ->
  same_numbers (fst (ComputeCovarianceMatrix (o1, out1)))
               (fst (ComputeCovarianceMatrix (o2, out2))).
Proof.
  intros H. unfold ComputeCovarianceMatrix. cbn [fst].
  destruct (same_numbers_fields _ _ H) as (_ & _ & <- & _).
  apply (for_loop_rel (fun w1 w2 => same_numbers (fst w1) (fst w2))).
  - exact H.
  - intros m [a x] [b y] _ Hab. apply ComputeCovarianceIthMatrix_same_numbers, Hab.
Qed.

(** The object [report] leaves, whatever it printed. *)
Lemma report_fst (o : GoldenPCA T) (m : nat) (out : cout T) (iters : nat)
    (s : qr_state T) :
  fst (report o m out iters s) =
  set_eigen o
    (for_loop (features o) (fun k vals =>
       <[k + m * features o := of_double (qr_rq s !!! (k + features o * k))]> vals)
       (eigenvalues o))
    (qr_eigenvectors s)
    (<[m := of_int (Z.of_nat iters)]> (iterations o)).
Proof.
  unfold report.
  match goal with
  | |- context [for_loop (features o) ?b (eigenvalues o, ?x)] =>
      set (body := b); set (out0 := x)
  end.
  rewrite <- (for_loop_fst (features o) body _ (eigenvalues o, out0)).
  - destruct (for_loop (features o) body (eigenvalues o, out0)). reflexivity.
  - intros k vals out1 _. reflexivity.
Qed.

Lemma solve_matrix_same_numbers (fuel m : nat) (o1 o2 : GoldenPCA T)
    (out1 out2 : cout T) :
  same_numbers o1 o2 ->
  same_result (solve_matrix fuel m (o1, out1)) (solve_matrix fuel m (o2, out2)).
Proof.
  intros H. unfold solve_matrix.
  assert (qr_init o1 m = qr_init o2 m) as <-.
  { destruct (same_numbers_fields _ _ H) as (_ & Hf & _ & _ & _ & Hc & _ & Hv & _).
    unfold qr_init. rewrite Hf, Hc, Hv. reflexivity. }
  destruct (same_numbers_fields _ _ H) as (_ & <- & _ & <- & _).
  destruct (qr_loop fuel (features o1) _ (benchmark_mode o1) 0 (qr_init o1 m))
    as [[[iters s] aborted]|]; [|exact I].
  cbn [same_result]. rewrite !report_fst.
  destruct o1, o2. unfold same_numbers, with_debug in H. cbn in H.
  injection H as -> -> -> -> -> -> -> -> ->.
  reflexivity.
Qed.

Lemma ComputeEigenValuesAndVectors_same_numbers (fuel : nat)
    (o1 o2 : GoldenPCA T) (out1 out2 : cout T) :
  same_numbers o1 o2 ->
  same_result (ComputeEigenValuesAndVectors fuel (o1, out1))
              (ComputeEigenValuesAndVectors fuel (o2, out2)).
Proof.
  intros H. unfold ComputeEigenValuesAndVectors. cbn [fst].
  destruct (same_numbers_fields _ _ H) as (_ & _ & <- & _).
  apply (for_loop_rel same_result).
  - exact H.
  - intros m [[a x]|] [[b y]|] _ Hab; try contradiction; [|exact I].
    apply solve_matrix_same_numbers, Hab.
Qed.

Lemma same_numbers_outputs (o1 o2 : GoldenPCA T) :
  same_numbers o1 o2 -> outputs o1 = outputs o2.
Proof.
  intros H. destruct (same_numbers_fields _ _ H) as (_ & _ & _ & _ & _ & ? & ? & ? & ?).
  unfold outputs. congruence.
Qed.

End Debug.

(** C8: two runs of the same batch that differ only in the debug flag
    (and in what was printed before) produce the same covariance
    matrices, eigenvalues, eigenvectors and iteration counts, and the
    solve leaves its loops in the one run exactly when it does in the
    other. *)
Theorem C8_debug_flag_changes_no_number
    {T : Type} `{ST : Scalar T} (o : GoldenPCA T) (out1 out2 : cout T)
    (fuel : nat) :
  outputs (fst (ComputeCovarianceMatrix (with_debug true o, out1))) =
  outputs (fst (ComputeCovarianceMatrix (with_debug false o, out2))) /\
  option_map (fun w => outputs (fst w))
    (ComputeEigenValuesAndVectors fuel
       (ComputeCovarianceMatrix (with_debug true o, out1))) =
  option_map (fun w => outputs (fst w))
    (ComputeEigenValuesAndVectors fuel
       (ComputeCovarianceMatrix (with_debug false o, out2))).
Proof.
  assert (H : same_numbers (with_debug true o) (with_debug false o)) by reflexivity.
  pose proof (ComputeCovarianceMatrix_same_numbers _ _ out1 out2 H) as Hcov.
  split; [apply same_numbers_outputs, Hcov|].
  destruct (ComputeCovarianceMatrix (with_debug true o, out1)) as [o1 x1].
  destruct (ComputeCovarianceMatrix (with_debug false o, out2)) as [o2 x2].
  cbn [fst] in Hcov.
  pose proof (ComputeEigenValuesAndVectors_same_numbers fuel o1 o2 x1 x2 Hcov) as He.
  destruct (ComputeEigenValuesAndVectors fuel (o1, x1)) as [w1|],
           (ComputeEigenValuesAndVectors fuel (o2, x2)) as [w2|];
    cbn in He |- *; try contradiction; [|reflexivity].
  f_equal. apply same_numbers_outputs, He.
Qed.

(** ** The [while] loop *)

Section Loop.
Context {T : Type} `{ST : Scalar T}.

(** The counter the loop is left with: at least one pass has been made,
    and outside benchmark mode at most [features * features * 16 + 1]. *)
Lemma qr_loop_counter (fuel f off : nat) (b : bool) (iters : nat)
    (s : qr_state T) (k : nat) (s' : qr_state T) (ab : bool) :
  qr_loop fuel f off b iters s = Some (k, s', ab) ->
  iters < k /\ (b = false -> k <= Nat.max (S iters) (f * f * 16 + 1)).
Proof.
  revert iters s. induction fuel as [|fuel IH]; intros iters s; [discriminate|].
  cbn [qr_loop]. destruct (qr_iteration f off iters s) as [s1 c].
  destruct (f * f * 16 <? S iters) eqn:Hlt; cbn [andb].
  - destruct b; cbn [negb].
    + destruct c.
      * intros [= <- <- <-]. split; [lia|discriminate].
      * intros H. apply IH in H as [H _]. split; [lia|discriminate].
    + intros [= <- <- <-]. split; lia.
  - apply Nat.ltb_ge in Hlt. destruct c.
    + intros [= <- <- <-]. split; lia.
    + intros H. apply IH in H as [H1 H2]. split; [lia|].
      intros Hb. specialize (H2 Hb). lia.
Qed.

(** Outside benchmark mode the loop is left once the fuel covers the
    passes that remain up to the bound. *)
Lemma qr_loop_total (fuel f off iters : nat) (s : qr_state T) :
  f * f * 16 + 1 <= iters + fuel -> 1 <= fuel ->
  exists r, qr_loop fuel f off false iters s = Some r.
Proof.
  revert iters s. induction fuel as [|fuel IH]; intros iters s Hf H1; [lia|].
  cbn [qr_loop]. destruct (qr_iteration f off iters s) as [s1 c].
  destruct (f * f * 16 <? S iters) eqn:Hlt; cbn [andb negb]; [eauto|].
  apply Nat.ltb_ge in Hlt. destruct c; [eauto|].
  apply IH; lia.
Qed.

(** More fuel does not change a result. *)
Lemma qr_loop_more_fuel (fuel fuel' f off : nat) (b : bool) (iters : nat)
    (s : qr_state T) (r : nat * qr_state T * bool) :
  qr_loop fuel f off b iters s = Some r -> fuel <= fuel' ->
  qr_loop fuel' f off b iters s = Some r.
Proof.
  revert fuel' iters s. induction fuel as [|fuel IH]; intros fuel' iters s;
    [discriminate|].
  intros H Hle. destruct fuel' as [|fuel']; [lia|].
  cbn [qr_loop] in H |- *. destruct (qr_iteration f off iters s) as [s1 c].
  destruct ((f * f * 16 <? S iters) && negb b); [exact H|].
  destruct c; [exact H|]. apply IH; [exact H|lia].
Qed.

(** The state the loop is left with is the state after [k] passes, and
    the loop has not seen [converged] set before its last pass. *)
Lemma qr_loop_iterate (fuel f off : nat) (b : bool) (iters : nat)
    (s0 : qr_state T) (k : nat) (s' : qr_state T) (ab : bool) :
  qr_loop fuel f off b iters (qr_iterate f off iters s0) = Some (k, s', ab) ->
  s' = qr_iterate f off k s0 /\
  ab = (f * f * 16 <? k) && negb b /\
  (ab = false -> exists j, k = S j /\ converged_in_pass f off j s0 = true).
Proof.
  revert iters. induction fuel as [|fuel IH]; intros iters; [discriminate|].
  cbn [qr_loop].
  assert (E : fst (qr_iteration f off iters (qr_iterate f off iters s0))
              = qr_iterate f off (S iters) s0) by reflexivity. unfold converged_in_pass in *.
  destruct (qr_iteration f off iters (qr_iterate f off iters s0)) as [s1 c] eqn:Hit.
  cbn [fst] in E. subst s1.
  destruct ((f * f * 16 <? S iters) && negb b) eqn:Hc.
  - intros [= <- <- <-]. split; [reflexivity|]. split; [congruence|discriminate].
  - destruct c.
    + intros [= <- <- <-]. split; [reflexivity|]. split; [congruence|].
      intros _. exists iters. rewrite Hit. split; reflexivity.
    + apply IH.
Qed.

(** Without convergence in the passes that the bound allows, the loop
    is left by its [break], after [features * features * 16 + 1] passes. *)
Lemma qr_loop_no_convergence (fuel f off iters : nat) (s0 : qr_state T) :
  f * f * 16 + 1 <= iters + fuel -> iters <= f * f * 16 ->
  (forall j, iters <= j < f * f * 16 -> converged_in_pass f off j s0 = false) ->
  qr_loop fuel f off false iters (qr_iterate f off iters s0) =
  Some (f * f * 16 + 1, qr_iterate f off (f * f * 16 + 1) s0, true).
Proof.
  revert iters. induction fuel as [|fuel IH]; intros iters Hf Hi Hnc; [lia|].
  cbn [qr_loop].
  assert (E : fst (qr_iteration f off iters (qr_iterate f off iters s0))
              = qr_iterate f off (S iters) s0) by reflexivity.
  pose proof (Hnc iters) as Hc. unfold converged_in_pass in Hc.
  destruct (qr_iteration f off iters (qr_iterate f off iters s0)) as [s1 c].
  cbn [fst snd] in E, Hc. subst s1.
  destruct (f * f * 16 <? S iters) eqn:Hlt; cbn [andb negb].
  - apply Nat.ltb_lt in Hlt. replace (f * f * 16 + 1) with (S iters) by lia.
    reflexivity.
  - apply Nat.ltb_ge in Hlt. rewrite Hc by lia.
    apply IH; [lia|lia|]. intros j Hj. apply Hnc. lia.
Qed.

(** In benchmark mode the bound plays no part. *)
Lemma qr_loop_benchmark (fuel f off iters : nat) (s : qr_state T) :
  qr_loop (S fuel) f off true iters s =
  if snd (qr_iteration f off iters s)
  then Some (S iters, fst (qr_iteration f off iters s), false)
  else qr_loop fuel f off true (S iters) (fst (qr_iteration f off iters s)).
Proof.
  cbn [qr_loop]. destruct (qr_iteration f off iters s) as [s1 c].
  rewrite andb_false_r. reflexivity.
Qed.

(** What a solve that returns has done. *)
Lemma solve_matrix_Some (fuel m : nat) (o : GoldenPCA T) (out : cout T)
    (w' : GoldenPCA T * cout T) :
  solve_matrix fuel m (o, out) = Some w' ->
  exists k s ab out1,
    qr_loop fuel (features o) (m * features o * features o) (benchmark_mode o) 0
      (qr_init o m) = Some (k, s, ab) /\
    w' = report o m out1 k s.
Proof.
  unfold solve_matrix.
  destruct (qr_loop fuel _ _ _ 0 (qr_init o m)) as [[[k s] ab]|]; [|discriminate].
  intros [= <-]. eauto 6.
Qed.

(** The fields a solve does not touch, and the counter it records. *)
Lemma solve_matrix_fields (fuel m : nat) (o : GoldenPCA T) (out : cout T)
    (o' : GoldenPCA T) (out' : cout T) :
  solve_matrix fuel m (o, out) = Some (o', out') ->
  samples o' = samples o /\ features o' = features o /\
  matrix_count o' = matrix_count o /\ benchmark_mode o' = benchmark_mode o /\
  debug o' = debug o /\ a_matrix o' = a_matrix o /\
  covariance_matrix o' = covariance_matrix o /\
  exists k, iterations o' = <[m := of_int (Z.of_nat k)]> (iterations o) /\
            1 <= k /\
            (benchmark_mode o = false -> k <= features o * features o * 16 + 1).
Proof.
  intros H. apply solve_matrix_Some in H as (k & s & ab & out1 & Hloop & Hw).
  apply (f_equal fst) in Hw. rewrite report_fst in Hw. cbn [fst] in Hw. subst o'.
  cbn. repeat split; try reflexivity.
  exists k. split; [reflexivity|].
  apply qr_loop_counter in Hloop as [H1 H2]. split; [lia|].
  intros Hb. specialize (H2 Hb). lia.
Qed.

(** The counters recorded by the solve of a whole batch. *)
Lemma ComputeEigenValuesAndVectors_iterations (fuel : nat) (o : GoldenPCA T)
    (out : cout T) (o' : GoldenPCA T) (out' : cout T) :
  ComputeEigenValuesAndVectors fuel (o, out) = Some (o', out') ->
  length (iterations o) = matrix_count o ->
  forall m, m < matrix_count o ->
    exists k, iterations o' !! m = Some (of_int (Z.of_nat k)) /\
              1 <= k /\
              (benchmark_mode o = false -> k <= features o * features o * 16 + 1).
Proof.
  unfold ComputeEigenValuesAndVectors. cbn [fst]. intros Hrun Hlen.
  set (step := fun (matrix_index : nat) (ow : option (GoldenPCA T * cout T)) =>
                 match ow with
                 | Some w => solve_matrix fuel matrix_index w
                 | None => None
                 end) in *.
  enough (forall n, n <= matrix_count o ->
            forall o' out', for_loop n step (Some (o, out)) = Some (o', out') ->
            features o' = features o /\ benchmark_mode o' = benchmark_mode o /\
            length (iterations o') = matrix_count o /\
            forall m, m < n ->
              exists k, iterations o' !! m = Some (of_int (Z.of_nat k)) /\
                        1 <= k /\
                        (benchmark_mode o = false ->
                         k <= features o * features o * 16 + 1)) as H.
  { intros m Hm. eapply H; [|exact Hrun|exact Hm]. lia. }
  clear o' out' Hrun. intros n Hn.
  pattern n, (for_loop n step (Some (o, out))). apply for_loop_ind.
  - intros o' out' [= <- <-]. repeat split; try assumption. intros; lia.
  - intros m [[o1 out1]|] Hm IH o2 out2 Hstep; [|discriminate].
    destruct (IH o1 out1 eq_refl) as (Hf & Hb & Hl & Hits).
    cbn [step] in Hstep.
    apply solve_matrix_fields in Hstep
      as (_ & Hf' & _ & Hb' & _ & _ & _ & k & Hk & Hk1 & Hk2).
    split; [congruence|]. split; [congruence|].
    split; [rewrite Hk, length_insert; exact Hl|].
    intros m' Hm'. rewrite Hk. destruct (decide (m' = m)) as [->|Hne].
    + exists k. rewrite list_lookup_insert_eq by lia.
      split; [reflexivity|]. split; [exact Hk1|].
      rewrite <- Hb, <- Hf. exact Hk2.
    + rewrite list_lookup_insert_ne by congruence. apply Hits. lia.
Qed.

(** Outside benchmark mode the solve of a batch returns. *)
Lemma ComputeEigenValuesAndVectors_total (fuel : nat) (o : GoldenPCA T)
    (out : cout T) :
  benchmark_mode o = false ->
  features o * features o * 16 + 1 <= fuel ->
  exists w', ComputeEigenValuesAndVectors fuel (o, out) = Some w'.
Proof.
  intros Hb Hfuel. unfold ComputeEigenValuesAndVectors. cbn [fst].
  set (step := fun (matrix_index : nat) (ow : option (GoldenPCA T * cout T)) =>
                 match ow with
                 | Some w => solve_matrix fuel matrix_index w
                 | None => None
                 end).
  enough (exists o' out', for_loop (matrix_count o) step (Some (o, out))
                          = Some (o', out') /\
                          features o' = features o /\ benchmark_mode o' = false)
    as (o' & out' & H & _) by eauto.
  apply (for_loop_inv (fun ow => exists o' out', ow = Some (o', out') /\
                          features o' = features o /\ benchmark_mode o' = false)).
  - eauto.
  - intros m ow _ (o1 & out1 & -> & Hf & Hb1). cbn [step].
    destruct (solve_matrix fuel m (o1, out1)) as [[o2 out2]|] eqn:Hs.
    + apply solve_matrix_fields in Hs as (_ & Hf' & _ & Hb' & _).
      exists o2, out2. repeat split; congruence.
    + exfalso. unfold solve_matrix in Hs. rewrite Hb1 in Hs.
      destruct (qr_loop_total fuel (features o1)
                  (m * features o1 * features o1) 0 (qr_init o1 m)) as [r Hr];
        [rewrite Hf; lia | lia |].
      rewrite Hr in Hs. destruct r as [[k s] ab]. discriminate.
Qed.

End Loop.

(** C2 as stated fails: on the 2 x 2 zero covariance matrix the loop is
    left by its [break] with the counter at 65, which exceeds
    [features * features * 16 = 64]. *)
Lemma C2_counterexample :
  option_map (fun w => iterations (fst w))
    (ComputeEigenValuesAndVectors 65 (zero_batch false, [])) = Some [65%float]
  /\ benchmark_mode (zero_batch false) = false
  /\ features (zero_batch false) * features (zero_batch false) * 16 < 65.
Proof.
  split; [vm_compute; reflexivity|]. split; [reflexivity|]. cbn. lia.
Qed.

(** C2, as amended: outside benchmark mode every solve returns and the
    iteration count recorded for each batch entry is at most
    [features * features * 16 + 1]: the test [iterations > features *
    features * 16] comes after the increment, so the pass that takes
    the counter past the bound has been made. *)
Theorem C2_iteration_count_at_most_bound_plus_one
    {T : Type} `{ST : Scalar T} (o : GoldenPCA T) (out : cout T) (fuel : nat) :
  benchmark_mode o = false ->
  length (iterations o) = matrix_count o ->
  features o * features o * 16 + 1 <= fuel ->
  exists o' out',
    ComputeEigenValuesAndVectors fuel (o, out) = Some (o', out') /\
    forall m, m < matrix_count o ->
      exists k, iterations o' !! m = Some (of_int (Z.of_nat k)) /\
                k <= features o * features o * 16 + 1.
Proof.
  intros Hb Hlen Hfuel.
  destruct (ComputeEigenValuesAndVectors_total fuel o out Hb Hfuel)
    as [[o' out'] Hrun].
  exists o', out'. split; [exact Hrun|].
  intros m Hm.
  destruct (ComputeEigenValuesAndVectors_iterations fuel o out o' out'
              Hrun Hlen m Hm) as (k & Hk & _ & Hle).
  exists k. split; [exact Hk|]. apply Hle, Hb.
Qed.

Lemma C2_iteration_count_at_most_bound_plus_one_witness :
  exists o' out',
    ComputeEigenValuesAndVectors 65 (zero_batch false, []) = Some (o', out') /\
    forall m, m < 1 ->
      exists k, iterations o' !! m = Some (of_int (Z.of_nat k)) /\ k <= 65.
Proof.
  exact (C2_iteration_count_at_most_bound_plus_one (zero_batch false) [] 65
           eq_refl eq_refl (Nat.le_refl 65)).
Defined.

(** C9: the iteration count recorded for each batch entry is at least
    1.  Outside benchmark mode the solve of a batch returns; and
    whenever it returns, in benchmark mode or not, every recorded count
    is at least 1, the first pass being made, with its shift forced to
    zero, before [converged] is looked at. *)
Theorem C9_iteration_count_at_least_one
    {T : Type} `{ST : Scalar T} (o : GoldenPCA T) (out : cout T) (fuel : nat) :
  length (iterations o) = matrix_count o ->
  (benchmark_mode o = false -> features o * features o * 16 + 1 <= fuel ->
   exists w', ComputeEigenValuesAndVectors fuel (o, out) = Some w') /\
  (forall o' out',
     ComputeEigenValuesAndVectors fuel (o, out) = Some (o', out') ->
     forall m, m < matrix_count o ->
       exists k, iterations o' !! m = Some (of_int (Z.of_nat k)) /\ 1 <= k) /\
  (forall rq, shift_value_at (features o) rq 0 = 0%float).
Proof.
  intros Hlen. split; [apply ComputeEigenValuesAndVectors_total|].
  split; [|reflexivity].
  intros o' out' Hrun m Hm.
  destruct (ComputeEigenValuesAndVectors_iterations fuel o out o' out'
              Hrun Hlen m Hm) as (k & Hk & H1 & _).
  exists k. split; assumption.
Qed.

Lemma C9_iteration_count_at_least_one_witness :
  ComputeEigenValuesAndVectors 65 (diagonal_batch false, []) =
    Some (mkGoldenPCA 2 2 1 false false [2; 0; 0; 1] [4; 0; 0; 1] [4; 1]
            [1; 0; 0; 1] [1], [])%float /\
  exists k, [1%float] !! 0 = Some (of_int (Z.of_nat k)) /\ 1 <= k.
Proof.
  split; [vm_compute; reflexivity|].
  destruct (C9_iteration_count_at_least_one (diagonal_batch false) [] 65 eq_refl)
    as (_ & H & _).
  exact (H (mkGoldenPCA 2 2 1 false false [2; 0; 0; 1] [4; 0; 0; 1] [4; 1]
              [1; 0; 0; 1] [1])%float [] eq_refl 0 (Nat.lt_0_succ 0)).
Defined.

(** *** Benchmark mode on the zero matrix *)

(** The state the loop is in from its second pass on: every entry of
    every working vector is NaN. *)
Lemma zero_batch_first_pass (b : bool) :
  qr_iteration 2 0 0 (qr_init (zero_batch b) 0) =
  (mkQR [nan; nan; nan; nan] [0; nan; 0; nan] [nan; nan; nan; nan]
        [nan; nan; nan; nan], false)%float.
Proof. destruct b; vm_compute; reflexivity. Qed.

Lemma all_nan_pass (iters : nat) :
  qr_iteration 2 0 (S iters)
    (mkQR [nan; nan; nan; nan] [0; nan; 0; nan] [nan; nan; nan; nan]
          [nan; nan; nan; nan])%float =
  (mkQR [nan; nan; nan; nan] [nan; nan; 0; nan] [nan; nan; nan; nan]
        [nan; nan; nan; nan], false)%float
  /\
  qr_iteration 2 0 (S iters)
    (mkQR [nan; nan; nan; nan] [nan; nan; 0; nan] [nan; nan; nan; nan]
          [nan; nan; nan; nan])%float =
  (mkQR [nan; nan; nan; nan] [nan; nan; 0; nan] [nan; nan; nan; nan]
        [nan; nan; nan; nan], false)%float.
Proof. split; vm_compute; reflexivity. Qed.

Lemma all_nan_loop (fuel iters : nat) (r : list float) :
  r = [0; nan; 0; nan]%float \/ r = [nan; nan; 0; nan]%float ->
  qr_loop fuel 2 0 true (S iters)
    (mkQR [nan; nan; nan; nan] r [nan; nan; nan; nan] [nan; nan; nan; nan])%float
  = None.
Proof.
  revert iters r. induction fuel as [|fuel IH]; intros iters r Hr; [reflexivity|].
  rewrite qr_loop_benchmark.
  destruct (all_nan_pass iters) as [H1 H2].
  destruct Hr as [-> | ->]; [rewrite H1 | rewrite H2]; cbn [fst snd];
    apply IH; right; reflexivity.
Qed.

(** C4 as stated fails in benchmark mode: on the 2 x 2 zero covariance
    matrix the solve never leaves its loop, whatever the fuel. *)
Lemma C4_counterexample :
  benchmark_mode (zero_batch true) = true /\
  ~ (exists fuel w',
       ComputeEigenValuesAndVectors fuel (zero_batch true, []) = Some w').
Proof.
  split; [reflexivity|]. intros (fuel & w' & H).
  change (ComputeEigenValuesAndVectors fuel (zero_batch true, []))
    with (solve_matrix fuel 0 (zero_batch true, [])) in H.
  apply solve_matrix_Some in H as (k & s & ab & _ & H & _).
  change (qr_loop fuel 2 0 true 0 (qr_init (zero_batch true) 0) = Some (k, s, ab)) in H.
  destruct fuel as [|fuel]; [discriminate|].
  rewrite qr_loop_benchmark, zero_batch_first_pass in H. cbn [fst snd] in H.
  rewrite all_nan_loop in H by (left; reflexivity). discriminate.
Qed.

(** C4, as amended: outside benchmark mode the solve of a batch returns
    for every input, and the loop of each batch entry is left after at
    most [features * features * 16 + 1] passes, by its [break] after
    exactly that many or because its last pass set [converged]; more
    fuel changes nothing. *)
Theorem C4_solve_terminates_outside_benchmark_mode
    {T : Type} `{ST : Scalar T} (o : GoldenPCA T) (out : cout T) (fuel : nat) :
  benchmark_mode o = false ->
  features o * features o * 16 + 1 <= fuel ->
  (exists w', ComputeEigenValuesAndVectors fuel (o, out) = Some w') /\
  forall m, exists k s aborted,
    (forall fuel', fuel <= fuel' ->
       qr_loop fuel' (features o) (m * features o * features o) false 0
         (qr_init o m) = Some (k, s, aborted)) /\
    1 <= k <= features o * features o * 16 + 1 /\
    if aborted then k = features o * features o * 16 + 1
    else exists j, k = S j /\
           converged_in_pass (features o) (m * features o * features o) j
             (qr_init o m) = true.
Proof.
  intros Hb Hfuel. split; [apply ComputeEigenValuesAndVectors_total; assumption|].
  intros m.
  destruct (qr_loop_total fuel (features o) (m * features o * features o) 0
              (qr_init o m)) as [[[k s] ab] Hr]; [lia|lia|].
  exists k, s, ab.
  split; [intros fuel' Hle; apply (qr_loop_more_fuel fuel); assumption|].
  pose proof (qr_loop_counter _ _ _ _ _ _ _ _ _ Hr) as [H1 H2].
  specialize (H2 eq_refl).
  apply (qr_loop_iterate fuel _ _ false 0 (qr_init o m)) in Hr as (_ & Hab & Hconv).
  split; [lia|]. destruct ab.
  - symmetry in Hab. rewrite andb_true_r in Hab. apply Nat.ltb_lt in Hab. lia.
  - apply Hconv. reflexivity.
Qed.

Lemma C4_solve_terminates_outside_benchmark_mode_witness :
  (exists w', ComputeEigenValuesAndVectors 65 (zero_batch false, []) = Some w') /\
  forall m, exists k s aborted,
    (forall fuel', 65 <= fuel' ->
       qr_loop fuel' 2 (m * 2 * 2) false 0 (qr_init (zero_batch false) m)
         = Some (k, s, aborted)) /\
    1 <= k <= 65 /\
    if aborted then k = 65
    else exists j, k = S j /\
           converged_in_pass 2 (m * 2 * 2) j (qr_init (zero_batch false) m) = true.
Proof.
  exact (C4_solve_terminates_outside_benchmark_mode (zero_batch false) [] 65
           eq_refl (Nat.le_refl 65)).
Defined.

(** *** Two runs of the solver *)

(** The samples (1,1), (1,0), (0,1) have the covariance matrix
    [2 1; 1 2], whose eigenvalues are 3 and 1: the solve leaves its loop
    after 5 passes. *)
Example known_2x2_example :
  option_map (fun w => outputs (fst w))
    (ComputeEigenValuesAndVectors 65
       (ComputeCovarianceMatrix
          (GoldenPCA_new 3 2 1 false false [[1; 1]; [1; 0]; [0; 1]]%float, [])))
  = Some ([2; 1; 1; 2],
          [0x1.7fffffffffffep+1; 1],
          [0x1.6a09e66931491p-1; -0x1.6a09e666b6312p-1;
           0x1.6a09e666b6308p-1; 0x1.6a09e66931487p-1],
          [5])%float.
Proof. vm_compute. reflexivity. Qed.

(** A covariance matrix that is diagonal from the start, diag(4, 1):
    one pass, and the eigenvectors are the identity. *)
Example diagonal_example :
  option_map (fun w => outputs (fst w))
    (ComputeEigenValuesAndVectors 65 (diagonal_batch false, []))
  = Some ([4; 0; 0; 1], [4; 1], [1; 0; 0; 1], [1])%float.
Proof. vm_compute. reflexivity. Qed.

(** ** The vectors of the solver *)

Lemma length_for_loop {A : Type} (n : nat) (body : nat -> list A -> list A)
    (v : list A) :
  (forall k v, k < n -> length (body k v) = length v) ->
  length (for_loop n body v) = length v.
Proof.
  intros H. apply (for_loop_inv (fun w => length w = length v)); [reflexivity|].
  intros k w Hk Hw. rewrite H; assumption.
Qed.

Section SolverVectors.
Context {T : Type} `{ST : Scalar T}.

(** [eigenvectors = eigenvectors * q] on the block at [offset]. *)
Lemma update_eigenvectors_spec (f off : nat) (q : list float) (ev : list T) :
  off + f * f <= length ev ->
  let ev' := update_eigenvectors f off q ev in
  length ev' = length ev /\
  (forall i, i < off \/ off + f * f <= i -> ev' !!! i = ev !!! i) /\
  (forall row col, row < f -> col < f ->
     ev' !!! (off + row * f + col) =
     of_double (eigenvectors_entry f off ev q row col)).
Proof.
  intros Hlen. cbv zeta. unfold update_eigenvectors.
  destruct (for_loop_fill2 f f (fun row col => row * f + col)
              (fun row col => of_double (eigenvectors_entry f off ev q row col))
              (replicate (f * f) T0)) as (_ & _ & Hin).
  { intros r c r' c' _ Hc _ Hc'. apply (row_major_inj f 0); assumption. }
  { intros r c Hr Hc. rewrite length_replicate. apply row_major_lt; assumption. }
  cbv zeta in Hin.
  set (eqp := for_loop f _ (replicate (f * f) T0)) in *.
  destruct (for_loop_fill2 f f (fun row col => off + row * f + col)
              (fun row col => eqp !!! (row * f + col)) ev) as (L & Hout & Hin').
  { intros r c r' c' _ Hc _ Hc'. apply row_major_inj; assumption. }
  { intros r c Hr Hc. pose proof (row_major_lt f f r c Hr Hc). lia. }
  cbv zeta in L, Hout, Hin'.
  split; [exact L|]. split.
  - intros i Hi. apply Hout. intros r c Hr Hc.
    pose proof (row_major_lt f f r c Hr Hc). lia.
  - intros row col Hrow Hcol. rewrite Hin' by assumption. apply Hin; assumption.
Qed.

Lemma update_eigenvectors_length (f off : nat) (q : list float) (ev : list T) :
  length (update_eigenvectors f off q ev) = length ev.
Proof.
  unfold update_eigenvectors. apply length_for_loop. intros row v _.
  apply length_for_loop. intros col w _. apply length_insert.
Qed.

Lemma qr_iteration_eigenvectors (f off iters : nat) (s : qr_state T) :
  exists q, qr_eigenvectors (fst (qr_iteration f off iters s)) =
            update_eigenvectors f off q (qr_eigenvectors s) /\
            q = qr_q (fst (qr_iteration f off iters s)).
Proof.
  unfold qr_iteration.
  destruct (clear_qr f (qr_q s, qr_r s)) as [q0 r0].
  destruct (gram_schmidt f _) as [[q r] rq]. cbn. eauto.
Qed.

Lemma qr_iterate_length_eigenvectors (f off k : nat) (s : qr_state T) :
  length (qr_eigenvectors (qr_iterate f off k s)) = length (qr_eigenvectors s).
Proof.
  induction k as [|k IH]; [reflexivity|]. cbn [qr_iterate].
  destruct (qr_iteration_eigenvectors f off k (qr_iterate f off k s)) as (q & -> & _).
  rewrite update_eigenvectors_length. exact IH.
Qed.

Lemma qr_init_length_eigenvectors (o : GoldenPCA T) (m : nat) :
  length (qr_eigenvectors (qr_init o m)) = length (eigenvectors o).
Proof.
  unfold qr_init. cbn [qr_eigenvectors]. apply length_for_loop. intros row v _.
  apply length_for_loop. intros col w _. apply length_insert.
Qed.

(** What [report] stores. *)
Lemma report_spec (o : GoldenPCA T) (m : nat) (out : cout T) (iters : nat)
    (s : qr_state T) :
  m * features o + features o <= length (eigenvalues o) ->
  let o' := fst (report o m out iters s) in
  eigenvectors o' = qr_eigenvectors s /\
  iterations o' = <[m := of_int (Z.of_nat iters)]> (iterations o) /\
  length (eigenvalues o') = length (eigenvalues o) /\
  (forall i, i < m * features o \/ m * features o + features o <= i ->
     eigenvalues o' !!! i = eigenvalues o !!! i) /\
  (forall k, k < features o ->
     eigenvalues o' !!! (k + m * features o) =
     of_double (qr_rq s !!! (k + features o * k))).
Proof.
  intros Hlen. cbv zeta. rewrite report_fst. cbn.
  destruct (for_loop_update (features o) (fun k => k + m * features o)
              (fun k _ => of_double (qr_rq s !!! (k + features o * k)))
              (eigenvalues o)) as (L & Hout & Hin).
  { intros; lia. }
  { intros; lia. }
  cbv zeta beta in L, Hout, Hin.
  split; [reflexivity|]. split; [reflexivity|]. split; [exact L|]. split.
  - intros i Hi. apply Hout. intros; lia.
  - exact Hin.
Qed.

(** [report] only adds to what has been printed. *)
Lemma report_prints_after (o : GoldenPCA T) (m : nat) (out : cout T)
    (iters : nat) (s : qr_state T) :
  out `prefix_of` snd (report o m out iters s).
Proof.
  unfold report.
  match goal with
  | |- context [for_loop (features o) ?b (eigenvalues o, ?x)] =>
      set (body := b); set (out0 := x)
  end.
  assert (H0 : out `prefix_of` out0).
  { subst out0. destruct (debug o); [|reflexivity].
    etrans; apply prefix_app_r; reflexivity. }
  assert (H1 : out `prefix_of` snd (for_loop (features o) body (eigenvalues o, out0))).
  { apply (for_loop_inv (fun st => out `prefix_of` snd st)); [exact H0|].
    intros k [vals x] _ Hx. cbn in *. destruct (debug o); [|exact Hx].
    apply prefix_app_r, Hx. }
  destruct (for_loop (features o) body (eigenvalues o, out0)) as [vals out1].
  cbn [snd] in *. destruct (debug o); [|exact H1].
  unfold print_eigenvectors. apply prefix_app_r.
  apply (for_loop_inv (fun x => out `prefix_of` x)).
  - do 2 apply prefix_app_r. exact H1.
  - intros row x _ Hx. apply prefix_app_r.
    apply (for_loop_inv (fun x => out `prefix_of` x)); [exact Hx|].
    intros col y _ Hy. apply prefix_app_r, Hy.
Qed.

End SolverVectors.

(** C7: outside benchmark mode, when no pass within the bound sets
    [converged], the solve of a batch entry still returns: it has made
    [features * features * 16 + 1] passes, printed its message, and
    stored, as for a converged solve, the diagonal of [rq] as the
    eigenvalues and the accumulator as the eigenvectors, both as they
    are after the last pass. *)
Theorem C7_bound_reached_reports_partial_result
    {T : Type} `{ST : Scalar T} (o : GoldenPCA T) (out : cout T)
    (fuel m : nat) :
  benchmark_mode o = false ->
  well_sized o ->
  m < matrix_count o ->
  features o * features o * 16 + 1 <= fuel ->
  (forall j, j < features o * features o * 16 ->
     converged_in_pass (features o) (m * features o * features o) j
       (qr_init o m) = false) ->
  exists o' out',
    solve_matrix fuel m (o, out) = Some (o', out') /\
    let s := qr_iterate (features o) (m * features o * features o)
               (features o * features o * 16 + 1) (qr_init o m) in
    (forall k, k < features o ->
       eigenvalues o' !! (k + m * features o) =
       Some (of_double (qr_rq s !!! (k + features o * k)))) /\
    eigenvectors o' = qr_eigenvectors s /\
    iterations o' !! m =
      Some (of_int (Z.of_nat (features o * features o * 16 + 1))) /\
    well_sized o' /\
    OStr "Number of iterations too high" ∈ out'.
Proof.
  intros Hb (Ha & Hc & Hvals & Hvecs & Hits) Hm Hfuel Hnc.
  set (f := features o) in *. set (off := m * f * f) in *.
  pose proof (qr_loop_no_convergence fuel f off 0 (qr_init o m)
                ltac:(lia) ltac:(lia)) as Hloop.
  cbn [qr_iterate] in Hloop.
  specialize (Hloop (fun j Hj => Hnc j (proj2 Hj))).
  unfold solve_matrix. fold f off. rewrite Hb, Hloop.
  match goal with
  | |- context [report o m ?x ?k ?s] => set (out1 := x); set (s1 := s)
  end.
  destruct (report o m out1 (f * f * 16 + 1) s1) as [o' out'] eqn:Hrep.
  exists o', out'. split; [reflexivity|]. cbv zeta.
  assert (Hvl : m * features o + features o <= length (eigenvalues o)).
  { rewrite Hvals. fold f. nia. }
  destruct (report_spec o m out1 (f * f * 16 + 1) s1 Hvl)
    as (Hev & Hit & L & _ & Hin).
  pose proof (report_prints_after o m out1 (f * f * 16 + 1) s1) as Hpre.
  pose proof (report_fst o m out1 (f * f * 16 + 1) s1) as Hfst.
  rewrite Hrep in Hev, Hit, L, Hin, Hpre, Hfst. cbn [fst snd] in *.
  split; [|split; [exact Hev|split; [|split]]].
  - intros k Hk. rewrite list_lookup_lookup_total_lt by (rewrite L; fold f; lia).
    f_equal. apply Hin, Hk.
  - rewrite Hit. rewrite list_lookup_insert_eq by lia. reflexivity.
  - assert (Hfields : samples o' = samples o /\ features o' = features o /\
                      matrix_count o' = matrix_count o /\
                      a_matrix o' = a_matrix o /\
                      covariance_matrix o' = covariance_matrix o)
      by (rewrite Hfst; cbn; auto).
    destruct Hfields as (E1 & E2 & E3 & E4 & E5).
    unfold well_sized. rewrite E1, E2, E3, E4, E5, L, Hev, Hit, length_insert.
    subst s1. rewrite qr_iterate_length_eigenvectors, qr_init_length_eigenvectors.
    auto.
  - destruct Hpre as [l ->]. apply elem_of_app. left.
    subst out1. apply elem_of_app. right. left.
Qed.

(** On the zero matrix no pass sets [converged]. *)
Lemma zero_batch_state (b : bool) (j : nat) :
  exists r, (r = [0; nan; 0; nan] \/ r = [nan; nan; 0; nan])%float /\
    qr_iterate 2 0 (S j) (qr_init (zero_batch b) 0) =
    (mkQR [nan; nan; nan; nan] r [nan; nan; nan; nan] [nan; nan; nan; nan])%float.
Proof.
  induction j as [|j (r & Hr & IH)].
  - eexists. split; [left; reflexivity|].
    cbn [qr_iterate]. rewrite zero_batch_first_pass. reflexivity.
  - eexists. split; [right; reflexivity|].
    change (qr_iterate 2 0 (S (S j)) (qr_init (zero_batch b) 0))
      with (fst (qr_iteration 2 0 (S j) (qr_iterate 2 0 (S j) (qr_init (zero_batch b) 0)))).
    rewrite IH. destruct (all_nan_pass j) as [H1 H2].
    destruct Hr as [-> | ->]; [rewrite H1 | rewrite H2]; reflexivity.
Qed.

Lemma zero_batch_never_converges (b : bool) (j : nat) :
  converged_in_pass 2 0 j (qr_init (zero_batch b) 0) = false.
Proof.
  unfold converged_in_pass. destruct j as [|j].
  - cbn [qr_iterate]. rewrite zero_batch_first_pass. reflexivity.
  - destruct (zero_batch_state b j) as (r & Hr & ->).
    destruct (all_nan_pass j) as [H1 H2].
    destruct Hr as [-> | ->]; [rewrite H1 | rewrite H2]; reflexivity.
Qed.

Lemma C7_bound_reached_reports_partial_result_witness :
  exists o' out',
    solve_matrix 65 0 (zero_batch false, []) = Some (o', out') /\
    iterations o' !! 0 = Some 65%float /\
    well_sized o' /\
    OStr "Number of iterations too high" ∈ out'.
Proof.
  assert (Hsz : well_sized (zero_batch false)) by (repeat split; reflexivity).
  destruct (C7_bound_reached_reports_partial_result (zero_batch false) [] 65 0
              eq_refl Hsz (Nat.lt_0_succ 0) (Nat.le_refl 65)
              (fun j _ => zero_batch_never_converges false j))
    as (o' & out' & H1 & _ & _ & H3 & H4 & H5).
  exists o', out'.
  split; [exact H1|]. split; [exact H3|]. split; [exact H4|exact H5].
Defined.

(** ** The shift *)

Lemma for_loop_andb_false (n : nat) (t : nat -> bool) :
  for_loop n (fun k z => z && t k) true = false ->
  exists k, k < n /\ t k = false.
Proof.
  induction n as [|n IH]; [discriminate|].
  rewrite for_loop_S. intros H. apply andb_false_iff in H as [H|H].
  - destruct (IH H) as (k & Hk & Ht). exists k. split; [lia|exact Ht].
  - exists n. split; [lia|exact H].
Qed.

Lemma row_is_zero_false (f : nat) (rq : list float) (row : nat) :
  row_is_zero f rq row = false ->
  exists col, col < row /\
    (abs (rq !!! (row * f + col)%nat) <? kZeroThreshold)%float = false.
Proof. unfold row_is_zero. apply for_loop_andb_false. Qed.

(** Where the scan stops: at a row that is not zero left of its
    diagonal, with [shift_row] one less than that row, or below row 1. *)
Lemma find_shift_row_spec (f : nat) (rq : list float) (row : nat) (sr : Z) :
  let sr' := find_shift_row f rq row sr in
  (exists row', 1 <= row' <= row /\ row_is_zero f rq row' = false /\
                sr' = (sr - Z.of_nat (row - row'))%Z) \/
  sr' = (sr - Z.of_nat row)%Z.
Proof.
  cbv zeta. revert sr. induction row as [|row IH]; intros sr.
  - right. cbn. lia.
  - cbn [find_shift_row]. destruct (row_is_zero f rq (S row)) eqn:Hz; cbn [negb].
    + destruct (IH (sr - 1)%Z) as [(row' & Hr & Hz' & E)|E].
      * left. exists row'. split; [lia|]. split; [exact Hz'|]. lia.
      * right. lia.
    + left. exists (S row). split; [lia|]. split; [exact Hz|]. lia.
Qed.

(** C3, as amended: the shift is always [c - sign(d) * b^2 / (|d| +
    sqrt(d^2 + b^2))], with no special case.  An input reaches this
    computation only when some entry left of the diagonal in row
    [shift_row + 1] is not below the threshold in magnitude (for
    [features = 2] that entry is [b]); when [b^2] and [d] are both zero
    the division is 0/0 and the computed shift is NaN. *)
Theorem C3_shift_is_guarded_by_the_scan_only (f : nat) (rq : list float) :
  let shift_row := find_shift_row f rq (f - 1) (Z.of_nat f - 2) in
  (0 <= shift_row)%Z ->
  let s := Z.to_nat shift_row in
  let a := rq !!! (s + f * s) in
  let b := rq !!! (s + f * (s + 1)) in
  let c := rq !!! ((s + 1) + f * (s + 1)) in
  s + 1 < f /\
  (exists col, col <= s /\
     (abs (rq !!! ((s + 1) * f + col)%nat) <? kZeroThreshold)%float = false) /\
  (f = 2 -> (abs b <? kZeroThreshold)%float = false) /\
  (zero_or_nan (b * b) = true -> zero_or_nan ((a - c) / 2) = true ->
   compute_shift a b c = nan).
Proof.
  cbv zeta. intros Hsr.
  destruct (find_shift_row_spec f rq (f - 1) (Z.of_nat f - 2))
    as [(row' & Hr & Hz & E)|E]; cbv zeta in E; [|lia].
  set (sr := find_shift_row f rq (f - 1) (Z.of_nat f - 2)) in *.
  assert (Hs : Z.to_nat sr + 1 = row') by lia.
  destruct (row_is_zero_false f rq row' Hz) as (col & Hcol & Ht).
  split; [lia|]. split; [|split].
  - exists col. split; [lia|]. rewrite Hs. exact Ht.
  - intros ->. assert (row' = 1) as -> by lia. assert (col = 0) as -> by lia.
    replace (Z.to_nat sr) with 0 by lia. exact Ht.
  - intros Hb Hd. unfold compute_shift.
    match type of Hd with zero_or_nan ?x = true => set (d := x) in * end.
    match type of Hb with zero_or_nan ?x = true => set (b2 := x) in * end.
    rewrite div_zero_or_nan.
    + apply sub_nan_r.
    + destruct (d <? 0)%float; [apply opp_zero_or_nan|]; exact Hb.
    + apply add_zero_or_nan; [apply abs_zero_or_nan, Hd|].
      apply sqrt_zero_or_nan, add_zero_or_nan; [|exact Hb].
      apply mul_zero_or_nan_l, Hd.
Qed.

Lemma C3_shift_is_guarded_by_the_scan_only_witness :
  2 < 3 /\
  (exists col, col <= 1 /\
     (abs (coupled_3x3 !!! (2 * 3 + col)%nat) <? kZeroThreshold)%float = false) /\
  (3 = 2 -> (abs 0 <? kZeroThreshold)%float = false) /\
  (zero_or_nan (0 * 0) = true -> zero_or_nan ((1 - 1) / 2) = true ->
   compute_shift 1 0 1 = nan).
Proof.
  exact (C3_shift_is_guarded_by_the_scan_only 3 coupled_3x3 ltac:(vm_compute; discriminate)).
Defined.

(** C3 as stated fails: the symmetric matrix [coupled_3x3] reaches the
    shift computation with [a = 1], [b = 0], [c = 1], so [b^2 = 0] and
    [d = 0]; the division is 0/0 and the computed shift is NaN, not
    [c]; it is the shift of every pass but the first. *)
Lemma C3_counterexample :
  find_shift_row 3 coupled_3x3 2 1 = 1%Z /\
  (coupled_3x3 !!! (1 + 3 * 1)%nat = 1 /\ coupled_3x3 !!! (1 + 3 * 2)%nat = 0 /\
   coupled_3x3 !!! (2 + 3 * 2)%nat = 1)%float /\
  (0 * 0 = 0 /\ (1 - 1) / 2 = 0 /\ abs 0 + sqrt (0 * 0 + 0 * 0) = 0)%float /\
  compute_shift 1 0 1 = nan /\
  compute_shift 1 0 1 <> 1%float /\
  shift_value_at 3 coupled_3x3 1 = nan.
Proof.
  repeat split; try (vm_compute; reflexivity).
  intros H. float_discriminate H.
Qed.

(** ** A zero column in the Gram-Schmidt step *)

Section ZeroColumn.
Local Open Scope float_scope.

(** A sum that starts at 0 and adds zeros or NaNs is a zero or a NaN. *)
Lemma sum_zero_or_nan (n : nat) (t : nat -> float) :
  (forall k, (k < n)%nat -> zero_or_nan (t k) = true) ->
  zero_or_nan (for_loop n (fun k acc => acc + t k) 0) = true.
Proof.
  intros H. induction n as [|n IH]; [reflexivity|].
  rewrite for_loop_S. apply add_zero_or_nan; [apply IH|apply H]; auto with lia.
Qed.

(** A sum with a NaN among its terms is NaN. *)
Lemma sum_nan (n : nat) (t : nat -> float) (k0 : nat) :
  (k0 < n)%nat -> t k0 = nan ->
  for_loop n (fun k acc => acc + t k) 0 = nan.
Proof.
  intros Hk Ht. induction n as [|n IH]; [lia|].
  rewrite for_loop_S. destruct (decide (k0 = n)) as [->|Hne].
  - rewrite Ht. apply add_nan_r.
  - rewrite IH by lia. apply add_nan_l.
Qed.

Lemma column_index_inj (f j k k' : nat) :
  (j < f)%nat -> (k * f + j = k' * f + j)%nat -> k = k'.
Proof. intros Hj E. nia. Qed.

Lemma column_index_ne (f i j k k' : nat) :
  (i < f)%nat -> (j < f)%nat -> i <> j -> (k * f + j <> k' * f + i)%nat.
Proof.
  intros Hi Hj Hne E. apply (row_major_inj f 0 k j k' i) in E; lia.
Qed.

(** Line 222: column [i] of [q] is column [i] of [rq] over [rii]. *)
Lemma q_column_loop (f i : nat) (rq q : list float) (rii : float) :
  (i < f)%nat -> length q = (f * f)%nat ->
  let q' :=
    for_loop f (fun k q =>
      let x := rq !!! (k * f + i)%nat in <[(k * f + i)%nat := x / rii]> q) q in
  length q' = (f * f)%nat /\
  (forall j k, (j < f)%nat -> j <> i -> q' !!! (k * f + j)%nat = q !!! (k * f + j)%nat) /\
  (forall k, (k < f)%nat -> q' !!! (k * f + i)%nat = rq !!! (k * f + i)%nat / rii).
Proof.
  intros Hi Hlen.
  destruct (for_loop_update f (fun k => (k * f + i)%nat)
              (fun k _ => rq !!! (k * f + i)%nat / rii) q) as (L & Hout & Hin).
  { intros k k' _ _. apply column_index_inj, Hi. }
  { intros k Hk. rewrite Hlen. apply row_major_lt; assumption. }
  cbv zeta in *. split; [congruence|]. split; [|exact Hin].
  intros j k Hj Hne. apply Hout. intros k' _. apply column_index_ne; auto.
Qed.

(** Line 233: column [j] of [rq] loses its component along column [i]
    of [q]. *)
Lemma rq_column_loop (f i j : nat) (q rq : list float) (dp : float) :
  (j < f)%nat -> length rq = (f * f)%nat ->
  let rq' :=
    for_loop f (fun k rq =>
      let x := rq !!! (k * f + j)%nat in
      let y := q !!! (k * f + i)%nat in
      <[(k * f + j)%nat := x - dp * y]> rq) rq in
  length rq' = (f * f)%nat /\
  (forall c k, (c < f)%nat -> c <> j -> rq' !!! (k * f + c)%nat = rq !!! (k * f + c)%nat) /\
  (forall k, (k < f)%nat ->
     rq' !!! (k * f + j)%nat = rq !!! (k * f + j)%nat - dp * q !!! (k * f + i)%nat).
Proof.
  intros Hj Hlen.
  destruct (for_loop_update f (fun k => (k * f + j)%nat)
              (fun k x => x - dp * q !!! (k * f + i)%nat) rq) as (L & Hout & Hin).
  { intros k k' _ _. apply column_index_inj, Hj. }
  { intros k Hk. rewrite Hlen. apply row_major_lt; assumption. }
  cbv zeta in *. split; [congruence|]. split; [|exact Hin].
  intros c k Hc Hne. apply Hout. intros k' _. apply column_index_ne; auto.
Qed.

(** Lines 225-235 for one column [i0]: [q] is not written, and a column
    of [rq] that holds zeros or NaNs keeps holding zeros or NaNs. *)
Lemma projection_loop (f i0 i : nat) (q r rq : list float) :
  (i < f)%nat -> length rq = (f * f)%nat ->
  (forall k, (k < f)%nat -> zero_or_nan (rq !!! (k * f + i)%nat) = true) ->
  let '(q', r', rq') :=
    for_range (i0 + 1) f (fun j '(q, r, rq) =>
      let dp := column_dot f q rq i0 j in
      let r := <[(i0 * f + j)%nat := dp]> r in
      let rq :=
        for_loop f (fun k rq =>
          let x := rq !!! (k * f + j)%nat in
          let y := q !!! (k * f + i0)%nat in
          <[(k * f + j)%nat := x - dp * y]> rq) rq in
      (q, r, rq)) (q, r, rq) in
  q' = q /\ length rq' = (f * f)%nat /\
  (forall k, (k < f)%nat -> zero_or_nan (rq' !!! (k * f + i)%nat) = true).
Proof.
  intros Hi Hlen Hz.
  match goal with
  | |- context [for_range _ _ ?b _] => set (body := b)
  end.
  enough (let s := for_range (i0 + 1) f body (q, r, rq) in
          fst (fst s) = q /\ length (snd s) = (f * f)%nat /\
          (forall k, (k < f)%nat -> zero_or_nan (snd s !!! (k * f + i)%nat) = true))
    as H by (destruct (for_range (i0 + 1) f body (q, r, rq)) as [[? ?] ?]; exact H).
  cbv zeta. apply for_range_inv; [auto|].
  intros j [[q1 r1] rq1] Hj (Hq & L & Hcol). cbn [fst snd] in *. subst q1.
  unfold body. cbn [fst snd].
  set (dp := column_dot f q rq1 i0 j).
  destruct (rq_column_loop f i0 j q rq1 dp) as (L' & Hout & Hin); [lia|exact L|].
  cbv zeta in L', Hout, Hin.
  split; [reflexivity|]. split; [exact L'|].
  intros k Hk. destruct (decide (i = j)) as [->|Hne].
  - rewrite Hin by exact Hk. apply sub_zero_or_nan; [apply Hcol, Hk|].
    apply mul_zero_or_nan_l. unfold dp, column_dot.
    apply (sum_zero_or_nan f (fun k => q !!! (k * f + i0)%nat * rq1 !!! (k * f + j)%nat)).
    intros k' Hk'. apply mul_zero_or_nan_r, Hcol, Hk'.
  - rewrite Hout by assumption. apply Hcol, Hk.
Qed.

(** Lines 213-236: a column of [rq] that holds zeros or NaNs gives a
    column of NaNs in [q]. *)
Lemma gram_schmidt_zero_column (f i : nat) (q r rq : list float) :
  (i < f)%nat -> length q = (f * f)%nat -> length rq = (f * f)%nat ->
  (forall k, (k < f)%nat -> zero_or_nan (rq !!! (k * f + i)%nat) = true) ->
  forall k, (k < f)%nat ->
    fst (fst (gram_schmidt f (q, r, rq))) !!! (k * f + i)%nat = nan.
Proof.
  intros Hi Hq Hrq Hz.
  unfold gram_schmidt.
  match goal with
  | |- context [for_loop f ?b (q, r, rq)] => set (body := b)
  end.
  enough (forall n, (n <= f)%nat ->
            let s := for_loop n body (q, r, rq) in
            length (fst (fst s)) = (f * f)%nat /\ length (snd s) = (f * f)%nat /\
            ((n <= i)%nat ->
               forall k, (k < f)%nat -> zero_or_nan (snd s !!! (k * f + i)%nat) = true) /\
            ((i < n)%nat ->
               forall k, (k < f)%nat -> fst (fst s) !!! (k * f + i)%nat = nan))
    as H by (apply (H f); lia).
  intros n Hn. cbv zeta. pattern n, (for_loop n body (q, r, rq)).
  apply for_loop_ind.
  - cbn [fst snd]. repeat split; auto. intros; lia.
  - intros i0 [[q1 r1] rq1] Hi0 (Lq & Lrq & Hbefore & Hafter). cbn [fst snd] in *.
    unfold body.
    set (rii := sqrt (column_norm f rq1 i0)).
    destruct (q_column_loop f i0 rq1 q1 rii) as (Lq' & Hqout & Hqin); [lia|exact Lq|].
    cbv zeta in Lq', Hqout, Hqin.
    set (q2 := for_loop f _ q1) in *.
    destruct (le_lt_dec i0 i) as [Hle|Hgt].
    + (* column [i] of [rq] still holds zeros or NaNs *)
      pose proof (projection_loop f i0 i q2 (<[(i0 * f + i0)%nat := rii]> r1) rq1
                    Hi Lrq (Hbefore Hle)) as Hp.
      destruct (for_range (i0 + 1) f _ _) as [[q3 r3] rq3].
      destruct Hp as (-> & Lrq3 & Hcol). cbn [fst snd].
      split; [exact Lq'|]. split; [exact Lrq3|]. split.
      * intros _. exact Hcol.
      * intros Hlt. assert (i0 = i) as -> by lia.
        intros k Hk. rewrite Hqin by exact Hk.
        apply div_zero_or_nan; [apply Hbefore; [lia|exact Hk]|].
        apply sqrt_zero_or_nan. unfold column_norm.
        apply (sum_zero_or_nan f
                 (fun k => rq1 !!! (k * f + i)%nat * rq1 !!! (k * f + i)%nat)).
        intros k' Hk'. apply mul_zero_or_nan_l, Hbefore; [lia|exact Hk'].
    + (* column [i] of [q] has been written and is left alone *)
      assert (Hq2 : forall k, (k < f)%nat -> q2 !!! (k * f + i)%nat = nan).
      { intros k Hk. rewrite Hqout by lia. apply Hafter; [lia|exact Hk]. }
      assert (Hp : let '(q', r', rq') := for_range (i0 + 1) f
                     (fun j '(q, r, rq) =>
                        let dp := column_dot f q rq i0 j in
                        let r := <[(i0 * f + j)%nat := dp]> r in
                        let rq :=
                          for_loop f (fun k rq =>
                            let x := rq !!! (k * f + j)%nat in
                            let y := q !!! (k * f + i0)%nat in
                            <[(k * f + j)%nat := x - dp * y]> rq) rq in
                        (q, r, rq)) (q2, <[(i0 * f + i0)%nat := rii]> r1, rq1) in
                   q' = q2 /\ length rq' = (f * f)%nat).
      { match goal with
        | |- context [for_range _ _ ?b ?s0] => set (inner := b); set (s0' := s0)
        end.
        enough (fst (fst (for_range (i0 + 1) f inner s0')) = q2 /\
                length (snd (for_range (i0 + 1) f inner s0')) = (f * f)%nat) as H
          by (destruct (for_range (i0 + 1) f inner s0') as [[? ?] ?]; exact H).
        apply (for_range_inv (fun s => fst (fst s) = q2 /\ length (snd s) = (f * f)%nat)).
        - split; [reflexivity|exact Lrq].
        - intros j [[qa ra] rqa] Hj [Ha La]. cbn [fst snd] in *. unfold inner.
          cbn [fst snd]. split; [exact Ha|].
          apply (rq_column_loop f i0 j qa rqa); [lia|exact La]. }
      destruct (for_range (i0 + 1) f _ _) as [[q3 r3] rq3].
      destruct Hp as (-> & Lrq3). cbn [fst snd].
      split; [exact Lq'|]. split; [exact Lrq3|]. split; [intros; lia|].
      intros _. exact Hq2.
Qed.

End ZeroColumn.

(** ** NaN in the eigenvectors *)

Section NanEigenvectors.
Context {T : Type} `{ST : Scalar T}.

Lemma sub_diagonal_length (f : nat) (x : float) (rq : list float) :
  length (sub_diagonal f x rq) = length rq.
Proof. apply length_for_loop. intros. apply length_insert. Qed.

Lemma add_diagonal_length (f : nat) (x : float) (rq : list float) :
  length (add_diagonal f x rq) = length rq.
Proof. apply length_for_loop. intros. apply length_insert. Qed.

Lemma recompose_length (f : nat) (r q rq : list float) :
  length (recompose f r q rq) = length rq.
Proof.
  apply length_for_loop. intros row v _. apply length_for_loop.
  intros. apply length_insert.
Qed.

Lemma clear_qr_length (f : nat) (q r : list float) :
  length (fst (clear_qr f (q, r))) = length q.
Proof.
  unfold clear_qr.
  apply (for_loop_inv (fun s : list float * list float => length (fst s) = length q));
    [reflexivity|].
  intros row s _ Hs.
  apply (for_loop_inv (fun s : list float * list float => length (fst s) = length q));
    [exact Hs|].
  intros col [q1 r1] _ H1. cbn [fst] in *. rewrite length_insert. exact H1.
Qed.

Lemma gram_schmidt_length (f : nat) (q r rq : list float) :
  length (fst (fst (gram_schmidt f (q, r, rq)))) = length q /\
  length (snd (gram_schmidt f (q, r, rq))) = length rq.
Proof.
  unfold gram_schmidt.
  apply (for_loop_inv (fun s : list float * list float * list float =>
           length (fst (fst s)) = length q /\ length (snd s) = length rq));
    [split; reflexivity|].
  intros i [[q1 r1] rq1] _ [Hq Hrq]. cbn [fst snd] in *.
  apply (for_range_inv (fun s : list float * list float * list float =>
           length (fst (fst s)) = length q /\ length (snd s) = length rq)).
  - cbn [fst snd]. split; [|exact Hrq].
    rewrite length_for_loop; [exact Hq|]. intros. apply length_insert.
  - intros j [[q2 r2] rq2] _ [Hq2 Hrq2]. cbn [fst snd] in *.
    split; [exact Hq2|].
    rewrite length_for_loop; [exact Hrq2|]. intros. apply length_insert.
Qed.

(** One pass, piece by piece. *)
Lemma qr_iteration_pieces (f off iters : nat) (s : qr_state T) :
  let shifted := sub_diagonal f (shift_value_at f (qr_rq s) iters) (qr_rq s) in
  let cleared := clear_qr f (qr_q s, qr_r s) in
  let gs := gram_schmidt f (fst cleared, snd cleared, shifted) in
  let s' := fst (qr_iteration f off iters s) in
  qr_q s' = fst (fst gs) /\
  qr_eigenvectors s' = update_eigenvectors f off (fst (fst gs)) (qr_eigenvectors s) /\
  length (qr_rq s') = length (snd gs).
Proof.
  cbv zeta. unfold qr_iteration.
  destruct (clear_qr f (qr_q s, qr_r s)) as [q0 r0]. cbn [fst snd].
  destruct (gram_schmidt f _) as [[q r] rq]. cbn [fst snd qr_q qr_eigenvectors qr_rq].
  split; [reflexivity|]. split; [reflexivity|].
  rewrite add_diagonal_length, recompose_length. reflexivity.
Qed.

Lemma qr_iteration_lengths (f off iters : nat) (s : qr_state T) :
  length (qr_q (fst (qr_iteration f off iters s))) = length (qr_q s) /\
  length (qr_rq (fst (qr_iteration f off iters s))) = length (qr_rq s).
Proof.
  destruct (qr_iteration_pieces f off iters s) as (Hq & _ & Hrq).
  cbv zeta in Hq, Hrq. rewrite Hq, Hrq.
  destruct (gram_schmidt_length f
              (fst (clear_qr f (qr_q s, qr_r s))) (snd (clear_qr f (qr_q s, qr_r s)))
              (sub_diagonal f (shift_value_at f (qr_rq s) iters) (qr_rq s)))
    as [H1 H2].
  rewrite H1, H2, clear_qr_length, sub_diagonal_length. split; reflexivity.
Qed.

Lemma qr_init_lengths (o : GoldenPCA T) (m : nat) :
  length (qr_q (qr_init o m)) = features o * features o /\
  length (qr_rq (qr_init o m)) = features o * features o.
Proof.
  unfold qr_init. cbn [qr_q qr_rq]. split; [apply length_replicate|].
  rewrite length_for_loop; [apply length_replicate|]. intros. apply length_insert.
Qed.

Lemma qr_iterate_lengths (f off k : nat) (s : qr_state T) :
  length (qr_q (qr_iterate f off k s)) = length (qr_q s) /\
  length (qr_rq (qr_iterate f off k s)) = length (qr_rq s).
Proof.
  induction k as [|k [IHq IHrq]]; [split; reflexivity|]. cbn [qr_iterate].
  destruct (qr_iteration_lengths f off k (qr_iterate f off k s)) as [Hq Hrq].
  split; congruence.
Qed.

(** The Q of a pass whose shifted working matrix has a column of zeros. *)
Lemma zero_column_gives_nan_q (f off j i : nat) (s : qr_state T) :
  i < f -> length (qr_q s) = f * f -> length (qr_rq s) = f * f ->
  (forall r, r < f ->
     zero_or_nan (shifted_in_pass f off j s !!! (r * f + i)) = true) ->
  forall r, r < f -> qr_q (qr_iterate f off (S j) s) !!! (r * f + i) = nan.
Proof.
  intros Hi Lq Lrq Hz r Hr. cbn [qr_iterate].
  destruct (qr_iteration_pieces f off j (qr_iterate f off j s)) as (Hq & _).
  cbv zeta in Hq. rewrite Hq.
  destruct (qr_iterate_lengths f off j s) as [Lq' Lrq'].
  apply gram_schmidt_zero_column; [exact Hi| | |exact Hz|exact Hr].
  - rewrite clear_qr_length. congruence.
  - rewrite sub_diagonal_length. congruence.
Qed.

(** A column of NaNs in Q becomes a column of NaNs in the accumulator. *)
Lemma nan_q_gives_nan_eigenvectors (f off i : nat) (q : list float) (ev : list T) :
  i < f -> off + f * f <= length ev ->
  (forall r, r < f -> q !!! (r * f + i) = nan) ->
  forall row, row < f ->
    update_eigenvectors f off q ev !!! (off + row * f + i) = of_double nan.
Proof.
  intros Hi Hlen Hq row Hrow.
  destruct (update_eigenvectors_spec f off q ev Hlen) as (_ & _ & Hin).
  cbv zeta in Hin. rewrite Hin by assumption. f_equal.
  unfold eigenvectors_entry.
  apply (sum_nan f (fun k => (to_double (ev !!! (off + row * f + k)%nat)
                              * q !!! (k * f + i)%nat)%float) i Hi).
  rewrite Hq by exact Hi. apply mul_nan_r.
Qed.

(** A column of NaNs in the accumulator stays. *)
Lemma nan_eigenvectors_stay (f off i : nat) (q : list float) (ev : list T) :
  to_double (of_double nan) = nan ->
  i < f -> off + f * f <= length ev ->
  (forall row, row < f -> to_double (ev !!! (off + row * f + i)) = nan) ->
  forall row, row < f ->
    to_double (update_eigenvectors f off q ev !!! (off + row * f + i)) = nan.
Proof.
  intros Hnan Hi Hlen Hev row Hrow.
  destruct (update_eigenvectors_spec f off q ev Hlen) as (_ & _ & Hin).
  cbv zeta in Hin. rewrite Hin by assumption.
  transitivity (to_double (of_double nan)); [|exact Hnan]. do 2 f_equal.
  unfold eigenvectors_entry.
  apply (sum_nan f (fun k => (to_double (ev !!! (off + row * f + k)%nat)
                              * q !!! (k * f + i)%nat)%float) i Hi).
  rewrite Hev by exact Hrow. apply mul_nan_l.
Qed.

Lemma nan_eigenvectors_after (f off i j : nat) (s : qr_state T) :
  to_double (of_double nan) = nan ->
  i < f -> off + f * f <= length (qr_eigenvectors s) ->
  length (qr_q s) = f * f -> length (qr_rq s) = f * f ->
  (forall r, r < f ->
     zero_or_nan (shifted_in_pass f off j s !!! (r * f + i)) = true) ->
  forall d row, row < f ->
    to_double (qr_eigenvectors (qr_iterate f off (S j + d) s)
                 !!! (off + row * f + i)) = nan.
Proof.
  intros Hnan Hi Hlen Lq Lrq Hz d. induction d as [|d IH]; intros row Hrow.
  - rewrite Nat.add_0_r.
    pose proof (zero_column_gives_nan_q f off j i s Hi Lq Lrq Hz) as Hq.
    cbn [qr_iterate] in Hq |- *.
    destruct (qr_iteration_pieces f off j (qr_iterate f off j s)) as (Eq & Eev & _).
    cbv zeta in Eq, Eev. rewrite Eev. rewrite Eq in Hq.
    rewrite nan_q_gives_nan_eigenvectors; try assumption.
    rewrite qr_iterate_length_eigenvectors. exact Hlen.
  - rewrite Nat.add_succ_r.
    change (qr_iterate f off (S (S j + d)) s)
      with (fst (qr_iteration f off (S j + d) (qr_iterate f off (S j + d) s))).
    destruct (qr_iteration_pieces f off (S j + d) (qr_iterate f off (S j + d) s))
      as (_ & Eev & _).
    cbv zeta in Eev. rewrite Eev.
    apply nan_eigenvectors_stay; try assumption.
    rewrite qr_iterate_length_eigenvectors. exact Hlen.
Qed.

Lemma solve_matrix_total (fuel m : nat) (o : GoldenPCA T) (out : cout T) :
  benchmark_mode o = false ->
  features o * features o * 16 + 1 <= fuel ->
  exists o' out', solve_matrix fuel m (o, out) = Some (o', out').
Proof.
  intros Hb Hfuel. unfold solve_matrix. rewrite Hb.
  destruct (qr_loop_total fuel (features o) (m * features o * features o) 0
              (qr_init o m)) as [[[k s] ab] Hr]; [lia|lia|].
  rewrite Hr. destruct (report o m _ k s) as [o' out']. eauto.
Qed.

(** What a solve that returns has put in the eigenvector block, for
    every pass it made on a shifted matrix with a column of zeros or
    NaNs. *)
Lemma solve_matrix_zero_column (fuel m i : nat) (o : GoldenPCA T) (out : cout T)
    (o' : GoldenPCA T) (out' : cout T) :
  to_double (of_double nan) = nan ->
  solve_matrix fuel m (o, out) = Some (o', out') ->
  m * features o * features o + features o * features o
    <= length (eigenvectors o) ->
  i < features o ->
  let f := features o in
  let off := m * f * f in
  exists k,
    1 <= k /\ iterations o' = <[m := of_int (Z.of_nat k)]> (iterations o) /\
    forall j, j < k ->
      (forall r, r < f ->
         zero_or_nan (shifted_in_pass f off j (qr_init o m) !!! (r * f + i)) = true) ->
      (forall r, r < f ->
         qr_q (qr_iterate f off (S j) (qr_init o m)) !!! (r * f + i) = nan) /\
      (forall row, row < f ->
         to_double (eigenvectors o' !!! (off + row * f + i)) = nan).
Proof.
  intros Hnan Hsolve Hvecs Hi f off.
  apply solve_matrix_Some in Hsolve as (k & s & ab & out1 & Hloop & Hw).
  fold f off in Hloop.
  pose proof (qr_loop_counter _ _ _ _ _ _ _ _ _ Hloop) as [Hk _].
  apply (qr_loop_iterate fuel f off _ 0 (qr_init o m)) in Hloop as (Hs & _).
  apply (f_equal fst) in Hw. rewrite report_fst in Hw. cbn [fst] in Hw. subst o'.
  cbn [iterations eigenvectors set_eigen].
  exists k. split; [lia|]. split; [reflexivity|].
  intros j Hj Hz.
  destruct (qr_init_lengths o m) as [Lq Lrq]. fold f in Lq, Lrq.
  split.
  - apply zero_column_gives_nan_q; assumption.
  - intros row Hrow. rewrite Hs.
    replace k with (S j + (k - S j)) by lia.
    apply nan_eigenvectors_after; try assumption.
    rewrite qr_init_length_eigenvectors. exact Hvecs.
Qed.

(** *** One solve and the rest of the batch *)

(** [update_eigenvectors] writes the block at [offset] only. *)
Lemma update_eigenvectors_frame (f off : nat) (q : list float) (ev : list T) :
  same_outside (fun i => off <= i < off + f * f) ev
    (update_eigenvectors f off q ev).
Proof.
  unfold update_eigenvectors. apply same_outside_for_loop. intros row v Hrow.
  apply same_outside_for_loop. intros col w Hcol. apply same_outside_insert.
  pose proof (row_major_lt f f row col Hrow Hcol). lia.
Qed.

Lemma qr_init_eigenvectors_frame (o : GoldenPCA T) (m : nat) :
  let f := features o in
  same_outside (fun i => m * f * f <= i < m * f * f + f * f) (eigenvectors o)
    (qr_eigenvectors (qr_init o m)).
Proof.
  cbv zeta. unfold qr_init. cbn [qr_eigenvectors].
  apply same_outside_for_loop. intros row v Hrow.
  apply same_outside_for_loop. intros col w Hcol. apply same_outside_insert.
  pose proof (row_major_lt _ _ row col Hrow Hcol). lia.
Qed.

Lemma qr_iterate_eigenvectors_frame (f off k : nat) (s : qr_state T) :
  same_outside (fun i => off <= i < off + f * f) (qr_eigenvectors s)
    (qr_eigenvectors (qr_iterate f off k s)).
Proof.
  induction k as [|k IH]; [apply same_outside_refl|].
  eapply same_outside_trans; [exact IH|]. cbn [qr_iterate].
  destruct (qr_iteration_pieces f off k (qr_iterate f off k s)) as (_ & -> & _).
  apply update_eigenvectors_frame.
Qed.

(** A solve writes the eigenvectors of its own block only. *)
Lemma solve_matrix_frame (fuel m : nat) (o : GoldenPCA T) (out : cout T)
    (o' : GoldenPCA T) (out' : cout T) :
  solve_matrix fuel m (o, out) = Some (o', out') ->
  let f := features o in
  same_outside (fun i => m * f * f <= i < m * f * f + f * f)
    (eigenvectors o) (eigenvectors o').
Proof.
  intros Hsolve f.
  apply solve_matrix_Some in Hsolve as (k & s & ab & out1 & Hloop & Hw).
  apply (qr_loop_iterate fuel _ _ _ 0 (qr_init o m)) in Hloop as (Hs & _).
  apply (f_equal fst) in Hw. rewrite report_fst in Hw. cbn [fst] in Hw. subst o'.
  cbn [eigenvectors set_eigen]. subst s.
  eapply same_outside_trans; [apply qr_init_eigenvectors_frame|].
  apply qr_iterate_eigenvectors_frame.
Qed.

(** The eigenvector block that the solve of a batch reports for entry
    [m] is the one the solve of that entry produced, from an object
    with the covariance matrices of the beginning. *)
Lemma ComputeEigenValuesAndVectors_block (fuel : nat) (o : GoldenPCA T)
    (out : cout T) (o' : GoldenPCA T) (out' : cout T) (m : nat) :
  ComputeEigenValuesAndVectors fuel (o, out) = Some (o', out') ->
  m < matrix_count o ->
  let f := features o in
  exists o1 out1 o2 out2,
    solve_matrix fuel m (o1, out1) = Some (o2, out2) /\
    features o1 = f /\ covariance_matrix o1 = covariance_matrix o /\
    length (eigenvectors o1) = length (eigenvectors o) /\
    forall row col, row < f -> col < f ->
      eigenvectors o' !!! (m * f * f + row * f + col) =
      eigenvectors o2 !!! (m * f * f + row * f + col).
Proof.
  intros Hrun Hm f. unfold ComputeEigenValuesAndVectors in Hrun. cbn [fst] in Hrun.
  set (step := fun (matrix_index : nat) (ow : option (GoldenPCA T * cout T)) =>
                 match ow with
                 | Some w => solve_matrix fuel matrix_index w
                 | None => None
                 end) in *.
  enough (forall n, n <= matrix_count o ->
            forall o' out', for_loop n step (Some (o, out)) = Some (o', out') ->
            features o' = f /\ covariance_matrix o' = covariance_matrix o /\
            length (eigenvectors o') = length (eigenvectors o) /\
            (m < n ->
             exists o1 out1 o2 out2,
               solve_matrix fuel m (o1, out1) = Some (o2, out2) /\
               features o1 = f /\ covariance_matrix o1 = covariance_matrix o /\
               length (eigenvectors o1) = length (eigenvectors o) /\
               forall row col, row < f -> col < f ->
                 eigenvectors o' !!! (m * f * f + row * f + col) =
                 eigenvectors o2 !!! (m * f * f + row * f + col))) as H.
  { eapply H; [|exact Hrun|exact Hm]. lia. }
  clear o' out' Hrun. intros n Hn.
  pattern n, (for_loop n step (Some (o, out))). apply for_loop_ind.
  - intros o' out' [= <- <-]. repeat split. intros; lia.
  - intros m' [[o1 out1]|] Hm' IH o2 out2 Hstep; [|discriminate].
    destruct (IH o1 out1 eq_refl) as (Hf & Hc & Hl & Hblock).
    cbn [step] in Hstep.
    pose proof (solve_matrix_fields _ _ _ _ _ _ Hstep)
      as (_ & Hf' & _ & _ & _ & _ & Hc' & _).
    pose proof (solve_matrix_frame _ _ _ _ _ _ Hstep) as [Hl' Hframe].
    rewrite Hf in Hframe.
    split; [congruence|]. split; [congruence|]. split; [congruence|].
    intros Hlt. destruct (decide (m = m')) as [->|Hne].
    + exists o1, out1, o2, out2. repeat split; assumption.
    + destruct Hblock as (oa & outa & ob & outb & Hs & Hfa & Hca & Hla & Heq); [lia|].
      exists oa, outa, ob, outb. repeat split; try assumption.
      intros row col Hrow Hcol. rewrite Hframe; [apply Heq; assumption|].
      pose proof (row_major_lt f f row col Hrow Hcol).
      assert (m < m') by lia. nia.
Qed.

(** The working matrix of the first pass is the covariance matrix: a
    column of zeros there is a column of zeros in what is decomposed. *)
Lemma first_pass_zero_column (o : GoldenPCA T) (m i : nat) :
  let f := features o in
  i < f ->
  (forall r, r < f ->
     is_zero (to_double (covariance_matrix o !!! (m * f * f + r * f + i))) = true) ->
  forall r, r < f ->
    zero_or_nan (shifted_in_pass f (m * f * f) 0 (qr_init o m) !!! (r * f + i)) = true.
Proof.
  intros f Hi Hz r Hr. unfold shifted_in_pass. cbn [qr_iterate].
  change (shift_value_at f (qr_rq (qr_init o m)) 0) with 0%float.
  assert (Hrq : forall k, k < f * f ->
            qr_rq (qr_init o m) !!! k =
            to_double (covariance_matrix o !!! (m * f * f + k))).
  { unfold qr_init. cbn [qr_rq]. fold f.
    destruct (for_loop_update (f * f) (fun k => k)
                (fun k _ => to_double (covariance_matrix o !!! (m * f * f + k)))
                (replicate (f * f) 0%float)) as (_ & _ & Hin).
    - intros; assumption.
    - intros k Hk. rewrite length_replicate. exact Hk.
    - exact Hin. }
  unfold sub_diagonal.
  destruct (for_loop_update f (fun row => row + f * row)
              (fun _ x => (x - 0)%float) (qr_rq (qr_init o m))) as (_ & Hout & Hin).
  { intros k k' _ _ E. nia. }
  { intros k Hk. destruct (qr_init_lengths o m) as [_ ->]. fold f. nia. }
  cbv zeta in Hout, Hin.
  pose proof (row_major_lt f f r i Hr Hi) as Hlt.
  assert (Hcov : zero_or_nan (qr_rq (qr_init o m) !!! (r * f + i)) = true).
  { rewrite Hrq by exact Hlt. apply zero_or_nan_is_zero.
    rewrite Nat.add_assoc. apply Hz, Hr. }
  destruct (decide (r = i)) as [->|Hne].
  - replace (i * f + i) with (i + f * i) in * by lia.
    rewrite Hin by exact Hi.
    apply sub_zero_or_nan; [exact Hcov|reflexivity].
  - rewrite Hout; [exact Hcov|].
    intros k Hk E. apply Hne.
    assert (k + f * k = 0 + k * f + k) as E' by lia. rewrite E' in E.
    change (r * f + i) with (0 + r * f + i) in E.
    apply row_major_inj in E; lia.
Qed.

End NanEigenvectors.

(** C10: the Gram-Schmidt step divides by the norm of each column with
    no guard.  For the solve of one batch entry: every pass it makes on
    a shifted working matrix with a column of zeros leaves NaN in that
    column of its Q, and NaN in that column of the eigenvector block
    the solve reports when it returns, which outside benchmark mode it
    does.  For the solve of a batch: a column of zeros in a covariance
    matrix (the shifted matrix of the first pass) gives NaN in that
    column of the eigenvectors reported for that entry.  [T] is taken to
    keep a NaN through its conversions, as [float] and [double] do. *)
Theorem C10_zero_column_gives_nan_eigenvectors
    {T : Type} `{ST : Scalar T} (o : GoldenPCA T) (out : cout T)
    (fuel m i : nat) :
  to_double (of_double nan) = nan ->
  well_sized o -> m < matrix_count o -> i < features o ->
  let f := features o in
  let off := m * f * f in
  (benchmark_mode o = false -> f * f * 16 + 1 <= fuel ->
   exists o' out', solve_matrix fuel m (o, out) = Some (o', out')) /\
  (forall o' out',
     solve_matrix fuel m (o, out) = Some (o', out') ->
     exists k,
       1 <= k /\ iterations o' !! m = Some (of_int (Z.of_nat k)) /\
       forall j, j < k ->
         (forall r, r < f ->
            is_zero (shifted_in_pass f off j (qr_init o m) !!! (r * f + i)) = true) ->
         (forall r, r < f ->
            qr_q (qr_iterate f off (S j) (qr_init o m)) !!! (r * f + i) = nan) /\
         (forall row, row < f ->
            to_double (eigenvectors o' !!! (off + row * f + i)) = nan)) /\
  ((forall r, r < f ->
      is_zero (to_double (covariance_matrix o !!! (off + r * f + i))) = true) ->
   forall o' out',
     ComputeEigenValuesAndVectors fuel (o, out) = Some (o', out') ->
     forall row, row < f ->
       to_double (eigenvectors o' !!! (off + row * f + i)) = nan).
Proof.
  intros Hnan (_ & _ & _ & Hvecs & Hits) Hm Hi f off.
  assert (Hblock : m * f * f + f * f <= f * f * matrix_count o).
  { pose proof (row_major_lt (matrix_count o) (f * f) m 0 Hm). nia. }
  split; [apply solve_matrix_total|]. split.
  - intros o' out' Hsolve.
    destruct (solve_matrix_zero_column fuel m i o out o' out' Hnan Hsolve)
      as (k & Hk & Hit & H); [rewrite Hvecs; exact Hblock|exact Hi|].
    exists k. split; [exact Hk|]. split.
    { rewrite Hit, list_lookup_insert_eq by lia. reflexivity. }
    intros j Hj Hz. apply (H j Hj).
    intros r Hr. apply zero_or_nan_is_zero, Hz, Hr.
  - intros Hz o' out' Hrun row Hrow.
    destruct (ComputeEigenValuesAndVectors_block fuel o out o' out' m Hrun Hm)
      as (o1 & out1 & o2 & out2 & Hsolve & Hf & Hc & Hl & Heq).
    fold f in Hf, Heq. subst off. rewrite Heq by assumption.
    destruct (solve_matrix_zero_column fuel m i o1 out1 o2 out2 Hnan Hsolve)
      as (k & Hk & _ & H); [rewrite Hf, Hl, Hvecs; exact Hblock|rewrite Hf; exact Hi|].
    rewrite Hf in H. apply (H 0 Hk); [|exact Hrow].
    rewrite <- Hf. apply first_pass_zero_column; rewrite Hf, ?Hc; assumption.
Qed.

Lemma C10_zero_column_gives_nan_eigenvectors_witness :
  exists o' out',
    solve_matrix 65 0 (zero_batch false, []) = Some (o', out') /\
    (forall r, r < 2 ->
       qr_q (qr_iterate 2 0 1 (qr_init (zero_batch false) 0)) !!! (r * 2 + 0) = nan) /\
    (forall row, row < 2 -> eigenvectors o' !!! (0 + row * 2 + 0) = nan).
Proof.
  assert (Hsz : well_sized (zero_batch false)) by (repeat split; reflexivity).
  destruct (C10_zero_column_gives_nan_eigenvectors (ST := double_scalar)
              (zero_batch false) [] 65 0 0
              (eq_refl nan) Hsz (Nat.lt_0_succ 0) (Nat.lt_0_succ 1))
    as (Htotal & H & _).
  destruct (Htotal eq_refl (Nat.le_refl 65)) as (o' & out' & Hsolve).
  destruct (H o' out' Hsolve) as (k & Hk & _ & Hnan).
  exists o', out'. split; [exact Hsolve|].
  apply (Hnan 0 Hk). intros r Hr.
  destruct r as [|[|r]]; [reflexivity|reflexivity|].
  change (S (S r) < 2) in Hr. lia.
Defined.

(** * Further properties *)

(** ** Indices of a batch *)

(** Every index of a vector of [count] blocks of [p x p] entries is the
    row-major index of one entry of one block. *)
Lemma block_index (p count i : nat) :
  i < p * p * count ->
  exists m row col,
    m < count /\ row < p /\ col < p /\ i = m * p * p + row * p + col.
Proof.
  intros Hi. assert (Hp : 0 < p) by nia.
  exists (i / (p * p)), ((i mod (p * p)) / p), ((i mod (p * p)) mod p).
  pose proof (Nat.div_mod_eq i (p * p)) as E1.
  pose proof (Nat.div_mod_eq (i mod (p * p)) p) as E2.
  pose proof (Nat.mod_upper_bound i (p * p) ltac:(nia)) as B1.
  pose proof (Nat.mod_upper_bound (i mod (p * p)) p ltac:(lia)) as B2.
  split; [apply Nat.Div0.div_lt_upper_bound; lia|].
  split; [apply Nat.Div0.div_lt_upper_bound; lia|].
  split; [exact B2|]. nia.
Qed.

(** Two vectors of that size that agree on every entry of every block
    are equal. *)
Lemma blocks_ext {A : Type} `{!Inhabited A} (p count : nat) (v w : list A) :
  length v = p * p * count -> length w = p * p * count ->
  (forall m row col, m < count -> row < p -> col < p ->
     v !!! (m * p * p + row * p + col) = w !!! (m * p * p + row * p + col)) ->
  v = w.
Proof.
  intros Lv Lw H. apply (list_eq_same_length _ _ (p * p * count)); [exact Lw|exact Lv|].
  intros i x y Hi Hx Hy.
  destruct (block_index p count i Hi) as (m & row & col & Hm & Hrow & Hcol & ->).
  apply list_lookup_total_correct in Hx, Hy. rewrite <- Hx, <- Hy.
  apply H; assumption.
Qed.

(** ** The constructor, once more *)


(** ** The covariance step, once more *)

Section CovarianceMore.
Context {T : Type} `{ST : Scalar T}.

Lemma set_covariance_matrix_twice (o : GoldenPCA T) (v w : list T) :
  set_covariance_matrix (set_covariance_matrix o v) w = set_covariance_matrix o w.
Proof. reflexivity. Qed.

(** [ComputeCovarianceMatrix] writes the covariance vector only. *)
Lemma ComputeCovarianceMatrix_frame (o : GoldenPCA T) (out : cout T) :
  let o' := fst (ComputeCovarianceMatrix (o, out)) in
  o' = set_covariance_matrix o (covariance_matrix o') /\
  length (covariance_matrix o') = length (covariance_matrix o).
Proof.
  cbv zeta. unfold ComputeCovarianceMatrix. cbn [fst].
  apply (for_loop_inv (fun w : GoldenPCA T * cout T =>
           fst w = set_covariance_matrix o (covariance_matrix (fst w)) /\
           length (covariance_matrix (fst w)) = length (covariance_matrix o))).
  - cbn [fst]. destruct o. split; reflexivity.
  - intros m [o1 out1] _ [E L]. cbn [fst] in *.
    rewrite ComputeCovarianceIthMatrix_fst.
    set (c := for_loop (features o1) _ (covariance_matrix o1)).
    assert (Lc : length c = length (covariance_matrix o1)).
    { apply length_for_loop. intros row v _. apply length_for_loop.
      intros col w _. apply length_insert. }
    cbn [covariance_matrix set_covariance_matrix]. split; [|congruence].
    rewrite E at 1. reflexivity.
Qed.

Lemma ComputeCovarianceMatrix_well_sized (o : GoldenPCA T) (out : cout T) :
  well_sized o -> well_sized (fst (ComputeCovarianceMatrix (o, out))).
Proof.
  intros (Ha & Hc & Hv & He & Hi).
  destruct (ComputeCovarianceMatrix_frame o out) as [E L]. cbv zeta in E, L.
  rewrite E. unfold well_sized. cbn. rewrite L. auto.
Qed.

End CovarianceMore.

(** X2: [ComputeCovarianceMatrix] changes nothing of the object but the
    covariance vector, whose size it keeps: the samples, the eigen
    outputs, the dimensions and the flags are as before, and a
    well-sized object stays well sized. *)
Theorem ComputeCovarianceMatrix_changes_covariance_only
    {T : Type} `{ST : Scalar T} (o : GoldenPCA T) (out : cout T) :
  let o' := fst (ComputeCovarianceMatrix (o, out)) in
  (samples o' = samples o /\ features o' = features o /\
   matrix_count o' = matrix_count o /\ debug o' = debug o /\
   benchmark_mode o' = benchmark_mode o) /\
  (a_matrix o' = a_matrix o /\ eigenvalues o' = eigenvalues o /\
   eigenvectors o' = eigenvectors o /\ iterations o' = iterations o) /\
  length (covariance_matrix o') = length (covariance_matrix o) /\
  (well_sized o -> well_sized o').
Proof.
  cbv zeta. destruct (ComputeCovarianceMatrix_frame o out) as [E L].
  cbv zeta in E, L. split; [|split; [|split]].
  - rewrite E. cbn. auto.
  - rewrite E. cbn. auto.
  - exact L.
  - apply ComputeCovarianceMatrix_well_sized.
Qed.

(** X3: run again on its own result, [ComputeCovarianceMatrix] leaves
    the object as it is: the covariance matrices depend on the samples
    only. *)
Theorem ComputeCovarianceMatrix_idempotent
    {T : Type} `{ST : Scalar T} (o : GoldenPCA T) (out out' : cout T) :
  well_sized o ->
  fst (ComputeCovarianceMatrix (fst (ComputeCovarianceMatrix (o, out)), out')) =
  fst (ComputeCovarianceMatrix (o, out)).
Proof.
  intros Hsz. pose proof (ComputeCovarianceMatrix_well_sized o out Hsz) as Hsz1.
  destruct Hsz as (_ & Hc & _). destruct Hsz1 as (_ & Hc1 & _).
  destruct (ComputeCovarianceMatrix_frame o out) as [E1 _]. cbv zeta in E1.
  destruct (ComputeCovarianceMatrix_spec o out Hc) as (_ & _ & L1 & H1).
  cbv zeta in L1, H1.
  set (o1 := fst (ComputeCovarianceMatrix (o, out))) in *.
  destruct (ComputeCovarianceMatrix_frame o1 out') as [E2 _]. cbv zeta in E2.
  destruct (ComputeCovarianceMatrix_spec o1 out' Hc1) as (_ & _ & L2 & H2).
  cbv zeta in L2, H2.
  set (o2 := fst (ComputeCovarianceMatrix (o1, out'))) in *.
  assert (Hfields : samples o1 = samples o /\ features o1 = features o /\
                    matrix_count o1 = matrix_count o /\ a_matrix o1 = a_matrix o)
    by (rewrite E1; cbn; auto).
  destruct Hfields as (Es & Ef & Em & Ea).
  assert (Hcov : covariance_matrix o2 = covariance_matrix o1).
  { apply (blocks_ext (features o) (matrix_count o)).
    - rewrite L2, L1. exact Hc.
    - rewrite L1. exact Hc.
    - intros m row col Hm Hrow Hcol.
      rewrite H1 by assumption. rewrite <- Ef.
      rewrite H2 by (rewrite ?Ef, ?Em; assumption).
      unfold sample_entry. rewrite Es, Ef, Ea. reflexivity. }
  rewrite E2, Hcov, E1. reflexivity.
Qed.

Lemma ComputeCovarianceMatrix_idempotent_witness :
  fst (ComputeCovarianceMatrix
         (fst (ComputeCovarianceMatrix
                 (GoldenPCA_new 2 2 1 false false [[1; 2]; [3; 4]]%float, [])),
          [])) =
  fst (ComputeCovarianceMatrix
         (GoldenPCA_new 2 2 1 false false [[1; 2]; [3; 4]]%float, [])).
Proof.
  assert (Hsz : well_sized (GoldenPCA_new 2 2 1 false false [[1; 2]; [3; 4]]%float))
    by (repeat split; reflexivity).
  exact (ComputeCovarianceMatrix_idempotent _ [] [] Hsz).
Defined.

(** ** What is printed *)

Section Printing.
Context {T : Type} `{ST : Scalar T}.

Lemma ComputeCovarianceIthMatrix_quiet (m : nat) (o : GoldenPCA T) (out : cout T) :
  debug o = false -> snd (ComputeCovarianceIthMatrix m (o, out)) = out.
Proof.
  intros Hd. unfold ComputeCovarianceIthMatrix.
  destruct (debug o); [discriminate|].
  match goal with
  | |- context [@for_loop ?S (features o) ?b ?s0] =>
      set (body := b); set (X := @for_loop S (features o) body s0)
  end.
  assert (H : snd X = out).
  { apply (for_loop_inv (fun s : list T * cout T => snd s = out)); [reflexivity|].
    intros row [cov x] _ Hx. cbn [snd] in Hx. subst x. unfold body.
    cbv beta iota.
    match goal with
    | |- context [@for_loop ?S (features o) ?b ?s0] =>
        set (Y := @for_loop S (features o) b s0)
    end.
    assert (Hi : snd Y = out).
    { apply (for_loop_inv (fun s : list T * cout T => snd s = out)); [reflexivity|].
      intros col [cov' x] _ Hx. exact Hx. }
    clearbody Y. destruct Y. exact Hi. }
  clearbody X. destruct X. exact H.
Qed.

Lemma report_quiet (o : GoldenPCA T) (m : nat) (out : cout T) (iters : nat)
    (s : qr_state T) :
  debug o = false -> snd (report o m out iters s) = out.
Proof.
  intros Hd. unfold report. destruct (debug o); [discriminate|].
  match goal with
  | |- context [@for_loop ?S (features o) ?b ?s0] =>
      set (X := @for_loop S (features o) b s0)
  end.
  assert (H : snd X = out).
  { apply (for_loop_inv (fun s : list T * cout T => snd s = out)); [reflexivity|].
    intros k [vals x] _ Hx. exact Hx. }
  clearbody X. destruct X. exact H.
Qed.

End Printing.

(** X4: with the debug flag off, [ComputeCovarianceMatrix] prints
    nothing. *)
Theorem ComputeCovarianceMatrix_prints_nothing_without_debug
    {T : Type} `{ST : Scalar T} (o : GoldenPCA T) (out : cout T) :
  debug o = false -> snd (ComputeCovarianceMatrix (o, out)) = out.
Proof.
  intros Hd. unfold ComputeCovarianceMatrix. cbn [fst].
  enough (debug (fst (for_loop (matrix_count o) ComputeCovarianceIthMatrix (o, out)))
          = false /\
          snd (for_loop (matrix_count o) ComputeCovarianceIthMatrix (o, out)) = out)
    as [_ H] by exact H.
  apply (for_loop_inv (fun w : GoldenPCA T * cout T =>
           debug (fst w) = false /\ snd w = out)); [auto|].
  intros m [o1 out1] _ [Hd1 Ho1]. cbn [fst snd] in *. subst out1. split.
  - rewrite ComputeCovarianceIthMatrix_fst. exact Hd1.
  - apply ComputeCovarianceIthMatrix_quiet, Hd1.
Qed.

Lemma ComputeCovarianceMatrix_prints_nothing_without_debug_witness :
  snd (ComputeCovarianceMatrix
         (GoldenPCA_new 2 2 1 false false [[1; 2]; [3; 4]]%float, [OEndl]))
  = [OEndl].
Proof.
  exact (ComputeCovarianceMatrix_prints_nothing_without_debug
           (GoldenPCA_new 2 2 1 false false [[1; 2]; [3; 4]]%float) [OEndl]
           eq_refl).
Defined.

(** X5: with the debug flag off, the solve of a batch entry prints
    nothing but the message of its [break]: that message is printed,
    whatever the flag, exactly when the recorded count has passed
    [features * features * 16] outside benchmark mode. *)
Theorem solve_matrix_prints_only_the_break_message
    {T : Type} `{ST : Scalar T} (o : GoldenPCA T) (out : cout T)
    (fuel m : nat) (o' : GoldenPCA T) (out' : cout T) :
  debug o = false ->
  solve_matrix fuel m (o, out) = Some (o', out') ->
  exists k,
    iterations o' = <[m := of_int (Z.of_nat k)]> (iterations o) /\
    out' =
      if (features o * features o * 16 <? k) && negb (benchmark_mode o)
      then out ++ [OStr "Number of iterations too high"; OEndl]
      else out.
Proof.
  intros Hd Hsolve. unfold solve_matrix in Hsolve.
  destruct (qr_loop fuel _ _ _ 0 (qr_init o m)) as [[[k s] ab]|] eqn:Hloop;
    [|discriminate].
  apply (qr_loop_iterate fuel _ _ _ 0 (qr_init o m)) in Hloop as (_ & Hab & _).
  injection Hsolve as Hrep. exists k.
  pose proof (f_equal fst Hrep) as Ho. pose proof (f_equal snd Hrep) as Hout.
  cbn [fst snd] in Ho, Hout. rewrite report_fst in Ho.
  rewrite report_quiet in Hout by exact Hd.
  split; [rewrite <- Ho; reflexivity|].
  rewrite <- Hout, <- Hab. destruct (debug o); [discriminate|]. reflexivity.
Qed.

Lemma solve_matrix_prints_only_the_break_message_witness :
  exists k,
    [65%float] = <[0 := of_int (Z.of_nat k)]> [0%float] /\
    [OStr "Number of iterations too high"; OEndl] =
      if (2 * 2 * 16 <? k) && negb false
      then [] ++ [@OStr float "Number of iterations too high"; OEndl]
      else [].
Proof.
  assert (E : solve_matrix 65 0 (zero_batch false, []) =
              Some (mkGoldenPCA 1 2 1 false false [0; 0] [0; 0; 0; 0] [nan; nan]
                      [nan; nan; nan; nan] [65],
                    [OStr "Number of iterations too high"; OEndl])%float)
    by (vm_compute; reflexivity).
  exact (solve_matrix_prints_only_the_break_message (zero_batch false) []
           65 0 _ _ eq_refl E).
Defined.

(** ** What the solver leaves alone *)

Section SolverFrame.
Context {T : Type} `{ST : Scalar T}.

Lemma solve_matrix_lengths (fuel m : nat) (o : GoldenPCA T) (out : cout T)
    (o' : GoldenPCA T) (out' : cout T) :
  solve_matrix fuel m (o, out) = Some (o', out') ->
  length (eigenvalues o') = length (eigenvalues o) /\
  length (eigenvectors o') = length (eigenvectors o) /\
  length (iterations o') = length (iterations o).
Proof.
  intros Hsolve.
  pose proof (solve_matrix_frame _ _ _ _ _ _ Hsolve) as [Lv _].
  apply solve_matrix_Some in Hsolve as (k & s & ab & out1 & _ & Hw).
  apply (f_equal fst) in Hw. rewrite report_fst in Hw. cbn [fst] in Hw.
  split; [|split; [exact Lv|]]; rewrite Hw; cbn.
  - apply length_for_loop. intros. apply length_insert.
  - apply length_insert.
Qed.

End SolverFrame.

(** The fields and sizes a solve of the batch keeps. *)
Lemma ComputeEigenValuesAndVectors_keeps
    {T : Type} `{ST : Scalar T} (o : GoldenPCA T) (out : cout T) (fuel : nat)
    (o' : GoldenPCA T) (out' : cout T) :
  ComputeEigenValuesAndVectors fuel (o, out) = Some (o', out') ->
  (samples o' = samples o /\ features o' = features o /\
   matrix_count o' = matrix_count o /\ debug o' = debug o /\
   benchmark_mode o' = benchmark_mode o) /\
  (a_matrix o' = a_matrix o /\ covariance_matrix o' = covariance_matrix o) /\
  (length (eigenvalues o') = length (eigenvalues o) /\
   length (eigenvectors o') = length (eigenvectors o) /\
   length (iterations o') = length (iterations o)).
Proof.
  unfold ComputeEigenValuesAndVectors. cbn [fst]. revert o' out'.
  apply (for_loop_inv (fun ow => forall o' out', ow = Some (o', out') -> _)).
  - intros o1 out1 [= <- <-]. repeat split.
  - intros m [[o1 out1]|] _ IH o2 out2 Hstep; [|discriminate].
    destruct (IH o1 out1 eq_refl)
      as ((E1 & E2 & E3 & E4 & E5) & (E6 & E7) & (L1 & L2 & L3)).
    pose proof (solve_matrix_fields _ _ _ _ _ _ Hstep)
      as (F1 & F2 & F3 & F4 & F5 & F6 & F7 & _).
    pose proof (solve_matrix_lengths _ _ _ _ _ _ Hstep) as (M1 & M2 & M3).
    repeat split; congruence.
Qed.

(** X6: a solve of the batch that returns has changed the eigenvalues,
    the eigenvectors and the iteration counts only: the samples, the
    covariance matrices (the loop works on a copy), the dimensions and
    the flags are as before, no vector has changed its size, and a
    well-sized object stays well sized. *)
Theorem ComputeEigenValuesAndVectors_changes_eigen_outputs_only
    {T : Type} `{ST : Scalar T} (o : GoldenPCA T) (out : cout T) (fuel : nat)
    (o' : GoldenPCA T) (out' : cout T) :
  ComputeEigenValuesAndVectors fuel (o, out) = Some (o', out') ->
  (samples o' = samples o /\ features o' = features o /\
   matrix_count o' = matrix_count o /\ debug o' = debug o /\
   benchmark_mode o' = benchmark_mode o) /\
  (a_matrix o' = a_matrix o /\ covariance_matrix o' = covariance_matrix o) /\
  (length (eigenvalues o') = length (eigenvalues o) /\
   length (eigenvectors o') = length (eigenvectors o) /\
   length (iterations o') = length (iterations o)) /\
  (well_sized o -> well_sized o').
Proof.
  intros Hrun.
  destruct (ComputeEigenValuesAndVectors_keeps o out fuel o' out' Hrun)
    as ((E1 & E2 & E3 & E4 & E5) & (E6 & E7) & (L1 & L2 & L3)).
  split; [auto|]. split; [auto|]. split; [auto|].
  intros (Ha & Hc & Hv & He & Hi). unfold well_sized.
  rewrite E1, E2, E3, E6, E7, L1, L2, L3. auto.
Qed.

Lemma ComputeEigenValuesAndVectors_changes_eigen_outputs_only_witness :
  covariance_matrix
    (mkGoldenPCA 2 2 1 false false [2; 0; 0; 1] [4; 0; 0; 1] [4; 1]
       [1; 0; 0; 1] [1])%float
  = covariance_matrix (diagonal_batch false).
Proof.
  exact (proj2 (proj1 (proj2
    (ComputeEigenValuesAndVectors_changes_eigen_outputs_only
       (diagonal_batch false) [] 65
       (mkGoldenPCA 2 2 1 false false [2; 0; 0; 1] [4; 0; 0; 1] [4; 1]
          [1; 0; 0; 1] [1])%float [] eq_refl)))).
Defined.

(** ** One feature *)

Lemma all_below_threshold_small (f : nat) (rq : list float) :
  f <= 1 -> all_below_threshold f rq = true.
Proof.
  intros Hf. unfold all_below_threshold, for_range.
  replace (f - 1) with 0 by lia. reflexivity.
Qed.

Lemma qr_iteration_converged {T : Type} `{ST : Scalar T} (f off iters : nat)
    (s : qr_state T) :
  snd (qr_iteration f off iters s) =
  all_below_threshold f (qr_rq (fst (qr_iteration f off iters s))).
Proof.
  unfold qr_iteration.
  destruct (clear_qr f (qr_q s, qr_r s)) as [q0 r0].
  destruct (gram_schmidt f _) as [[q r] rq]. reflexivity.
Qed.

(** X7: with at most one feature there is nothing below the diagonal:
    the solve of a batch entry returns after exactly one pass, in
    benchmark mode too, and records the count 1. *)
Theorem solve_matrix_one_feature_one_pass
    {T : Type} `{ST : Scalar T} (o : GoldenPCA T) (out : cout T)
    (fuel m : nat) :
  features o <= 1 -> 1 <= fuel ->
  exists o' out',
    solve_matrix fuel m (o, out) = Some (o', out') /\
    iterations o' = <[m := of_int 1]> (iterations o) /\
    eigenvectors o' =
      qr_eigenvectors
        (qr_iterate (features o) (m * features o * features o) 1 (qr_init o m)).
Proof.
  intros Hf Hfuel. destruct fuel as [|fuel]; [lia|].
  unfold solve_matrix. cbn [qr_loop].
  pose proof (qr_iteration_converged (features o)
                (m * features o * features o) 0 (qr_init o m)) as Hc.
  rewrite all_below_threshold_small in Hc by exact Hf.
  cbn [qr_iterate].
  destruct (qr_iteration (features o) (m * features o * features o) 0 (qr_init o m))
    as [s c]. cbn [fst snd] in *. subst c.
  destruct ((features o * features o * 16 <? 1) && negb (benchmark_mode o)).
  - match goal with
    | |- context [report o m ?x 1 s] =>
        exists (fst (report o m x 1 s)), (snd (report o m x 1 s))
    end.
    rewrite <- surjective_pairing. split; [reflexivity|].
    rewrite report_fst. split; reflexivity.
  - match goal with
    | |- context [report o m ?x 1 s] =>
        exists (fst (report o m x 1 s)), (snd (report o m x 1 s))
    end.
    rewrite <- surjective_pairing. split; [reflexivity|].
    rewrite report_fst. split; reflexivity.
Qed.

Lemma solve_matrix_one_feature_one_pass_witness :
  exists o' out',
    solve_matrix 1 0
      (mkGoldenPCA 1 1 1 false true [3] [9] [0] [0] [0], [])%float
      = Some (o', out') /\
    iterations o' = [1%float] /\
    eigenvectors o' =
      qr_eigenvectors
        (qr_iterate 1 0 1
           (qr_init (mkGoldenPCA 1 1 1 false true [3] [9] [0] [0] [0])%float 0)).
Proof.
  exact (solve_matrix_one_feature_one_pass
           (mkGoldenPCA 1 1 1 false true [3] [9] [0] [0] [0])%float [] 1 0
           (Nat.le_refl 1) (Nat.le_refl 1)).
Defined.

(** ** The threshold tests *)

Lemma for_loop_andb_true (n : nat) (t : nat -> bool) (z0 : bool) :
  for_loop n (fun k z => z && t k) z0 = true <->
  z0 = true /\ forall k, k < n -> t k = true.
Proof.
  induction n as [|n IH].
  - rewrite for_loop_0. split; [intros ->; split; [reflexivity|intros; lia]|tauto].
  - rewrite for_loop_S, andb_true_iff, IH. split.
    + intros [[Hz H] Hn]. split; [exact Hz|]. intros k Hk.
      destruct (decide (k = n)) as [->|Hne]; [exact Hn|apply H; lia].
    + intros [Hz H]. split; [split; [exact Hz|]|]; auto with lia.
Qed.

Lemma row_is_zero_true (f : nat) (rq : list float) (row : nat) :
  row_is_zero f rq row = true <->
  forall col, col < row ->
    (abs (rq !!! (row * f + col)%nat) <? kZeroThreshold)%float = true.
Proof.
  unfold row_is_zero.
  rewrite (for_loop_andb_true row
             (fun col => (abs (rq !!! (row * f + col)%nat) <? kZeroThreshold)%float)).
  tauto.
Qed.

(** Lines 275-282: the test passes exactly when every row from 1 on is
    zero left of the diagonal. *)
Lemma all_below_threshold_rows (f : nat) (rq : list float) :
  all_below_threshold f rq = true <->
  forall row, 1 <= row < f -> row_is_zero f rq row = true.
Proof.
  unfold all_below_threshold. rewrite for_range_for_loop.
  enough (forall n z0,
            for_loop n (fun k acc =>
              for_loop (1 + k) (fun col acc =>
                let x := rq !!! ((1 + k) * f + col) in
                acc && (abs x <? kZeroThreshold)%float) acc) z0 = true <->
            z0 = true /\ forall k, k < n -> row_is_zero f rq (1 + k) = true) as H.
  { rewrite H. split.
    - intros [_ Hk] row Hrow. replace row with (1 + (row - 1)) by lia.
      apply Hk. lia.
    - intros Hrow. split; [reflexivity|]. intros k Hk. apply Hrow. lia. }
  induction n as [|n IH]; intros z0.
  - rewrite for_loop_0. split; [intros ->; split; [reflexivity|intros; lia]|tauto].
  - rewrite for_loop_S.
    rewrite (for_loop_andb_true (1 + n)
               (fun col => (abs (rq !!! ((1 + n) * f + col)%nat) <? kZeroThreshold)%float)).
    rewrite IH. split.
    + intros [[Hz H] Hn]. split; [exact Hz|]. intros k Hk.
      destruct (decide (k = n)) as [->|Hne]; [|apply H; lia].
      apply row_is_zero_true. exact Hn.
    + intros [Hz H]. split; [split; [exact Hz|]|]; auto with lia.
      apply row_is_zero_true. apply H. lia.
Qed.

Lemma find_shift_row_all_zero (f : nat) (rq : list float) (row : nat) (sr : Z) :
  (forall row', 1 <= row' <= row -> row_is_zero f rq row' = true) ->
  find_shift_row f rq row sr = (sr - Z.of_nat row)%Z.
Proof.
  revert sr. induction row as [|row IH]; intros sr H.
  - cbn. lia.
  - cbn [find_shift_row]. rewrite (H (S row)) by lia. cbn [negb].
    rewrite IH by (intros; apply H; lia). lia.
Qed.

(** X8: the loop is left without its [break] only on a working matrix
    whose every entry below the diagonal is under the threshold in
    magnitude (so none of them is NaN). *)
Theorem qr_loop_converged_below_threshold
    {T : Type} `{ST : Scalar T} (fuel f off : nat) (b : bool) (iters : nat)
    (s : qr_state T) (k : nat) (s' : qr_state T) :
  qr_loop fuel f off b iters s = Some (k, s', false) ->
  forall row col, col < row -> row < f ->
    (abs (qr_rq s' !!! (row * f + col)%nat) <? kZeroThreshold)%float = true.
Proof.
  revert iters s. induction fuel as [|fuel IH]; intros iters s; [discriminate|].
  cbn [qr_loop].
  pose proof (qr_iteration_converged f off iters s) as Hc.
  destruct (qr_iteration f off iters s) as [s1 c]. cbn [fst snd] in Hc.
  destruct ((f * f * 16 <? S iters) && negb b); [discriminate|].
  destruct c.
  - intros [= <- <-] row col Hcol Hrow. symmetry in Hc.
    rewrite all_below_threshold_rows in Hc.
    apply (proj1 (row_is_zero_true f (qr_rq s1) row)); [|exact Hcol].
    apply Hc. lia.
  - apply IH.
Qed.

Lemma qr_loop_converged_below_threshold_witness :
  (abs (qr_rq (fst (qr_iteration 2 0 0 (qr_init (diagonal_batch false) 0)))
          !!! (1 * 2 + 0)%nat) <? kZeroThreshold)%float = true.
Proof.
  exact (qr_loop_converged_below_threshold 1 2 0 false 0
           (qr_init (diagonal_batch false) 0) 1
           (fst (qr_iteration 2 0 0 (qr_init (diagonal_batch false) 0)))
           eq_refl 1 0 (Nat.lt_0_succ 0) (Nat.lt_succ_diag_r 1)).
Defined.

(** X9: on a working matrix that passes the convergence test the scan
    finds no row to take a shift from, and the shift of the pass is 0,
    whichever pass it is. *)
Theorem deflated_matrix_gets_zero_shift (f : nat) (rq : list float) (iters : nat) :
  all_below_threshold f rq = true ->
  (find_shift_row f rq (f - 1) (Z.of_nat f - 2) < 0)%Z /\
  shift_value_at f rq iters = 0%float.
Proof.
  intros H. rewrite all_below_threshold_rows in H.
  assert (E : find_shift_row f rq (f - 1) (Z.of_nat f - 2)
              = (Z.of_nat f - 2 - Z.of_nat (f - 1))%Z).
  { apply find_shift_row_all_zero. intros row Hrow. apply H. lia. }
  split; [lia|].
  unfold shift_value_at. rewrite E.
  destruct (Z.leb_spec 0 (Z.of_nat f - 2 - Z.of_nat (f - 1))) as [Hle|_]; [lia|].
  destruct (iters =? 0); reflexivity.
Qed.

Lemma deflated_matrix_gets_zero_shift_witness :
  (find_shift_row 2 [4; 0; 0; 1]%float 1 0 < 0)%Z /\
  shift_value_at 2 [4; 0; 0; 1]%float 3 = 0%float.
Proof.
  exact (deflated_matrix_gets_zero_shift 2 [4; 0; 0; 1]%float 3 eq_refl).
Defined.

(** ** From the input of the constructor to the covariance matrix *)

Lemma column_dot_product_ext {T : Type} `{ST : Scalar T}
    (A B : nat -> nat -> T) (row col n : nat) :
  (forall k, k < n -> A k row = B k row /\ A k col = B k col) ->
  column_dot_product A row col n = column_dot_product B row col n.
Proof.
  intros H. induction n as [|n IH]; [reflexivity|].
  cbn [column_dot_product]. rewrite IH by (intros; apply H; lia).
  destruct (H n) as [-> ->]; [lia|]. reflexivity.
Qed.

(** X10: the constructor followed by [ComputeCovarianceMatrix]: entry
    [(row, col)] of the covariance matrix of batch entry 0 is the
    [double] sum over the rows [k] of the input of the products
    [input_mat[k][row] * input_mat[k][col]], stored as a [T]. *)
Theorem covariance_of_constructed_input
    {T : Type} `{ST : Scalar T} (n p count : nat) (d b : bool)
    (input_mat : list (list T)) (out : cout T) (row col : nat) :
  1 <= count -> well_formed_input n p input_mat -> row < p -> col < p ->
  covariance_matrix
    (fst (ComputeCovarianceMatrix (GoldenPCA_new n p count d b input_mat, out)))
    !! (row * p + col)
  = Some (of_double
            (column_dot_product (fun k j => (input_mat !!! k) !!! j) row col n)).
Proof.
  intros Hcount _ Hrow Hcol.
  set (o := GoldenPCA_new n p count d b input_mat).
  assert (Hc : length (covariance_matrix o) = features o * features o * matrix_count o)
    by (cbn; apply length_replicate).
  destruct (ComputeCovarianceMatrix_spec o out Hc) as (_ & _ & L & H).
  cbv zeta in L, H. change (features o) with p in *.
  change (matrix_count o) with count in *. change (samples o) with n in *.
  pose proof (row_major_lt p p row col Hrow Hcol) as Hlt.
  rewrite list_lookup_lookup_total_lt by (rewrite L, Hc; nia).
  f_equal. specialize (H 0 row col ltac:(lia) Hrow Hcol).
  cbn [Nat.mul Nat.add] in H. rewrite H. f_equal.
  apply column_dot_product_ext. intros k Hk.
  destruct (a_matrix_new n p count d b input_mat Hcount) as (_ & _ & Hin).
  cbv zeta in Hin. unfold sample_entry.
  change (samples o) with n. change (features o) with p. cbn [Nat.mul Nat.add].
  fold o in Hin. rewrite !Hin by assumption. split; reflexivity.
Qed.

Lemma covariance_of_constructed_input_witness :
  covariance_matrix
    (fst (ComputeCovarianceMatrix
            (GoldenPCA_new 2 2 1 false false [[1; 2]; [3; 4]]%float, [])))
    !! 3 = Some 20%float.
Proof.
  assert (Hwf : well_formed_input 2 2 [[1; 2]; [3; 4]]%float).
  { split; [reflexivity|]. repeat constructor. }
  exact (covariance_of_constructed_input 2 2 1 false false
           [[1; 2]; [3; 4]]%float [] 1 1 (Nat.le_refl 1) Hwf
           (Nat.lt_succ_diag_r 1) (Nat.lt_succ_diag_r 1)).
Defined.

(** ** Variances are not negative *)

Section NotNegative.
Local Open Scope float_scope.

Lemma binary_round_aux_not_negative (mx ex : Z) (lx : location) :
  sf_not_negative (binary_round_aux prec emax false mx ex lx).
Proof.
  unfold binary_round_aux.
  destruct (shr_fexp prec emax mx ex lx) as [mrs e].
  destruct (shr_fexp prec emax _ e loc_Exact) as [mrs' e'].
  destruct (shr_m mrs'); [constructor| |constructor].
  destruct (e' <=? emax - prec)%Z; constructor.
Qed.

Lemma square_not_negative (x : float) : sf_not_negative (Prim2SF (x * x)).
Proof.
  rewrite mul_spec. destruct (Prim2SF x) as [s|s| |s m e]; cbn;
    rewrite ?xorb_nilpotent; try constructor.
  apply binary_round_aux_not_negative.
Qed.

Lemma add_not_negative (x y : float) :
  sf_not_negative (Prim2SF x) -> sf_not_negative (Prim2SF y) ->
  sf_not_negative (Prim2SF (x + y)).
Proof.
  rewrite add_spec. intros Hx Hy.
  destruct Hx as [| | |mx ex], Hy as [| | |my ey]; try (cbn; constructor).
  unfold SF64add, SFadd. cbn [cond_Zopp].
  generalize (fst (shl_align mx ex (Z.min ex ey))) as a.
  generalize (fst (shl_align my ey (Z.min ex ey))) as c. intros c a.
  change (Z.pos a + Z.pos c)%Z with (Z.pos (a + c)).
  unfold binary_normalize, binary_round.
  destruct (shl_align _ _ _) as [mz ez].
  apply binary_round_aux_not_negative.
Qed.

Lemma not_negative_ltb (x : float) :
  sf_not_negative (Prim2SF x) -> (x <? 0) = false.
Proof.
  rewrite ltb_spec. change (Prim2SF 0) with (S754_zero false).
  intros H. destruct H; reflexivity.
Qed.

Lemma sum_of_squares_not_negative (A : nat -> nat -> float) (row n : nat) :
  sf_not_negative (Prim2SF (column_dot_product A row row n)).
Proof.
  induction n as [|n IH]; [constructor|].
  cbn [column_dot_product]. apply add_not_negative; [exact IH|].
  apply square_not_negative.
Qed.

End NotNegative.

(** X11: with [T = double], no entry on the diagonal of a covariance
    matrix is below zero: it is a sum, from +0, of squares. *)
Theorem covariance_diagonal_not_negative
    (o : GoldenPCA float) (out : cout float) (m row : nat) :
  well_sized o -> m < matrix_count o -> row < features o ->
  exists x,
    covariance_matrix (fst (ComputeCovarianceMatrix (o, out)))
      !! (m * features o * features o + row * features o + row) = Some x /\
    (x <? 0)%float = false.
Proof.
  intros (_ & Hc & _) Hm Hrow.
  destruct (ComputeCovarianceMatrix_spec o out Hc) as (_ & _ & L & H).
  cbv zeta in L, H.
  exists (column_dot_product (sample_entry o m) row row (samples o)). split.
  - rewrite list_lookup_lookup_total_lt.
    + f_equal. apply H; assumption.
    + rewrite L, Hc. pose proof (row_major_lt _ _ row row Hrow Hrow). nia.
  - apply not_negative_ltb, sum_of_squares_not_negative.
Qed.

Lemma covariance_diagonal_not_negative_witness :
  exists x,
    covariance_matrix
      (fst (ComputeCovarianceMatrix
              (GoldenPCA_new 2 2 1 false false [[1; -2]; [3; 4]]%float, [])))
      !! 3 = Some x /\
    (x <? 0)%float = false.
Proof.
  assert (Hsz : well_sized (GoldenPCA_new 2 2 1 false false [[1; -2]; [3; 4]]%float))
    by (repeat split; reflexivity).
  exact (covariance_diagonal_not_negative
           (GoldenPCA_new 2 2 1 false false [[1; -2]; [3; 4]]%float) [] 0 1
           Hsz (Nat.lt_0_succ 0) (Nat.lt_succ_diag_r 1)).
Defined.

(** ** One solve depends on its covariance matrix only *)

Lemma for_loop_ext {S : Type} (n : nat) (body body' : nat -> S -> S) (s : S) :
  (forall k s, k < n -> body k s = body' k s) ->
  for_loop n body s = for_loop n body' s.
Proof.
  intros H. induction n as [|n IH]; [reflexivity|].
  rewrite !for_loop_S, IH by (intros; apply H; lia). apply H. lia.
Qed.

Section Agreement.
Context {T : Type} `{ST : Scalar T}.

Lemma qr_iteration_agree (f off1 off2 iters : nat) (s1 s2 : qr_state T) :
  qr_agree f off1 off2 s1 s2 ->
  qr_agree f off1 off2 (fst (qr_iteration f off1 iters s1))
                       (fst (qr_iteration f off2 iters s2)) /\
  snd (qr_iteration f off1 iters s1) = snd (qr_iteration f off2 iters s2).
Proof.
  destruct s1 as [q1 r1 rq1 ev1], s2 as [q2 r2 rq2 ev2].
  intros (Hq & Hr & Hrq & L1 & L2 & Hev). cbn in Hq, Hr, Hrq, L1, L2, Hev.
  subst q2 r2 rq2. unfold qr_iteration. cbn [qr_q qr_r qr_rq qr_eigenvectors].
  destruct (clear_qr f (q1, r1)) as [q0 r0].
  destruct (gram_schmidt f _) as [[q r] rq]. cbn [fst snd].
  split; [|reflexivity].
  destruct (update_eigenvectors_spec f off1 q ev1 L1) as (La & _ & Ha).
  destruct (update_eigenvectors_spec f off2 q ev2 L2) as (Lb & _ & Hb).
  cbv zeta in La, Lb, Ha, Hb.
  unfold qr_agree. cbn [qr_q qr_r qr_rq qr_eigenvectors].
  split; [reflexivity|]. split; [reflexivity|]. split; [reflexivity|].
  split; [lia|]. split; [lia|].
  intros row col Hrow Hcol. rewrite Ha, Hb by assumption. f_equal.
  unfold eigenvectors_entry. apply for_loop_ext. intros k prod Hk.
  rewrite Hev by assumption. reflexivity.
Qed.

Lemma qr_loop_agree (fuel f off1 off2 : nat) (b : bool) (iters : nat)
    (s1 s2 : qr_state T) (k : nat) (s1' : qr_state T) (ab : bool) :
  qr_agree f off1 off2 s1 s2 ->
  qr_loop fuel f off1 b iters s1 = Some (k, s1', ab) ->
  exists s2',
    qr_loop fuel f off2 b iters s2 = Some (k, s2', ab) /\
    qr_agree f off1 off2 s1' s2'.
Proof.
  revert iters s1 s2. induction fuel as [|fuel IH]; intros iters s1 s2 Hag;
    [discriminate|].
  cbn [qr_loop].
  destruct (qr_iteration_agree f off1 off2 iters s1 s2 Hag) as [Hag' Hc].
  destruct (qr_iteration f off1 iters s1) as [t1 c1].
  destruct (qr_iteration f off2 iters s2) as [t2 c2].
  cbn [fst snd] in Hag', Hc. subst c2.
  destruct ((f * f * 16 <? S iters) && negb b).
  - intros [= <- <- <-]. eauto.
  - destruct c1.
    + intros [= <- <- <-]. eauto.
    + apply IH, Hag'.
Qed.

Lemma qr_init_agree (o1 o2 : GoldenPCA T) (m1 m2 : nat) :
  features o1 = features o2 ->
  let f := features o1 in
  (forall k, k < f * f ->
     covariance_matrix o1 !!! (m1 * f * f + k) =
     covariance_matrix o2 !!! (m2 * f * f + k)) ->
  m1 * f * f + f * f <= length (eigenvectors o1) ->
  m2 * f * f + f * f <= length (eigenvectors o2) ->
  qr_agree f (m1 * f * f) (m2 * f * f) (qr_init o1 m1) (qr_init o2 m2).
Proof.
  intros Hf f Hcov L1 L2.
  pose proof (qr_init_length_eigenvectors o1 m1) as La.
  pose proof (qr_init_length_eigenvectors o2 m2) as Lb.
  unfold qr_init in *. rewrite <- Hf in *. fold f in La, Lb |- *.
  cbn [qr_eigenvectors] in La, Lb.
  unfold qr_agree. cbn [qr_q qr_r qr_rq qr_eigenvectors].
  split; [reflexivity|]. split; [reflexivity|]. split.
  { apply for_loop_ext. intros k rq Hk. rewrite Hcov by exact Hk. reflexivity. }
  split; [lia|]. split; [lia|].
  intros row col Hrow Hcol.
  destruct (for_loop_fill2 f f (fun row col => m1 * f * f + row * f + col)
              (fun row col => of_int (if row =? col then 1%Z else 0%Z))
              (eigenvectors o1)) as (_ & _ & Ha).
  { intros r c r' c' _ Hc _ Hc'. apply row_major_inj; assumption. }
  { intros r c Hr Hc. pose proof (row_major_lt f f r c Hr Hc). lia. }
  destruct (for_loop_fill2 f f (fun row col => m2 * f * f + row * f + col)
              (fun row col => of_int (if row =? col then 1%Z else 0%Z))
              (eigenvectors o2)) as (_ & _ & Hb).
  { intros r c r' c' _ Hc _ Hc'. apply row_major_inj; assumption. }
  { intros r c Hr Hc. pose proof (row_major_lt f f r c Hr Hc). lia. }
  cbv zeta in Ha, Hb. rewrite Ha, Hb by assumption. reflexivity.
Qed.

(** Two solves on the same covariance matrix, at whatever places of
    whatever batches: if one returns so does the other, with the same
    count, eigenvalues and eigenvectors. *)
Lemma solve_matrix_agree (fuel m1 m2 : nat) (o1 o2 : GoldenPCA T)
    (out1 out2 : cout T) (o1' : GoldenPCA T) (out1' : cout T) :
  features o1 = features o2 ->
  benchmark_mode o1 = benchmark_mode o2 ->
  let f := features o1 in
  (forall k, k < f * f ->
     covariance_matrix o1 !!! (m1 * f * f + k) =
     covariance_matrix o2 !!! (m2 * f * f + k)) ->
  m1 * f * f + f * f <= length (eigenvectors o1) ->
  m2 * f * f + f * f <= length (eigenvectors o2) ->
  m1 * f + f <= length (eigenvalues o1) ->
  m2 * f + f <= length (eigenvalues o2) ->
  solve_matrix fuel m1 (o1, out1) = Some (o1', out1') ->
  exists o2' out2' k,
    solve_matrix fuel m2 (o2, out2) = Some (o2', out2') /\
    iterations o1' = <[m1 := of_int (Z.of_nat k)]> (iterations o1) /\
    iterations o2' = <[m2 := of_int (Z.of_nat k)]> (iterations o2) /\
    (forall j, j < f ->
       eigenvalues o1' !!! (j + m1 * f) = eigenvalues o2' !!! (j + m2 * f)) /\
    (forall row col, row < f -> col < f ->
       eigenvectors o1' !!! (m1 * f * f + row * f + col) =
       eigenvectors o2' !!! (m2 * f * f + row * f + col)).
Proof.
  intros Hf Hb f Hcov L1 L2 V1 V2 Hsolve.
  pose proof (qr_init_agree o1 o2 m1 m2 Hf Hcov L1 L2) as Hag. fold f in Hag.
  apply solve_matrix_Some in Hsolve as (k & s1 & ab & x1 & Hloop & Hw).
  fold f in Hloop.
  destruct (qr_loop_agree _ _ _ (m2 * f * f) _ _ _ _ _ _ _ Hag Hloop)
    as (s2 & Hloop2 & (_ & _ & Hrq & _ & _ & Hev)).
  unfold solve_matrix. rewrite <- Hf, <- Hb. fold f. rewrite Hloop2.
  match goal with
  | |- context [report o2 m2 ?x k s2] => set (x2 := x)
  end.
  exists (fst (report o2 m2 x2 k s2)), (snd (report o2 m2 x2 k s2)), k.
  rewrite <- surjective_pairing. split; [reflexivity|].
  destruct (report_spec o1 m1 x1 k s1 V1) as (E1 & I1 & _ & _ & W1).
  assert (V2' : m2 * features o2 + features o2 <= length (eigenvalues o2))
    by (rewrite <- Hf; exact V2).
  destruct (report_spec o2 m2 x2 k s2 V2') as (E2 & I2 & _ & _ & W2).
  cbv zeta in E1, I1, W1, E2, I2, W2. rewrite <- Hw in E1, I1, W1.
  cbn [fst] in E1, I1, W1. rewrite <- Hf in W2. fold f in W1, W2.
  split; [exact I1|]. split; [exact I2|]. split.
  - intros j Hj. rewrite W1, W2, Hrq by exact Hj. reflexivity.
  - intros row col Hrow Hcol. rewrite E1, E2. apply Hev; assumption.
Qed.

End Agreement.

(** ** The entries of a batch are solved one by one *)

Lemma rows_ext {A : Type} `{!Inhabited A} (p count : nat) (v w : list A) :
  length v = p * count -> length w = p * count ->
  (forall m j, m < count -> j < p -> v !!! (j + m * p) = w !!! (j + m * p)) ->
  v = w.
Proof.
  intros Lv Lw H. apply (list_eq_same_length _ _ (p * count)); [exact Lw|exact Lv|].
  intros i x y Hi Hx Hy.
  apply list_lookup_total_correct in Hx, Hy. rewrite <- Hx, <- Hy.
  assert (Hp : 0 < p) by nia.
  pose proof (Nat.div_mod_eq i p) as E.
  pose proof (Nat.mod_upper_bound i p ltac:(lia)) as B.
  replace i with (i mod p + (i / p) * p) by lia.
  apply H; [apply Nat.Div0.div_lt_upper_bound; lia|exact B].
Qed.

Section Entries.
Context {T : Type} `{ST : Scalar T}.

Lemma solve_matrix_same_problem (fuel m : nat) (o o1 : GoldenPCA T)
    (out1 : cout T) (o2 : GoldenPCA T) (out2 : cout T) :
  same_problem o o1 -> solve_matrix fuel m (o1, out1) = Some (o2, out2) ->
  same_problem o o2.
Proof.
  intros (Hf & Hb & Hm & Hc & (Sa & Sc & Sv & Se & Si)) Hsolve.
  pose proof (solve_matrix_fields _ _ _ _ _ _ Hsolve)
    as (F1 & F2 & F3 & F4 & _ & F6 & F7 & _).
  pose proof (solve_matrix_lengths _ _ _ _ _ _ Hsolve) as (M1 & M2 & M3).
  unfold same_problem, well_sized.
  rewrite F1, F2, F3, F4, F6, F7, M1, M2, M3. auto 10.
Qed.

Lemma solve_matrix_eigenvalues_frame (fuel m : nat) (o : GoldenPCA T)
    (out : cout T) (o' : GoldenPCA T) (out' : cout T) :
  solve_matrix fuel m (o, out) = Some (o', out') ->
  m * features o + features o <= length (eigenvalues o) ->
  forall i, i < m * features o \/ m * features o + features o <= i ->
    eigenvalues o' !!! i = eigenvalues o !!! i.
Proof.
  intros Hsolve Hlen.
  apply solve_matrix_Some in Hsolve as (k & s & ab & out1 & _ & Hw).
  destruct (report_spec o m out1 k s Hlen) as (_ & _ & _ & Hout & _).
  cbv zeta in Hout. rewrite <- Hw in Hout. exact Hout.
Qed.

(** What the solve of a batch reports for entry [m] is what the solve of
    that entry produced, from an object that posed the same problem. *)
Lemma ComputeEigenValuesAndVectors_entry (fuel : nat) (o : GoldenPCA T)
    (out : cout T) (o' : GoldenPCA T) (out' : cout T) (m : nat) :
  well_sized o ->
  ComputeEigenValuesAndVectors fuel (o, out) = Some (o', out') ->
  m < matrix_count o ->
  let f := features o in
  exists o1 out1 o2 out2,
    solve_matrix fuel m (o1, out1) = Some (o2, out2) /\
    same_problem o o1 /\
    (forall j, j < f ->
       eigenvalues o' !!! (j + m * f) = eigenvalues o2 !!! (j + m * f)) /\
    (forall row col, row < f -> col < f ->
       eigenvectors o' !!! (m * f * f + row * f + col) =
       eigenvectors o2 !!! (m * f * f + row * f + col)) /\
    iterations o' !!! m = iterations o2 !!! m.
Proof.
  intros Hsz Hrun Hm f. unfold ComputeEigenValuesAndVectors in Hrun.
  cbn [fst] in Hrun.
  set (step := fun (matrix_index : nat) (ow : option (GoldenPCA T * cout T)) =>
                 match ow with
                 | Some w => solve_matrix fuel matrix_index w
                 | None => None
                 end) in *.
  enough (forall n, n <= matrix_count o ->
            forall o' out', for_loop n step (Some (o, out)) = Some (o', out') ->
            same_problem o o' /\
            (m < n ->
             exists o1 out1 o2 out2,
               solve_matrix fuel m (o1, out1) = Some (o2, out2) /\
               same_problem o o1 /\
               (forall j, j < f ->
                  eigenvalues o' !!! (j + m * f) = eigenvalues o2 !!! (j + m * f)) /\
               (forall row col, row < f -> col < f ->
                  eigenvectors o' !!! (m * f * f + row * f + col) =
                  eigenvectors o2 !!! (m * f * f + row * f + col)) /\
               iterations o' !!! m = iterations o2 !!! m)) as H.
  { eapply H; [|exact Hrun|exact Hm]. lia. }
  clear o' out' Hrun. intros n Hn.
  pattern n, (for_loop n step (Some (o, out))). apply for_loop_ind.
  - intros o' out' [= <- <-]. split; [|intros; lia].
    unfold same_problem. auto.
  - intros m' [[o1 out1]|] Hm' IH o2 out2 Hstep; [|discriminate].
    destruct (IH o1 out1 eq_refl) as (Hsame & Hblock).
    cbn [step] in Hstep.
    pose proof (solve_matrix_same_problem _ _ _ _ _ _ _ Hsame Hstep) as Hsame2.
    split; [exact Hsame2|].
    intros Hlt. destruct (decide (m = m')) as [->|Hne].
    + exists o1, out1, o2, out2. auto.
    + destruct Hblock as (oa & outa & ob & outb & Hs & Hpa & Hv & He & Hi); [lia|].
      exists oa, outa, ob, outb.
      split; [exact Hs|]. split; [exact Hpa|].
      destruct Hsame as (Hf1 & _ & Hc1 & _ & (_ & _ & Sv & Se & Si)).
      rewrite Hf1 in Sv, Se. fold f in Sv, Se.
      assert (Hmm : m < m') by lia.
      split; [|split].
      * intros j Hj. rewrite <- Hv by exact Hj.
        apply (solve_matrix_eigenvalues_frame _ _ _ _ _ _ Hstep);
          rewrite Hf1; fold f; [rewrite Sv; nia|left; nia].
      * intros row col Hrow Hcol. rewrite <- He by assumption.
        pose proof (solve_matrix_frame _ _ _ _ _ _ Hstep) as [_ Hframe].
        rewrite Hf1 in Hframe. fold f in Hframe. apply Hframe.
        pose proof (row_major_lt f f row col Hrow Hcol). nia.
      * rewrite <- Hi.
        pose proof (solve_matrix_fields _ _ _ _ _ _ Hstep)
          as (_ & _ & _ & _ & _ & _ & _ & k & -> & _).
        apply list_lookup_total_insert_ne. lia.
Qed.

(** The solve of a batch returns as soon as the solve of each entry
    does, from whatever object poses the same problem. *)
Lemma ComputeEigenValuesAndVectors_returns (fuel : nat) (o : GoldenPCA T)
    (out : cout T) :
  well_sized o ->
  (forall m o1 out1, m < matrix_count o -> same_problem o o1 ->
     exists w, solve_matrix fuel m (o1, out1) = Some w) ->
  exists w', ComputeEigenValuesAndVectors fuel (o, out) = Some w'.
Proof.
  intros Hsz Hall. unfold ComputeEigenValuesAndVectors. cbn [fst].
  enough (exists o' out',
            for_loop (matrix_count o)
              (fun matrix_index ow =>
                 match ow with
                 | Some w => solve_matrix fuel matrix_index w
                 | None => None
                 end) (Some (o, out)) = Some (o', out') /\ same_problem o o')
    as (o' & out' & H & _) by eauto.
  apply (for_loop_ind (fun n ow => exists o' out',
           ow = Some (o', out') /\ same_problem o o')).
  - exists o, out. split; [reflexivity|]. unfold same_problem. auto.
  - intros m ow Hm (o1 & out1 & -> & Hsame).
    destruct (Hall m o1 out1 Hm Hsame) as [[o2 out2] Hs].
    exists o2, out2. split; [exact Hs|].
    eapply solve_matrix_same_problem; eassumption.
Qed.

(** Two solves of entries with the same covariance matrix, in objects
    that pose the same problem. *)
Lemma solve_matrix_agree_same_problem (fuel m1 m2 : nat)
    (o o1 o2 : GoldenPCA T) (out1 out2 : cout T) (o1' : GoldenPCA T)
    (out1' : cout T) :
  same_problem o o1 -> same_problem o o2 ->
  m1 < matrix_count o -> m2 < matrix_count o ->
  let f := features o in
  (forall k, k < f * f ->
     covariance_matrix o !!! (m1 * f * f + k) =
     covariance_matrix o !!! (m2 * f * f + k)) ->
  solve_matrix fuel m1 (o1, out1) = Some (o1', out1') ->
  exists o2' out2',
    solve_matrix fuel m2 (o2, out2) = Some (o2', out2') /\
    iterations o1' !!! m1 = iterations o2' !!! m2 /\
    (forall j, j < f ->
       eigenvalues o1' !!! (j + m1 * f) = eigenvalues o2' !!! (j + m2 * f)) /\
    (forall row col, row < f -> col < f ->
       eigenvectors o1' !!! (m1 * f * f + row * f + col) =
       eigenvectors o2' !!! (m2 * f * f + row * f + col)).
Proof.
  intros (Hf1 & Hb1 & Hm1 & Hc1 & (_ & _ & Sv1 & Se1 & Si1))
         (Hf2 & Hb2 & Hm2 & Hc2 & (_ & _ & Sv2 & Se2 & Si2)) Hlt1 Hlt2 f Hcov Hsolve.
  rewrite Hf1, Hm1 in Sv1, Se1. rewrite Hf2, Hm2 in Sv2, Se2.
  rewrite Hm1 in Si1. rewrite Hm2 in Si2. fold f in Sv1, Se1, Sv2, Se2.
  pose proof (row_major_lt (matrix_count o) (f * f) m1 0 Hlt1).
  pose proof (row_major_lt (matrix_count o) (f * f) m2 0 Hlt2).
  destruct (solve_matrix_agree fuel m1 m2 o1 o2 out1 out2 o1' out1')
    as (o2' & out2' & k & Hs & I1 & I2 & Hv & He);
    try (rewrite ?Hf1, ?Hf2, ?Hb1, ?Hb2, ?Hc1, ?Hc2; fold f;
         first [reflexivity | assumption | nia]).
  rewrite Hf1 in Hv, He. fold f in Hv, He.
  exists o2', out2'. split; [exact Hs|]. split; [|split; assumption].
  rewrite I1, I2, !list_lookup_total_insert_eq by lia. reflexivity.
Qed.

End Entries.

(** X12: the solve of a batch treats its entries alike: two entries
    whose covariance matrices are equal get the same iteration count,
    the same eigenvalues and the same eigenvectors, wherever they stand
    in the batch and whatever was solved before them. *)
Theorem equal_covariance_entries_get_equal_results
    {T : Type} `{ST : Scalar T} (fuel : nat) (o : GoldenPCA T) (out : cout T)
    (o' : GoldenPCA T) (out' : cout T) (m1 m2 : nat) :
  well_sized o ->
  ComputeEigenValuesAndVectors fuel (o, out) = Some (o', out') ->
  m1 < matrix_count o -> m2 < matrix_count o ->
  let f := features o in
  (forall k, k < f * f ->
     covariance_matrix o !!! (m1 * f * f + k) =
     covariance_matrix o !!! (m2 * f * f + k)) ->
  iterations o' !!! m1 = iterations o' !!! m2 /\
  (forall j, j < f ->
     eigenvalues o' !!! (j + m1 * f) = eigenvalues o' !!! (j + m2 * f)) /\
  (forall row col, row < f -> col < f ->
     eigenvectors o' !!! (m1 * f * f + row * f + col) =
     eigenvectors o' !!! (m2 * f * f + row * f + col)).
Proof.
  intros Hsz Hrun Hm1 Hm2 f Hcov.
  destruct (ComputeEigenValuesAndVectors_entry fuel o out o' out' m1 Hsz Hrun Hm1)
    as (a1 & outa1 & b1 & outb1 & Hs1 & Hp1 & Hv1 & He1 & Hi1).
  destruct (ComputeEigenValuesAndVectors_entry fuel o out o' out' m2 Hsz Hrun Hm2)
    as (a2 & outa2 & b2 & outb2 & Hs2 & Hp2 & Hv2 & He2 & Hi2).
  fold f in Hv1, He1, Hv2, He2.
  destruct (solve_matrix_agree_same_problem fuel m1 m2 o a1 a2 outa1 outa2
              b1 outb1 Hp1 Hp2 Hm1 Hm2 Hcov Hs1)
    as (b2' & outb2' & Hs2' & Hi & Hv & He).
  rewrite Hs2 in Hs2'. injection Hs2' as <- <-. fold f in Hv, He.
  split; [congruence|]. split.
  - intros j Hj. rewrite Hv1, Hv2 by exact Hj. apply Hv, Hj.
  - intros row col Hrow Hcol. rewrite He1, He2 by assumption.
    apply He; assumption.
Qed.

Lemma equal_covariance_entries_get_equal_results_witness :
  iterations symmetric_pair_solved !!! 0 = iterations symmetric_pair_solved !!! 1 /\
  eigenvalues symmetric_pair_solved !!! 0 = eigenvalues symmetric_pair_solved !!! 2 /\
  eigenvectors symmetric_pair_solved !!! 1 = eigenvectors symmetric_pair_solved !!! 5.
Proof.
  assert (Hsz : well_sized symmetric_pair) by (repeat split; reflexivity).
  destruct (equal_covariance_entries_get_equal_results 65 symmetric_pair []
              symmetric_pair_solved [] 0 1 Hsz eq_refl
              (Nat.lt_0_succ 1) (Nat.lt_succ_diag_r 1))
    as (Hi & Hv & He).
  - intros k Hk. change (k < 4) in Hk.
    destruct k as [|[|[|[|k]]]]; [reflexivity..|lia].
  - split; [exact Hi|]. split.
    + exact (Hv 0 (Nat.lt_0_succ 1)).
    + exact (He 0 1 (Nat.lt_0_succ 1) (Nat.lt_succ_diag_r 1)).
Defined.

(** ** Solving again *)

Section Again.
Context {T : Type} `{ST : Scalar T}.

Lemma same_problem_trans (o o1 o2 : GoldenPCA T) :
  same_problem o o1 -> same_problem o1 o2 -> same_problem o o2.
Proof.
  intros (F1 & B1 & M1 & C1 & _) (F2 & B2 & M2 & C2 & S2).
  unfold same_problem. rewrite F2, B2, M2, C2. auto.
Qed.

Lemma ComputeEigenValuesAndVectors_same_problem (fuel : nat) (o : GoldenPCA T)
    (out : cout T) (o' : GoldenPCA T) (out' : cout T) :
  well_sized o ->
  ComputeEigenValuesAndVectors fuel (o, out) = Some (o', out') ->
  same_problem o o'.
Proof.
  intros (Ha & Hc & Hv & He & Hi) Hrun.
  destruct (ComputeEigenValuesAndVectors_keeps o out fuel o' out' Hrun)
    as ((E1 & E2 & E3 & E4 & E5) & (E6 & E7) & (L1 & L2 & L3)).
  unfold same_problem, well_sized.
  rewrite E1, E2, E3, E5, E6, E7, L1, L2, L3. auto 10.
Qed.

End Again.

(** X13: solving a batch again changes nothing.  The solver reads the
    covariance matrices only, and starts each entry from the identity
    whatever the vectors of the results hold: run on the object a first
    solve has left, it returns and leaves the very same object. *)
Theorem ComputeEigenValuesAndVectors_idempotent
    {T : Type} `{ST : Scalar T} (fuel : nat) (o : GoldenPCA T)
    (out out2 : cout T) (o' : GoldenPCA T) (out' : cout T) :
  well_sized o ->
  ComputeEigenValuesAndVectors fuel (o, out) = Some (o', out') ->
  exists out'', ComputeEigenValuesAndVectors fuel (o', out2) = Some (o', out'').
Proof.
  intros Hsz Hrun.
  pose proof (ComputeEigenValuesAndVectors_same_problem _ _ _ _ _ Hsz Hrun) as Hsame.
  assert (Hsz' : well_sized o') by apply Hsame.
  destruct Hsame as (Hf & Hb & Hm & Hc & _).
  assert (Hsame : same_problem o o') by (unfold same_problem; auto).
  assert (Hagree : forall m a outa, m < matrix_count o -> same_problem o a ->
            exists b outb,
              solve_matrix fuel m (a, outa) = Some (b, outb) /\
              iterations o' !!! m = iterations b !!! m /\
              (forall j, j < features o ->
                 eigenvalues o' !!! (j + m * features o) =
                 eigenvalues b !!! (j + m * features o)) /\
              (forall row col, row < features o -> col < features o ->
                 eigenvectors o' !!! (m * features o * features o + row * features o + col) =
                 eigenvectors b !!! (m * features o * features o + row * features o + col))).
  { intros m a outa Hlt Ha.
    destruct (ComputeEigenValuesAndVectors_entry fuel o out o' out' m Hsz Hrun Hlt)
      as (a1 & outa1 & b1 & outb1 & Hs1 & Hp1 & Hv1 & He1 & Hi1).
    destruct (solve_matrix_agree_same_problem fuel m m o a1 a outa1 outa
                b1 outb1 Hp1 Ha Hlt Hlt ltac:(reflexivity) Hs1)
      as (b & outb & Hs & Hi & Hv & He).
    exists b, outb. split; [exact Hs|]. split; [congruence|]. split.
    - intros j Hj. rewrite Hv1 by exact Hj. apply Hv, Hj.
    - intros row col Hrow Hcol. rewrite He1 by assumption. apply He; assumption. }
  destruct (ComputeEigenValuesAndVectors_returns fuel o' out2 Hsz')
    as [[o'' out''] Hrun2].
  { intros m a outa Hlt Ha. rewrite Hm in Hlt.
    destruct (Hagree m a outa Hlt (same_problem_trans _ _ _ Hsame Ha))
      as (b & outb & Hs & _).
    eauto. }
  exists out''. rewrite Hrun2. f_equal. f_equal.
  destruct (ComputeEigenValuesAndVectors_keeps o' out2 fuel o'' out'' Hrun2)
    as ((E1 & E2 & E3 & E4 & E5) & (E6 & E7) & (L1 & L2 & L3)).
  destruct Hsz' as (_ & _ & Sv & Se & Si).
  assert (Hvals : eigenvalues o'' = eigenvalues o'
                  /\ eigenvectors o'' = eigenvectors o'
                  /\ iterations o'' = iterations o').
  { assert (Hentry : forall m, m < matrix_count o ->
              iterations o' !!! m = iterations o'' !!! m /\
              (forall j, j < features o ->
                 eigenvalues o' !!! (j + m * features o) =
                 eigenvalues o'' !!! (j + m * features o)) /\
              (forall row col, row < features o -> col < features o ->
                 eigenvectors o' !!! (m * features o * features o + row * features o + col) =
                 eigenvectors o'' !!! (m * features o * features o + row * features o + col))).
    { intros m Hlt.
      destruct (ComputeEigenValuesAndVectors_entry fuel o' out2 o'' out'' m
                  ltac:(unfold well_sized; apply Hsame) Hrun2 ltac:(lia))
        as (a2 & outa2 & b2 & outb2 & Hs2 & Hp2 & Hv2 & He2 & Hi2).
      rewrite Hf in Hv2, He2.
      destruct (Hagree m a2 outa2 Hlt (same_problem_trans _ _ _ Hsame Hp2))
        as (b & outb & Hs & Hi & Hv & He).
      rewrite Hs2 in Hs. injection Hs as <- <-.
      split; [congruence|]. split.
      - intros j Hj. rewrite Hv2 by exact Hj. apply Hv, Hj.
      - intros row col Hrow Hcol. rewrite He2 by assumption. apply He; assumption. }
    rewrite Hf, Hm in Sv, Se. rewrite Hm in Si.
    split; [|split].
    - apply (rows_ext (features o) (matrix_count o)); [congruence|exact Sv|].
      intros m j Hlt Hj. symmetry. apply (Hentry m Hlt), Hj.
    - apply (blocks_ext (features o) (matrix_count o)); [congruence|exact Se|].
      intros m row col Hlt Hrow Hcol. symmetry. apply (Hentry m Hlt); assumption.
    - apply (list_eq_same_length _ _ (matrix_count o)); [exact Si|congruence|].
      intros i x y Hi Hx Hy.
      apply list_lookup_total_correct in Hx, Hy. rewrite <- Hx, <- Hy.
      symmetry. apply (Hentry i Hi). }
  destruct Hvals as (V1 & V2 & V3).
  destruct o'', o'. cbn in *. congruence.
Qed.

Lemma ComputeEigenValuesAndVectors_idempotent_witness :
  exists out'',
    ComputeEigenValuesAndVectors 65 (symmetric_pair_solved, [OStr "again"])
    = Some (symmetric_pair_solved, out'').
Proof.
  assert (Hsz : well_sized symmetric_pair) by (repeat split; reflexivity).
  exact (ComputeEigenValuesAndVectors_idempotent 65 symmetric_pair []
           [OStr "again"] symmetric_pair_solved [] Hsz eq_refl).
Defined.

(** ** The entries the constructor leaves empty *)







(** ** The pass that ends the loop *)

Section FirstPass.
Context {T : Type} `{ST : Scalar T}.

(** The loop goes on only after a pass that did not converge. *)
Lemma qr_loop_first (fuel f off : nat) (b : bool) (iters : nat)
    (s0 : qr_state T) (k : nat) (s' : qr_state T) (ab : bool) :
  qr_loop fuel f off b iters (qr_iterate f off iters s0) = Some (k, s', ab) ->
  forall j, iters <= j -> S j < k -> converged_in_pass f off j s0 = false.
Proof.
  revert iters. induction fuel as [|fuel IH]; intros iters; [discriminate|].
  cbn [qr_loop].
  assert (E : fst (qr_iteration f off iters (qr_iterate f off iters s0))
              = qr_iterate f off (S iters) s0) by reflexivity.
  assert (C : snd (qr_iteration f off iters (qr_iterate f off iters s0))
              = converged_in_pass f off iters s0) by reflexivity.
  destruct (qr_iteration f off iters (qr_iterate f off iters s0)) as [s1 c].
  cbn [fst snd] in E, C. subst s1.
  destruct ((f * f * 16 <? S iters) && negb b).
  - intros [= <- <- <-] j Hj Hlt. lia.
  - destruct c.
    + intros [= <- <- <-] j Hj Hlt. lia.
    + intros Hloop j Hj Hlt. destruct (decide (j = iters)) as [->|Hne].
      * symmetry. exact C.
      * apply (IH (S iters) Hloop); lia.
Qed.

(** Leaving the loop by convergence does not depend on the flag. *)
Lemma qr_loop_converged_any_flag (fuel f off : nat) (b : bool) (iters : nat)
    (s : qr_state T) (k : nat) (s' : qr_state T) :
  qr_loop fuel f off false iters s = Some (k, s', false) ->
  qr_loop fuel f off b iters s = Some (k, s', false).
Proof.
  revert iters s. induction fuel as [|fuel IH]; intros iters s; [discriminate|].
  cbn [qr_loop]. destruct (qr_iteration f off iters s) as [s1 c].
  rewrite andb_true_r.
  destruct (f * f * 16 <? S iters); [discriminate|]. cbn [andb].
  destruct c; [trivial|apply IH].
Qed.

Lemma report_with_benchmark (b : bool) (o : GoldenPCA T) (m : nat)
    (out : cout T) (iters : nat) (s : qr_state T) :
  report (with_benchmark b o) m out iters s =
  (with_benchmark b (fst (report o m out iters s)), snd (report o m out iters s)).
Proof.
  unfold report. cbn [features debug eigenvalues iterations with_benchmark].
  match goal with
  | |- context [@for_loop ?S ?n ?body ?s0] =>
      destruct (@for_loop S n body s0) as [vals out1]
  end.
  reflexivity.
Qed.

Lemma solve_matrix_prints_after (fuel m : nat) (o : GoldenPCA T) (out : cout T)
    (o' : GoldenPCA T) (out' : cout T) :
  solve_matrix fuel m (o, out) = Some (o', out') -> out `prefix_of` out'.
Proof.
  unfold solve_matrix.
  destruct (qr_loop fuel _ _ _ 0 (qr_init o m)) as [[[k s] ab]|]; [|discriminate].
  intros [= Hrep]. apply (f_equal snd) in Hrep. cbn [snd] in Hrep. subst out'.
  etransitivity; [|apply report_prints_after].
  destruct ab, (debug o); try reflexivity;
    repeat (etransitivity; [|apply prefix_app_r; reflexivity]);
    try reflexivity; apply prefix_app_r; reflexivity.
Qed.

Lemma solve_matrix_with_benchmark (fuel m : nat) (o : GoldenPCA T)
    (out : cout T) (o' : GoldenPCA T) (out' : cout T) :
  benchmark_mode o = false ->
  solve_matrix fuel m (o, out) = Some (o', out') ->
  OStr "Number of iterations too high" ∉ out' ->
  solve_matrix fuel m (with_benchmark true o, out)
  = Some (with_benchmark true o', out').
Proof.
  intros Hb. unfold solve_matrix.
  change (qr_init (with_benchmark true o) m) with (qr_init o m).
  cbn [features debug benchmark_mode with_benchmark]. rewrite Hb.
  destruct (qr_loop fuel _ _ false 0 (qr_init o m)) as [[[k s] ab]|] eqn:Hloop;
    [|discriminate].
  intros [= Hrep] Hno. destruct ab.
  - exfalso. apply Hno.
    pose proof (report_prints_after o m
                  ((if debug o
                    then out ++ [OStr "\nComputing Eigenvalues and vectors of matrix #";
                                 OInt (Z.of_nat m); OEndl]
                    else out) ++ [OStr "Number of iterations too high"; OEndl])
                  k s) as [rest Hrest].
    rewrite Hrep in Hrest. cbn [snd] in Hrest. rewrite Hrest.
    rewrite !elem_of_app. left. right. left.
  - rewrite (qr_loop_converged_any_flag _ _ _ true _ _ _ _ Hloop).
    rewrite report_with_benchmark, Hrep. reflexivity.
Qed.

End FirstPass.

(** X15: the iteration count a solve records is the number of the first
    pass that ends the loop: the state reported is the one after that
    many passes, no earlier pass met the convergence test, and the last
    pass either met it or, outside benchmark mode, was pass number
    [features * features * 16 + 1]. *)
Theorem solve_matrix_stops_at_the_first_converged_pass
    {T : Type} `{ST : Scalar T} (fuel m : nat) (o : GoldenPCA T) (out : cout T)
    (o' : GoldenPCA T) (out' : cout T) :
  solve_matrix fuel m (o, out) = Some (o', out') ->
  let f := features o in
  let off := m * f * f in
  exists k,
    iterations o' = <[m := of_int (Z.of_nat (S k))]> (iterations o) /\
    eigenvectors o' = qr_eigenvectors (qr_iterate f off (S k) (qr_init o m)) /\
    (forall j, j < k -> converged_in_pass f off j (qr_init o m) = false) /\
    (converged_in_pass f off k (qr_init o m) = true \/
     benchmark_mode o = false /\ k = f * f * 16).
Proof.
  intros Hsolve f off.
  destruct (solve_matrix_Some _ _ _ _ _ Hsolve) as (k & s & ab & out1 & Hloop & Hw).
  fold f off in Hloop.
  pose proof (qr_loop_first fuel f off _ 0 (qr_init o m) k s ab Hloop) as Hfirst.
  pose proof (qr_loop_counter _ _ _ _ _ _ _ _ _ Hloop) as [Hpos Hmax].
  apply (qr_loop_iterate fuel f off _ 0 (qr_init o m)) in Hloop
    as (-> & Hab & Hconv).
  destruct k as [|k]; [lia|]. exists k.
  pose proof (f_equal fst Hw) as Ho. cbn [fst] in Ho. rewrite report_fst in Ho.
  split; [rewrite Ho; reflexivity|]. split; [rewrite Ho; reflexivity|].
  split; [intros j Hj; apply Hfirst; lia|].
  destruct ab.
  - right. symmetry in Hab. apply andb_true_iff in Hab as [Hlt Hb].
    apply Nat.ltb_lt in Hlt. apply negb_true_iff in Hb.
    split; [exact Hb|]. specialize (Hmax Hb). fold f in Hlt. lia.
  - left. destruct (Hconv eq_refl) as (j & [= <-] & Hc). exact Hc.
Qed.

Lemma solve_matrix_stops_at_the_first_converged_pass_witness :
  exists o' out' k,
    solve_matrix 65 0 (symmetric_pair, []) = Some (o', out') /\
    iterations o' = <[0 := of_int (Z.of_nat (S k))]> (iterations symmetric_pair) /\
    (forall j, j < k -> converged_in_pass 2 0 j (qr_init symmetric_pair 0) = false) /\
    (converged_in_pass 2 0 k (qr_init symmetric_pair 0) = true \/
     benchmark_mode symmetric_pair = false /\ k = 2 * 2 * 16).
Proof.
  destruct (solve_matrix_total (ST := double_scalar) 65 0 symmetric_pair []
              eq_refl (Nat.le_refl 65)) as (o' & out' & Hsolve).
  destruct (solve_matrix_stops_at_the_first_converged_pass 65 0 symmetric_pair []
              o' out' Hsolve) as (k & Hits & _ & Hfirst & Hlast).
  exists o', out', k. auto.
Defined.

(** X16: benchmark mode only takes the [break] away.  A solve of a batch
    outside benchmark mode that never printed the message of the
    [break] is repeated step for step in benchmark mode: same output,
    same object up to the flag. *)
Theorem benchmark_mode_only_disables_the_break
    {T : Type} `{ST : Scalar T} (fuel : nat) (o : GoldenPCA T) (out : cout T)
    (o' : GoldenPCA T) (out' : cout T) :
  benchmark_mode o = false ->
  ComputeEigenValuesAndVectors fuel (o, out) = Some (o', out') ->
  OStr "Number of iterations too high" ∉ out' ->
  ComputeEigenValuesAndVectors fuel (with_benchmark true o, out)
  = Some (with_benchmark true o', out').
Proof.
  intros Hb Hrun Hno. unfold ComputeEigenValuesAndVectors in *.
  cbn [fst matrix_count with_benchmark] in *.
  set (step := fun (matrix_index : nat) (ow : option (GoldenPCA T * cout T)) =>
                 match ow with
                 | Some w => solve_matrix fuel matrix_index w
                 | None => None
                 end) in *.
  pose (R := fun ow1 ow2 : option (GoldenPCA T * cout T) =>
               forall o1 out1, ow1 = Some (o1, out1) ->
                 benchmark_mode o1 = false /\
                 (OStr "Number of iterations too high" ∉ out1 ->
                  ow2 = Some (with_benchmark true o1, out1))).
  assert (H : R (for_loop (matrix_count o) step (Some (o, out)))
                (for_loop (matrix_count o) step
                   (Some (with_benchmark true o, out)))).
  { apply for_loop_rel.
    - intros o1 out1 [= <- <-]. auto.
    - intros m [[o1 out1]|] ow2 _ IH o2 out2 Hstep; [|discriminate].
      destruct (IH o1 out1 eq_refl) as [Hb1 Hsame]. cbn [step] in Hstep.
      pose proof (solve_matrix_fields _ _ _ _ _ _ Hstep)
        as (_ & _ & _ & Hb2 & _).
      split; [congruence|]. intros Hno2.
      rewrite Hsame.
      + cbn [step]. apply solve_matrix_with_benchmark; assumption.
      + intros Hin. apply Hno2.
        destruct (solve_matrix_prints_after _ _ _ _ _ _ Hstep) as [rest ->].
        apply elem_of_app. left. exact Hin. }
  apply (H o' out' Hrun). exact Hno.
Qed.

Lemma benchmark_mode_only_disables_the_break_witness :
  ComputeEigenValuesAndVectors 65 (with_benchmark true symmetric_pair, [])
  = Some (with_benchmark true symmetric_pair_solved, []).
Proof.
  exact (benchmark_mode_only_disables_the_break 65 symmetric_pair []
           symmetric_pair_solved [] eq_refl eq_refl (not_elem_of_nil _)).
Defined.

(** ** The first pass *)

Lemma double_sub_0_r (x : float) : (x - 0)%float = x.
Proof.
  apply Prim2SF_inj. rewrite sub_spec.
  change (Prim2SF 0) with (S754_zero false).
  destruct (Prim2SF x) as [[|]| | |]; reflexivity.
Qed.

Lemma sub_diagonal_0 (f : nat) (rq : list float) : sub_diagonal f 0 rq = rq.
Proof.
  unfold sub_diagonal. apply (for_loop_inv (fun v => v = rq)); [reflexivity|].
  intros row v _ ->. rewrite double_sub_0_r. apply list_insert_id'.
  intros Hlt. apply list_lookup_lookup_total_lt, Hlt.
Qed.

(** X17: the first pass of a solve applies no shift: the matrix that
    Gram-Schmidt factors in pass 0 is the covariance matrix of the
    entry, read as [double]s. *)
Theorem first_pass_factors_the_covariance_matrix
    {T : Type} `{ST : Scalar T} (o : GoldenPCA T) (m k : nat) :
  let f := features o in
  k < f * f ->
  shifted_in_pass f (m * f * f) 0 (qr_init o m) !!! k =
  to_double (covariance_matrix o !!! (m * f * f + k)).
Proof.
  intros f Hk. unfold shifted_in_pass. cbn [qr_iterate].
  change (shift_value_at f (qr_rq (qr_init o m)) 0) with 0%float.
  rewrite sub_diagonal_0. unfold qr_init. cbn [qr_rq]. fold f.
  destruct (for_loop_update (f * f) (fun k => k)
              (fun k _ => to_double (covariance_matrix o !!! (m * f * f + k)))
              (replicate (f * f) 0%float)) as (_ & _ & Hin).
  - intros; assumption.
  - intros j Hj. rewrite length_replicate. exact Hj.
  - apply Hin, Hk.
Qed.

Lemma first_pass_factors_the_covariance_matrix_witness :
  shifted_in_pass 2 (1 * 2 * 2) 0 (qr_init symmetric_pair 1) !!! 3 = 2%float.
Proof.
  exact (first_pass_factors_the_covariance_matrix (ST := double_scalar)
           symmetric_pair 1 3 ltac:(cbn; lia)).
Defined.

(** ** The triangular factor *)

Lemma insert_zero_lookup (r : list float) (i j : nat) :
  i = j \/ r !!! j = 0%float -> (<[i := 0%float]> r) !!! j = 0%float.
Proof.
  intros H. destruct (decide (i = j)) as [->|Hne].
  - destruct (decide (j < length r)) as [Hlt|Hge].
    + apply list_lookup_total_insert_eq, Hlt.
    + rewrite list_insert_ge by lia.
      rewrite list_lookup_total_alt, lookup_ge_None_2 by lia. reflexivity.
  - rewrite list_lookup_total_insert_ne by exact Hne.
    destruct H; [contradiction|assumption].
Qed.

(** Lines 207-212: [r] is all zero after the clearing loop. *)
Lemma clear_qr_zero (f : nat) (q r : list float) (row col : nat) :
  row < f -> col < f -> snd (clear_qr f (q, r)) !!! (row * f + col) = 0%float.
Proof.
  intros Hrow Hcol. unfold clear_qr.
  enough (forall n, n <= f ->
            forall row col, row < n -> col < f ->
              snd (for_loop n (fun row qr =>
                     for_loop f (fun column '(q, r) =>
                       let r := <[row * f + column := 0%float]> r in
                       let q := <[row * f + column := 0%float]> q in
                       (q, r)) qr) (q, r)) !!! (row * f + col) = 0%float) as H
    by (apply (H f); [lia|exact Hrow|exact Hcol]).
  clear row col Hrow Hcol. intros n Hn.
  match goal with
  | |- forall row col, _ -> _ -> snd (for_loop n ?b _) !!! _ = _ =>
      pattern n, (for_loop n b (q, r)); apply for_loop_ind
  end.
  - intros; lia.
  - intros n0 s Hn0 IH.
    enough (forall c, c <= f ->
              let s' := for_loop c (fun column '(q, r) =>
                          let r := <[n0 * f + column := 0%float]> r in
                          let q := <[n0 * f + column := 0%float]> q in
                          (q, r)) s in
              (forall row col, row < n0 -> col < f ->
                 snd s' !!! (row * f + col) = 0%float) /\
              (forall col, col < c -> snd s' !!! (n0 * f + col) = 0%float)) as H.
    { destruct (H f (Nat.le_refl f)) as [H1 H2]. cbv zeta in H1, H2.
      intros row col Hrow Hcol. destruct (decide (row = n0)) as [->|Hne].
      - apply H2, Hcol.
      - apply H1; [lia|exact Hcol]. }
    intros c Hc. cbv zeta.
    match goal with
    | |- context [for_loop c ?b s] => pattern c, (for_loop c b s); apply for_loop_ind
    end.
    + split; [exact IH|intros; lia].
    + intros c0 [q1 r1] Hc0 [H1 H2]. cbn [snd] in *. split.
      * intros row col Hrow Hcol. apply insert_zero_lookup. right.
        apply H1; assumption.
      * intros col Hcol. apply insert_zero_lookup.
        destruct (decide (col = c0)) as [->|Hne]; [left; reflexivity|].
        right. apply H2. lia.
Qed.

(** Lines 213-236: Gram-Schmidt writes [r] on and right of the diagonal
    only. *)
Lemma gram_schmidt_keeps_lower (f : nat) (q r rq : list float) (row col : nat) :
  col < row -> row < f ->
  snd (fst (gram_schmidt f (q, r, rq))) !!! (row * f + col) = r !!! (row * f + col).
Proof.
  intros Hcol Hrow. unfold gram_schmidt.
  apply (for_loop_ind (fun _ (s : list float * list float * list float) =>
           snd (fst s) !!! (row * f + col) = r !!! (row * f + col)));
    [reflexivity|].
  intros i [[q1 r1] rq1] Hi IH. cbn [fst snd] in IH.
  apply (for_range_inv (fun s : list float * list float * list float =>
           snd (fst s) !!! (row * f + col) = r !!! (row * f + col))).
  - cbn [fst snd]. rewrite list_lookup_total_insert_ne; [exact IH|].
    intros E. apply (row_major_inj f 0 i i row col) in E; lia.
  - intros j [[q2 r2] rq2] Hj IH2. cbn [fst snd] in *.
    rewrite list_lookup_total_insert_ne; [exact IH2|].
    intros E. apply (row_major_inj f 0 i j row col) in E; lia.
Qed.

(** X18: after every pass of a solve the factor [r] is upper
    triangular: its entries below the diagonal are exactly zero. *)
Theorem r_is_upper_triangular
    {T : Type} `{ST : Scalar T} (o : GoldenPCA T) (m k row col : nat) :
  let f := features o in
  col < row -> row < f ->
  qr_r (qr_iterate f (m * f * f) (S k) (qr_init o m)) !!! (row * f + col)
  = 0%float.
Proof.
  intros f Hcol Hrow. cbn [qr_iterate].
  set (s := qr_iterate f (m * f * f) k (qr_init o m)).
  unfold qr_iteration.
  pose proof (clear_qr_zero f (qr_q s) (qr_r s) row col Hrow ltac:(lia)) as Hz.
  destruct (clear_qr f (qr_q s, qr_r s)) as [q0 r0]. cbn [snd] in Hz.
  pose proof (gram_schmidt_keeps_lower f q0 r0
                (sub_diagonal f (shift_value_at f (qr_rq s) k) (qr_rq s))
                row col Hcol Hrow) as Hk.
  destruct (gram_schmidt f _) as [[q1 r1] rq1]. cbn [fst snd qr_r] in *.
  congruence.
Qed.

Lemma r_is_upper_triangular_witness :
  qr_r (qr_iterate 2 (1 * 2 * 2) 3 (qr_init symmetric_pair 1)) !!! (1 * 2 + 0)
  = 0%float.
Proof.
  exact (r_is_upper_triangular (ST := double_scalar) symmetric_pair 1 2 1 0
           (Nat.lt_0_succ 0) (Nat.lt_succ_diag_r 1)).
Defined.
